(** * Parallel debug orchestration engine: configuration, worker, orchestrator
      and result aggregator of [debug_helpers], embedded in Rocq.

    Python values are modelled as follows.
    - [int] is [Z]; [str] is [string] (its characters are read as code points
      below 128, the only ones the modelled case folding touches);
    - a [dict] keyed by strings is a [gmap string _]; a [set] is a [gset];
    - a [float] is a rational of [Q]; sums and quotients are built in the
      order in which the source computes them, and what is proved of them
      uses that order and comparisons only, never a law of exact arithmetic
      that floating-point numbers do not obey;
    - a raised exception is a value of [exn], and a call that may raise
      returns a [result];
    - an object mutated in place is threaded explicitly: a method returns the
      new state of [self] next to its result, also when it raises. *)

From Stdlib Require Import ZArith QArith Lia.
From Stdlib Require Import Strings.String Strings.Ascii Numbers.DecimalString.
From stdpp Require Import gmap strings list fin_maps.

Local Open Scope Z_scope.

(** ** Python exceptions and fallible calls *)

Inductive exn : Type :=
  | ValueError (msg : string)
  | RuntimeError (msg : string)
  | FileNotFoundError (msg : string)
  | TimeoutError (msg : string)
  | OSError (msg : string)
  | TimeoutExpired (msg : string)
  | IndexError (msg : string)
  | NotImplementedError (msg : string).

(** [str(e)] of an exception built from one message argument. *)
Definition exn_str (e : exn) : string :=
  match e with
  | ValueError m | RuntimeError m | FileNotFoundError m | TimeoutError m
  | OSError m | TimeoutExpired m | IndexError m | NotImplementedError m => m
  end.

Inductive result (A : Type) : Type :=
  | Ok (a : A)
  | Raise (e : exn).
Arguments Ok {A} a.
Arguments Raise {A} e.

(** [str(n)] of an integer, as an f-string renders it. *)
Definition str_of_Z (n : Z) : string := NilZero.string_of_int (Z.to_int n).

(** ** Built-in string methods used by the sources *)

Module Py.

Definition lower_char (c : ascii) : ascii :=
  let n := N_of_ascii c in
  if ((65 <=? n) && (n <=? 90))%N then ascii_of_N (n + 32) else c.

(** [s.lower()] *)
Fixpoint lower (s : string) : string :=
  match s with
  | EmptyString => EmptyString
  | String c s' => String (lower_char c) (lower s')
  end.

(** The characters [str.isspace] accepts below code point 128: tab, line
    feed, vertical tab, form feed, carriage return, the four separators
    28 to 31 and the space. *)
Definition is_space (c : ascii) : bool :=
  let n := N_of_ascii c in
  (((9 <=? n) && (n <=? 13)) || ((28 <=? n) && (n <=? 32)))%N.

Fixpoint lstrip (s : string) : string :=
  match s with
  | EmptyString => EmptyString
  | String c s' => if is_space c then lstrip s' else s
  end.

(** [s.strip()] *)
Definition strip (s : string) : string :=
  String.rev (lstrip (String.rev (lstrip s))).

(** [s.split()]: maximal runs of characters that are not white space.
    [cur] is the word being read. *)
Fixpoint split_go (s cur : string) : list string :=
  match s with
  | EmptyString => if decide (cur = "") then [] else [cur]
  | String c s' =>
      if is_space c then
        (if decide (cur = "") then split_go s' "" else cur :: split_go s' "")
      else split_go s' (cur +:+ String c "")
  end.
Definition split (s : string) : list string := split_go s "".

(** [s.startswith(p)] *)
Fixpoint startswith (s p : string) : bool :=
  match p, s with
  | EmptyString, _ => true
  | String a p', String b s' => Ascii.eqb a b && startswith s' p'
  | String _ _, EmptyString => false
  end.

(** [p in s] *)
Fixpoint contains (s p : string) : bool :=
  startswith s p ||
  match s with
  | EmptyString => false
  | String _ s' => contains s' p
  end.

(** [s.endswith(p)] *)
Fixpoint endswith (s p : string) : bool :=
  String.eqb s p ||
  match s with
  | EmptyString => false
  | String _ s' => endswith s' p
  end.

(** Line boundaries of [str.splitlines] below code point 128. *)
Definition is_linebreak (c : ascii) : bool :=
  let n := N_of_ascii c in
  (((10 <=? n) && (n <=? 13)) || ((28 <=? n) && (n <=? 30)))%N.

(** [s.splitlines()]; a carriage return followed by a line feed is one
    boundary, and a final boundary opens no empty last line. *)
Fixpoint splitlines_go (s cur : string) : list string :=
  match s with
  | EmptyString => if decide (cur = "") then [] else [cur]
  | String c s' =>
      if is_linebreak c then
        match s' with
        | String d s'' =>
            if Ascii.eqb c "013" && Ascii.eqb d "010"
            then cur :: splitlines_go s'' ""
            else cur :: splitlines_go s' ""
        | EmptyString => [cur]
        end
      else splitlines_go s' (cur +:+ String c "")
  end.
Definition splitlines (s : string) : list string := splitlines_go s "".

End Py.

(** ** The [re] module: patterns and [search]

    A compiled pattern is a regular expression; [search] is decided with
    Brzozowski derivatives.  A lazy quantifier accepts the same strings as the
    greedy one, so [.*?] is [Star AnyChar]; the flag [re.I] is the [ci]
    argument of the matcher. *)

Module Re.

Inductive regex : Type :=
  | Void
  | Eps
  | Chr (c : ascii)
  | AnyChar
  | Digit
  | Cat (r1 r2 : regex)
  | Alt (r1 r2 : regex)
  | Star (r : regex).

Fixpoint lit (s : string) : regex :=
  match s with
  | EmptyString => Eps
  | String c s' => Cat (Chr c) (lit s')
  end.

Fixpoint alts (rs : list regex) : regex :=
  match rs with
  | [] => Void
  | [r] => r
  | r :: rs' => Alt r (alts rs')
  end.

Definition is_digit (c : ascii) : bool :=
  let n := N_of_ascii c in ((48 <=? n) && (n <=? 57))%N.

(** One character against one atom: [.] takes anything but a line feed. *)
Definition chr_matches (ci : bool) (pat c : ascii) : bool :=
  if ci then Ascii.eqb (Py.lower_char pat) (Py.lower_char c)
  else Ascii.eqb pat c.

Fixpoint nullable (r : regex) : bool :=
  match r with
  | Void | Chr _ | AnyChar | Digit => false
  | Eps | Star _ => true
  | Cat r1 r2 => nullable r1 && nullable r2
  | Alt r1 r2 => nullable r1 || nullable r2
  end.

Fixpoint deriv (ci : bool) (c : ascii) (r : regex) : regex :=
  match r with
  | Void | Eps => Void
  | Chr a => if chr_matches ci a c then Eps else Void
  | AnyChar => if Ascii.eqb c "010" then Void else Eps
  | Digit => if is_digit c then Eps else Void
  | Cat r1 r2 =>
      if nullable r1
      then Alt (Cat (deriv ci c r1) r2) (deriv ci c r2)
      else Cat (deriv ci c r1) r2
  | Alt r1 r2 => Alt (deriv ci c r1) (deriv ci c r2)
  | Star r1 => Cat (deriv ci c r1) (Star r1)
  end.

(** [pattern.match(s)] is not [None]: some prefix of [s] is in the language. *)
Fixpoint match_ (ci : bool) (r : regex) (s : string) : bool :=
  nullable r ||
  match s with
  | EmptyString => false
  | String c s' => match_ ci (deriv ci c r) s'
  end.

(** [pattern.search(s)] is not [None]: a match starts somewhere in [s]. *)
Fixpoint search (ci : bool) (r : regex) (s : string) : bool :=
  match_ ci r s ||
  match s with
  | EmptyString => false
  | String _ s' => search ci r s'
  end.

(** The language of a pattern, to state what [match_] decides. *)
Inductive in_lang (ci : bool) : regex → string → Prop :=
  | in_eps : in_lang ci Eps ""
  | in_chr a c : chr_matches ci a c = true → in_lang ci (Chr a) (String c "")
  | in_any c : Ascii.eqb c "010" = false → in_lang ci AnyChar (String c "")
  | in_digit c : is_digit c = true → in_lang ci Digit (String c "")
  | in_cat r1 r2 s1 s2 :
      in_lang ci r1 s1 → in_lang ci r2 s2 → in_lang ci (Cat r1 r2) (s1 +:+ s2)
  | in_alt_l r1 r2 s : in_lang ci r1 s → in_lang ci (Alt r1 r2) s
  | in_alt_r r1 r2 s : in_lang ci r2 s → in_lang ci (Alt r1 r2) s
  | in_star_nil r : in_lang ci (Star r) ""
  | in_star_cons r s1 s2 :
      in_lang ci r s1 → in_lang ci (Star r) s2 → in_lang ci (Star r) (s1 +:+ s2).

End Re.

(** ** parallel_config.py *)

Inductive TestType : Type :=
  | UI_FLOW | API_TEST | DATABASE | INTEGRATION | PERFORMANCE | SECURITY.

(** [str(t)] of an [Enum] member: the class name, a dot, the member name. *)
Definition TestType_str (t : TestType) : string :=
  match t with
  | UI_FLOW => "TestType.UI_FLOW"
  | API_TEST => "TestType.API_TEST"
  | DATABASE => "TestType.DATABASE"
  | INTEGRATION => "TestType.INTEGRATION"
  | PERFORMANCE => "TestType.PERFORMANCE"
  | SECURITY => "TestType.SECURITY"
  end.

Record TestScenario : Type := mkScenario {
  name : string;
  test_type : TestType;
  test_function : string;
  user_type : option string;
  timeout : Z;
  environment_vars : gmap string string
}.

Record ResourceConfig : Type := mkResourceConfig {
  max_workers : Z;
  base_port : Z;
  port_range : Z
}.

Module Config.

Record ParallelDebugConfig : Type := mkConfig {
  resource_config : ResourceConfig;
  allocated_ports : gmap string (list Z);
  next_port : Z
}.

(** [ParallelDebugConfig()]: the default [ResourceConfig] has base port 3100
    and a range of 100 ports; [max_workers] is whatever the host gives. *)
Definition init (workers : Z) : ParallelDebugConfig :=
  mkConfig (mkResourceConfig workers 3100 100) ∅ 3100.

(** The [for _ in range(count)] loop of [allocate_ports]: [n] iterations left,
    [next] is [self.next_port], [ports] the list built so far.  The cursor is
    a field of [self], so the value it has when the loop raises stays. *)
Fixpoint allocate_loop (n : nat) (limit next : Z) (ports : list Z)
  : option (list Z) * Z :=
  match n with
  | O => (Some ports, next)
  | S n' =>
      if limit <=? next then (None, next)
      else allocate_loop n' limit (next + 1) (ports ++ [next])
  end.

Definition allocate_ports (self : ParallelDebugConfig) (worker_id : string)
    (count : Z) : result (list Z) * ParallelDebugConfig :=
  match allocated_ports self !! worker_id with
  | Some _ =>
      (Raise (ValueError ("Ports already allocated for worker " +:+ worker_id)),
       self)
  | None =>
      let rc := resource_config self in
      match allocate_loop (Z.to_nat count) (base_port rc + port_range rc)
                          (next_port self) [] with
      | (None, next) =>
          (Raise (RuntimeError "Port range exhausted"),
           mkConfig rc (allocated_ports self) next)
      | (Some ports, next) =>
          (Ok ports,
           mkConfig rc (<[worker_id := ports]> (allocated_ports self)) next)
      end
  end.

Definition release_ports (self : ParallelDebugConfig) (worker_id : string)
  : ParallelDebugConfig :=
  match allocated_ports self !! worker_id with
  | Some _ =>
      mkConfig (resource_config self) (delete worker_id (allocated_ports self))
               (next_port self)
  | None => self
  end.

(** [get_worker_env]; [environ] is [os.environ].  Reading [ports[0]] of an
    empty allocation raises. *)
Definition get_worker_env (self : ParallelDebugConfig)
    (environ : gmap string string) (worker_id : string) (scenario : TestScenario)
  : result (gmap string string) :=
  let with_ports :=
    match allocated_ports self !! worker_id with
    | None => Ok environ
    | Some [] => Raise (IndexError "list index out of range")
    | Some (p0 :: rest) =>
        Ok (<["API_PORT" := match rest with
                            | p1 :: _ => str_of_Z p1
                            | [] => str_of_Z (p0 + 1)
                            end]>
              (<["APP_PORT" := str_of_Z p0]> environ))
    end in
  match with_ports with
  | Raise e => Raise e
  | Ok env =>
      Ok (<["DEBUG_MODE" := "parallel"]>
            (<["PARALLEL_SCENARIO" := name scenario]>
               (<["PARALLEL_WORKER_ID" := worker_id]>
                  (environment_vars scenario ∪ env))))
  end.

(** A caller's use of the two methods on one configuration object. *)
Inductive call : Type :=
  | Allocate (worker_id : string) (count : Z)
  | Release (worker_id : string).

Definition do_call (self : ParallelDebugConfig) (c : call) : ParallelDebugConfig :=
  match c with
  | Allocate w n => snd (allocate_ports self w n)
  | Release w => release_ports self w
  end.

Definition do_calls (self : ParallelDebugConfig) (cs : list call)
  : ParallelDebugConfig :=
  fold_left do_call cs self.

(** Number of ports of [[base_port, base_port + port_range)] not yet handed
    out by the cursor. *)
Definition remaining (self : ParallelDebugConfig) : Z :=
  Z.max 0 (base_port (resource_config self) + port_range (resource_config self)
           - next_port self).

(** No port is in the lists of two different workers of the table. *)
Definition exclusive (tbl : gmap string (list Z)) : Prop :=
  ∀ w1 w2 l1 l2 p,
    w1 ≠ w2 → tbl !! w1 = Some l1 → tbl !! w2 = Some l2 →
    p ∈ l1 → p ∈ l2 → False.

(** Every port of the table was handed out by the cursor already. *)
Definition below_cursor (self : ParallelDebugConfig) : Prop :=
  ∀ w l p, allocated_ports self !! w = Some l → p ∈ l → p < next_port self.

(** The two facts the table keeps through every call. *)
Definition table_ok (self : ParallelDebugConfig) : Prop :=
  exclusive (allocated_ports self) ∧ below_cursor self.

End Config.

(** ** debug_worker.py *)

(** A finding as [DebugSessionState.add_finding] records it. *)
Record Finding : Type := mkFinding {
  ftype : option string;
  description : string;
  evidence : option string;
  fix_suggestion : option string
}.

(** [WorkerResult.to_dict()]: the record a worker puts on the result queue and
    the aggregator reads.  Durations are exact rationals here. *)
Record WorkerResult : Type := mkResult {
  worker_id : string;
  scenario_name : string;
  success : bool;
  duration : option Q;
  error : option string;
  traceback : option string;
  logs : list string;
  findings : list Finding;
  session_id : option string;
  checkpoints : list string
}.

Module Worker.

(** What [subprocess.Popen] and [communicate(timeout=...)] do for a command:
    the child ends with a return code, is still running when the time is up,
    or cannot be created. *)
Inductive ChildOutcome : Type :=
  | Exited (returncode : Z) (stdout stderr : string)
  | StillRunning
  | NotCreated (msg : string).

(** What iterating [base_path.rglob(pattern)] gives for a relative pattern:
    the paths found, in the order they are yielded, or the error [pathlib]
    raises before any of them is taken: the [ValueError] of a pattern it
    refuses, or the [OSError] of a directory it cannot read. *)
Inductive GlobOutcome : Type :=
  | Files (files : list string)
  | InvalidPattern
  | ScanError (msg : string).

(** What [path.exists()] does: it answers, also for a path that cannot
    exist, or raises the [OSError] of a [stat] call that fails for another
    reason than a missing path, such as a directory that may not be searched
    or a name that is too long. *)
Inductive ExistsOutcome : Type :=
  | Present
  | Absent
  | StatError (msg : string).

(** Everything outside the worker that its run depends on. *)
Record World : Type := mkWorld {
  executable : string;
  module_dir : string;
  project_dir : string;
  session_start : result string;
  path_exists : string → ExistsOutcome;
  rglob : string → string → GlobOutcome;
  child : list string → gmap string string → ChildOutcome;
  elapsed : Q;
  format_exc : exn → string;
  output_findings : string → list Finding
}.

(** Modelled from the spec: [DebugSessionState], whose module
    debug_session_state.py is not among the sources.  Of the per-worker state
    only what the worker writes and reads back is kept: the ordered
    checkpoint names, the ordered findings and the failed attempts. *)
Record SessionState : Type := mkState {
  st_session_id : string;
  st_checkpoints : list string;
  st_findings : list Finding;
  st_failed_attempts : list string
}.

(** The worker object, with its two queues as the lists of what was put on
    them, and two records of what it did to child processes: the commands it
    created a process for, and how many times it called [process.kill()]. *)
Record DebugWorker : Type := mkWorker {
  scenario : TestScenario;
  env : gmap string string;
  state : option SessionState;
  result_ : WorkerResult;
  status_queue : list (string * string);
  result_queue : list WorkerResult;
  spawned : list (list string * gmap string string);
  kills : nat
}.

Definition new_result (worker_id scenario_name : string) : WorkerResult :=
  mkResult worker_id scenario_name false None None None [] [] None [].

(** [DebugWorker(worker_id, scenario, ..., env)] with empty queues. *)
Definition new_worker (id : string) (sc : TestScenario)
    (env : gmap string string) : DebugWorker :=
  mkWorker sc env None (new_result id (name sc)) [] [] [] 0.

(** *** Computations on the worker that may raise *)

Definition M (A : Type) : Type := DebugWorker → result A * DebugWorker.

Definition ret {A} (a : A) : M A := λ w, (Ok a, w).
Definition raise {A} (e : exn) : M A := λ w, (Raise e, w).
Definition bind {A B} (m : M A) (k : A → M B) : M B :=
  λ w, match m w with
       | (Ok a, w') => k a w'
       | (Raise e, w') => (Raise e, w')
       end.
(** A call that leaves the worker alone and may raise. *)
Definition of_result {A} (r : result A) : M A := λ w, (r, w).
Definition get : M DebugWorker := λ w, (Ok w, w).
Definition modify (f : DebugWorker → DebugWorker) : M unit := λ w, (Ok tt, f w).
(** [try: m except ...: h e] *)
Definition try_except {A} (m : M A) (h : exn → M A) : M A :=
  λ w, match m w with
       | (Ok a, w') => (Ok a, w')
       | (Raise e, w') => h e w'
       end.

(** [try: m finally: f] *)
Definition finally {A} (m : M A) (f : M unit) : M A :=
  λ w, match m w with
       | (r, w') =>
           match f w' with
           | (Ok _, w'') => (r, w'')
           | (Raise e, w'') => (Raise e, w'')
           end
       end.

Notation "x <- m ;; k" := (bind m (λ x, k))
  (at level 100, m at next level, right associativity).
Notation "m ;;; k" := (bind m (λ _, k))
  (at level 100, right associativity).

Definition set_result (f : WorkerResult → WorkerResult) : M unit :=
  modify (λ w, mkWorker (scenario w) (env w) (state w) (f (result_ w))
                        (status_queue w) (result_queue w) (spawned w) (kills w)).

Definition set_state (f : SessionState → SessionState) : M unit :=
  modify (λ w, mkWorker (scenario w) (env w) (f <$> state w) (result_ w)
                        (status_queue w) (result_queue w) (spawned w) (kills w)).

(** [WorkerResult.complete] *)
Definition complete (world : World) (ok : bool) (err : option string)
    (r : WorkerResult) : WorkerResult :=
  mkResult (worker_id r) (scenario_name r) ok (Some (elapsed world)) err
           (traceback r) (logs r) (findings r) (session_id r) (checkpoints r).

Definition _send_status (status message : string) : M unit :=
  modify (λ w, mkWorker (scenario w) (env w) (state w) (result_ w)
                        (status_queue w ++ [(status, message)])
                        (result_queue w) (spawned w) (kills w)).

Definition create_checkpoint (cp : string) : M unit :=
  set_state (λ st, mkState (st_session_id st) (st_checkpoints st ++ [cp])
                           (st_findings st) (st_failed_attempts st)).

Definition add_finding (f : Finding) : M unit :=
  set_state (λ st, mkState (st_session_id st) (st_checkpoints st)
                           (st_findings st ++ [f]) (st_failed_attempts st)).

Definition record_failed_attempt (err : string) : M unit :=
  set_state (λ st, mkState (st_session_id st) (st_checkpoints st)
                           (st_findings st) (st_failed_attempts st ++ [err])).

Definition _initialize_session (world : World) : M unit :=
  match session_start world with
  | Raise e => raise e
  | Ok sid =>
      modify (λ w, mkWorker (scenario w) (env w) (Some (mkState sid [] [] []))
                (let r := result_ w in
                 mkResult (worker_id r) (scenario_name r) (success r)
                          (duration r) (error r) (traceback r) (logs r)
                          (findings r) (Some sid) (checkpoints r))
                (status_queue w) (result_queue w) (spawned w) (kills w))
  end.

(** *** Resolving a test function to a script *)

(** [part.lstrip('/')] *)
Fixpoint lstrip_sep (s : string) : string :=
  match s with
  | EmptyString => s
  | String c s' => if Ascii.eqb c "/" then lstrip_sep s' else s
  end.

(** [splitroot] of the POSIX flavour of [pathlib]: the root is empty, one
    slash, or two slashes when the part begins with exactly two. *)
Definition splitroot (part : string) : string * string :=
  if Py.startswith part "/" then
    let stripped := lstrip_sep part in
    if (String.length part - String.length stripped =? 2)%nat
    then ("//", stripped) else ("/", stripped)
  else ("", part).

(** [rel.split('/')]; [cur] is the component being read. *)
Fixpoint split_sep (s cur : string) : list string :=
  match s with
  | EmptyString => [cur]
  | String c s' =>
      if Ascii.eqb c "/" then cur :: split_sep s' ""
      else split_sep s' (cur +:+ String c "")
  end.

(** The components [parse_parts] keeps: not empty and not a single dot. *)
Definition kept (x : string) : bool :=
  negb (String.eqb x "") && negb (String.eqb x ".").

(** A pure path as [pathlib] holds it: the root and the components. *)
Definition parse_parts (part : string) : string * list string :=
  let '(root, rel) := splitroot part in (root, List.filter kept (split_sep rel "")).

(** ['/'.join(parts)] *)
Fixpoint join_sep (parts : list string) : string :=
  match parts with
  | [] => ""
  | [x] => x
  | x :: parts' => x +:+ "/" +:+ join_sep parts'
  end.

(** [str(path)] *)
Definition path_str (p : string * list string) : string :=
  let '(root, parts) := p in
  if String.eqb root "" then
    match parts with [] => "." | _ :: _ => join_sep parts end
  else root +:+ join_sep parts.

(** [str(Path(a) / b)]: an absolute [b] replaces [a]; the result is in the
    normal form of [pathlib]. *)
Definition path_join (a b : string) : string :=
  let '(root_a, parts_a) := parse_parts a in
  let '(root_b, parts_b) := parse_parts b in
  path_str (if String.eqb root_b "" then (root_a, parts_a ++ parts_b)
            else (root_b, parts_b)).

Fixpoint basename_go (s cur : string) : string :=
  match s with
  | EmptyString => cur
  | String c s' =>
      if Ascii.eqb c "/" then basename_go s' "" else basename_go s' (cur +:+ String c "")
  end.

(** The part of [s] from its last dot on. *)
Fixpoint from_last_dot (s : string) : option string :=
  match s with
  | EmptyString => None
  | String c s' =>
      match from_last_dot s' with
      | Some t => Some t
      | None => if Ascii.eqb c "." then Some s else None
      end
  end.

(** [Path(p).suffix]: a leading or a final dot of the name opens no suffix. *)
Definition path_suffix (p : string) : string :=
  match basename_go p "" with
  | EmptyString => ""
  | String _ rest =>
      match from_last_dot rest with
      | Some t => if decide (t = ".") then "" else t
      | None => ""
      end
  end.

Definition search_paths (world : World) : list string :=
  [ path_join (path_join (project_dir world) "tests") "integration";
    path_join (path_join (project_dir world) "tests") "unit";
    path_join (path_join (project_dir world) "tests") "parallel";
    path_join (module_dir world) "test_scripts" ].

Definition script_exts : list string := [".py"; ".js"].

(** [base_path.rglob(pattern)] as the [for] loop meets it: a pattern that
    is not relative is refused by [pathlib] itself. *)
Definition rglob_files (world : World) (base_path pattern : string)
  : result (list string) :=
  if Py.startswith pattern "/" then
    Raise (NotImplementedError "Non-relative patterns are unsupported")
  else
    match rglob world base_path pattern with
    | Files files => Ok files
    | InvalidPattern =>
        Raise (ValueError "Invalid pattern: '**' can only be an entire path component")
    | ScanError msg => Raise (OSError msg)
    end.

(** [path.exists()] *)
Definition exists_ (world : World) (path : string) : result bool :=
  match path_exists world path with
  | Present => Ok true
  | Absent => Ok false
  | StatError msg => Raise (OSError msg)
  end.

(** The loop over the two suffixes: the first exact file that exists. *)
Fixpoint exact_file (world : World) (base_path test_function : string)
    (exts : list string) : result (option string) :=
  match exts with
  | [] => Ok None
  | ext :: exts' =>
      let test_file := path_join base_path (test_function +:+ ext) in
      match exists_ world test_file with
      | Ok true => Ok (Some test_file)
      | Ok false => exact_file world base_path test_function exts'
      | Raise e => Raise e
      end
  end.

(** One iteration of the loop over the roots: the exact file first, then
    the recursive search; each of the calls may raise. *)
Definition find_under (world : World) (test_function base_path : string)
  : result (option string) :=
  match exists_ world base_path with
  | Ok true =>
      match exact_file world base_path test_function script_exts with
      | Ok (Some test_file) => Ok (Some test_file)
      | Ok None =>
          match rglob_files world base_path (test_function +:+ ".*") with
          | Ok files =>
              Ok (List.find (λ f, bool_decide (path_suffix f ∈ script_exts)) files)
          | Raise e => Raise e
          end
      | Raise e => Raise e
      end
  | Ok false => Ok None
  | Raise e => Raise e
  end.

(** The loop over the roots: it ends at the first path returned and at the
    first exception. *)
Fixpoint first_found {A B} (f : A → result (option B)) (l : list A)
  : result (option B) :=
  match l with
  | [] => Ok None
  | a :: l' =>
      match f a with
      | Ok (Some b) => Ok (Some b)
      | Ok None => first_found f l'
      | Raise e => Raise e
      end
  end.

Definition _find_test_script (world : World) (test_function : string)
  : result (option string) :=
  first_found (find_under world test_function) (search_paths world).

(** Truth value of an optional string: [None] and the empty string are false. *)
Definition truthy (o : option string) : bool :=
  match o with
  | Some s => negb (String.eqb s "")
  | None => false
  end.

(** *** Running the script *)

Definition spawn (cmd : list string) (env : gmap string string) : M unit :=
  modify (λ w, mkWorker (scenario w) (Worker.env w) (state w) (result_ w)
                        (status_queue w) (result_queue w)
                        (spawned w ++ [(cmd, env)]) (kills w)).

(** The body of the [try] in [_execute_test_script], with the exceptions of
    [subprocess] as they are raised. *)
Definition run_child (world : World) (cmd : list string)
    (env : gmap string string) : M unit :=
  match child world cmd env with
  | NotCreated msg => raise (OSError msg)
  | StillRunning => spawn cmd env ;;; raise (TimeoutExpired "")
  | Exited returncode stdout stderr =>
      spawn cmd env ;;;
      set_result (λ r,
        let logs1 :=
          if decide (stdout = "") then logs r
          else logs r ++ Py.splitlines stdout in
        let logs2 :=
          if decide (stderr = "") then logs1
          else logs1 ++ ((λ line, "STDERR: " +:+ line) <$> Py.splitlines stderr) in
        mkResult (worker_id r) (scenario_name r) (success r) (duration r)
                 (error r) (traceback r) logs2 (findings r) (session_id r)
                 (checkpoints r)) ;;;
      if decide (returncode = 0) then
        (* _parse_test_output: it raises nothing; of what it stores only the
           findings are kept in this model *)
        set_state (λ st, mkState (st_session_id st) (st_checkpoints st)
                     (st_findings st ++ output_findings world (stdout +:+ stderr))
                     (st_failed_attempts st))
      else
        raise (RuntimeError ("Test script failed with code " +:+ str_of_Z returncode))
  end.

(** [process.kill()] *)
Definition kill : M unit :=
  modify (λ w, mkWorker (scenario w) (env w) (state w) (result_ w)
                        (status_queue w) (result_queue w) (spawned w) (S (kills w))).

Definition _execute_test_script (world : World) (script_path : string)
    (env : gmap string string) : M unit :=
  _send_status "executing" ("Running " +:+ script_path) ;;;
  cmd <- (if Py.endswith script_path ".py" then ret [executable world; script_path]
          else if Py.endswith script_path ".js" then ret ["node"; script_path]
          else raise (ValueError ("Unsupported script type: " +:+ script_path))) ;;
  w <- get ;;
  try_except (run_child world cmd env)
    (λ e, match e with
          | TimeoutExpired _ =>
              kill ;;;
              raise (TimeoutError ("Test exceeded timeout of "
                                   +:+ str_of_Z (timeout (scenario w)) +:+ "s"))
          | _ => raise (RuntimeError ("Failed to execute test script: " +:+ exn_str e))
          end).

(** [d.get(k, default)] *)
Definition env_get (env : gmap string string) (k dflt : string) : string :=
  default dflt (env !! k).

(** *** The execution strategies *)

Definition _run_ui_test (world : World) : M unit :=
  _send_status "running" "Starting UI test" ;;;
  w <- get ;;
  let test_function := test_function (scenario w) in
  test_script <-
    (if negb (Py.endswith test_function ".py" || Py.endswith test_function ".js")
     then of_result (_find_test_script world test_function)
     else ret (Some test_function)) ;;
  if negb (truthy test_script) then
    raise (FileNotFoundError ("Test script not found: " +:+ test_function))
  else
    let sid := default "" (st_session_id <$> state w) in
    let env1 := <["DEBUG_SESSION_ID" := sid]> (env w) in
    let env2 := <["DEBUG_WORKER_ID" := worker_id (result_ w)]> env1 in
    let env3 :=
      <["BASE_URL" := "http://localhost:" +:+ env_get env2 "APP_PORT" "3000"]> env2 in
    let test_env :=
      if decide (user_type (scenario w) = Some "recruiter") then
        <["TEST_PASSWORD" := env_get env3 "TEST_RECRUITER_PASSWORD" ""]>
          (<["TEST_EMAIL" := env_get env3 "TEST_RECRUITER_EMAIL" ""]> env3)
      else if decide (user_type (scenario w) = Some "candidate") then
        <["TEST_PASSWORD" := env_get env3 "TEST_CANDIDATE_PASSWORD" ""]>
          (<["TEST_EMAIL" := env_get env3 "TEST_CANDIDATE_EMAIL" ""]> env3)
      else env3 in
    _execute_test_script world (default "" test_script) test_env ;;;
    create_checkpoint "ui_test_complete".

Definition _run_api_test (world : World) : M unit :=
  _send_status "running" "Starting API tests" ;;;
  w <- get ;;
  test_script <- of_result (_find_test_script world (test_function (scenario w))) ;;
  (if truthy test_script then
     let test_env :=
       <["API_BASE_URL" := "http://localhost:" +:+ env_get (env w) "API_PORT" "3001"]>
         (env w) in
     _execute_test_script world (default "" test_script) test_env
   else ret tt) ;;;
  create_checkpoint "api_test_complete".

Definition _run_database_test : M unit :=
  _send_status "running" "Starting database tests" ;;;
  add_finding (mkFinding (Some "observation") "Database test execution placeholder"
                         (Some "Would run database-specific tests here") None) ;;;
  create_checkpoint "database_test_complete".

Definition _run_integration_test (world : World) : M unit :=
  _send_status "running" "Starting integration tests" ;;;
  w <- get ;;
  test_script <- of_result (_find_test_script world (test_function (scenario w))) ;;
  (if truthy test_script then
     _execute_test_script world (default "" test_script) (env w)
   else ret tt) ;;;
  create_checkpoint "integration_test_complete".

Definition _run_performance_test (world : World) : M unit :=
  _send_status "running" "Starting performance tests" ;;;
  w <- get ;;
  test_script <- of_result (_find_test_script world (test_function (scenario w))) ;;
  (if truthy test_script then
     _execute_test_script world (default "" test_script) (env w)
   else ret tt) ;;;
  create_checkpoint "performance_test_complete".

(** The [if]/[elif] chain of [run] on [scenario.test_type]. *)
Definition dispatch (world : World) : M unit :=
  w <- get ;;
  match test_type (scenario w) with
  | UI_FLOW => _run_ui_test world
  | API_TEST => _run_api_test world
  | DATABASE => _run_database_test
  | INTEGRATION => _run_integration_test world
  | PERFORMANCE => _run_performance_test world
  | t => raise (ValueError ("Unknown test type: " +:+ TestType_str t))
  end.

(** The body of the [try] in [run]. *)
Definition attempt (world : World) : M unit :=
  _initialize_session world ;;;
  w <- get ;;
  _send_status "starting" ("Initializing " +:+ name (scenario w)) ;;;
  dispatch world ;;;
  set_result (complete world true None) ;;;
  _send_status "completed" ("Successfully completed " +:+ name (scenario w)).

(** The [except Exception as e] handler of [run]. *)
Definition on_failure (world : World) (e : exn) : M unit :=
  set_result (complete world false (Some (exn_str e))) ;;;
  set_result (λ r, mkResult (worker_id r) (scenario_name r) (success r)
                     (duration r) (error r) (Some (format_exc world e)) (logs r)
                     (findings r) (session_id r) (checkpoints r)) ;;;
  _send_status "failed" ("Failed: " +:+ exn_str e) ;;;
  record_failed_attempt (exn_str e).

Definition _cleanup : M unit :=
  _send_status "cleanup" "Cleaning up resources".

Definition _send_final_result : M unit :=
  w <- get ;;
  (match state w with
   | Some st =>
       set_result (λ r, mkResult (worker_id r) (scenario_name r) (success r)
                          (duration r) (error r) (traceback r) (logs r)
                          (st_findings st) (session_id r) (st_checkpoints st))
   | None => ret tt
   end) ;;;
  modify (λ w, mkWorker (scenario w) (env w) (state w) (result_ w)
                        (status_queue w) (result_queue w ++ [result_ w]) (spawned w) (kills w)).

(** [DebugWorker.run]: the worker as it is left when [run] returns. *)
Definition run (world : World) (w : DebugWorker) : DebugWorker :=
  snd (finally (try_except (attempt world) (on_failure world))
               (_cleanup ;;; _send_final_result) w).

(** The messages of the two failures of a child. *)
Definition timeout_message (sc : TestScenario) : string :=
  "Test exceeded timeout of " +:+ str_of_Z (timeout sc) +:+ "s".
Definition exit_message (returncode : Z) : string :=
  "Failed to execute test script: " +:+ "Test script failed with code "
  +:+ str_of_Z returncode.

(** What a computation that created at most one child leaves behind: no
    child and no kill; or one child, killed once and answered with the
    timeout error if it was still running, and answered with the error of
    its return code if that is not 0. *)
Definition launch_spec (world : World) (sc : TestScenario)
    (out : result unit * DebugWorker) : Prop :=
  (spawned out.2 = [] ∧ kills out.2 = 0%nat)
  ∨ ∃ cmd cenv, spawned out.2 = [(cmd, cenv)] ∧
      match child world cmd cenv with
      | StillRunning =>
          out.1 = Raise (TimeoutError (timeout_message sc)) ∧ kills out.2 = 1%nat
      | Exited returncode _ _ =>
          kills out.2 = 0%nat
          ∧ (returncode ≠ 0 → out.1 = Raise (RuntimeError (exit_message returncode)))
      | NotCreated _ => False
      end.

(** Unfolding of the monad and of the record updates, leaving the
    environments and the strings alone. *)
Ltac mred :=
  cbv beta iota delta
    [bind ret raise of_result get modify try_except finally fst snd set_result
     set_state _send_status spawn kill create_checkpoint add_finding
     record_failed_attempt
     spawned kills state scenario env result_ status_queue result_queue].

(** The result the orchestrator receives from a fresh worker. *)
Definition final_result (world : World) (id : string) (sc : TestScenario)
    (env : gmap string string) : option WorkerResult :=
  last (result_queue (run world (new_worker id sc env))).

End Worker.

(** ** parallel_debugger.py *)

Module Orchestrator.

(** A started worker process: what [Process(target=run_worker, args=...)]
    was given. *)
Record Process : Type := mkProcess {
  p_worker_id : string;
  p_scenario : TestScenario;
  p_env : gmap string string
}.

(** The orchestrator's tracking state.  [workers] maps a worker id to its
    process, named by its position in [started], the record of every
    [process.start()] of the run in order. *)
Record ParallelDebugger : Type := mkDebugger {
  config : Config.ParallelDebugConfig;
  workers : gmap string nat;
  worker_scenarios : gmap string TestScenario;
  started : list Process
}.

Definition new_debugger (cfg : Config.ParallelDebugConfig) : ParallelDebugger :=
  mkDebugger cfg ∅ ∅ [].

(** [f"worker_{len(self.workers)}"] *)
Definition next_worker_id (self : ParallelDebugger) : string :=
  "worker_" +:+ str_of_Z (Z.of_nat (size (workers self))).

Definition _start_worker (environ : gmap string string) (self : ParallelDebugger)
    (scenario : TestScenario) : option string * ParallelDebugger :=
  let worker_id := next_worker_id self in
  let failed (cfg : Config.ParallelDebugConfig) :=
    (None, mkDebugger (Config.release_ports cfg worker_id) (workers self)
                      (worker_scenarios self) (started self)) in
  match Config.allocate_ports (config self) worker_id 2 with
  | (Raise _, cfg) => failed cfg
  | (Ok ports, cfg) =>
      match Config.get_worker_env cfg environ worker_id scenario with
      | Raise _ => failed cfg
      | Ok env =>
          (Some worker_id,
           mkDebugger cfg
             (<[worker_id := length (started self)]> (workers self))
             (<[worker_id := scenario]> (worker_scenarios self))
             (started self ++ [mkProcess worker_id scenario env]))
      end
  end.

(** The inner [while scenario_queue and len(active_workers) < max_workers]. *)
Fixpoint start_workers (environ : gmap string string) (self : ParallelDebugger)
    (scenario_queue : list TestScenario) (active_workers : gmap string TestScenario)
  : ParallelDebugger * list TestScenario * gmap string TestScenario :=
  match scenario_queue with
  | [] => (self, [], active_workers)
  | scenario :: rest =>
      if Z.of_nat (size active_workers)
           <? max_workers (Config.resource_config (config self)) then
        match _start_worker environ self scenario with
        | (Some worker_id, self') =>
            start_workers environ self' rest (<[worker_id := scenario]> active_workers)
        | (None, self') => start_workers environ self' rest active_workers
        end
      else (self, scenario_queue, active_workers)
  end.

(** The workers of [self.workers] that are active and whose process has
    exited; [alive] answers [process.is_alive()].  The order of the list
    only decides the order of the progress lines printed. *)
Definition completed_workers (alive : nat → bool) (self : ParallelDebugger)
    (active_workers : gmap string TestScenario) : list string :=
  List.filter
    (λ worker_id,
       match workers self !! worker_id, active_workers !! worker_id with
       | Some process, Some _ => negb (alive process)
       | _, _ => false
       end)
    (map_to_list (workers self)).*1.

Definition clean_up (st : ParallelDebugger * gmap string TestScenario)
    (worker_id : string) : ParallelDebugger * gmap string TestScenario :=
  let '(self, active_workers) := st in
  (mkDebugger (Config.release_ports (config self) worker_id)
              (delete worker_id (workers self))
              (worker_scenarios self) (started self),
   delete worker_id active_workers).

(** [_execute_scenarios], one liveness poll per turn of the outer loop; it
    stops early when the polls run out. *)
Fixpoint execute_loop (environ : gmap string string) (polls : list (nat → bool))
    (self : ParallelDebugger) (scenario_queue : list TestScenario)
    (active_workers : gmap string TestScenario)
  : ParallelDebugger * list TestScenario * gmap string TestScenario :=
  match polls with
  | [] => (self, scenario_queue, active_workers)
  | alive :: polls' =>
      if match scenario_queue with [] => true | _ :: _ => false end
         && bool_decide (size active_workers = 0%nat)
      then (self, scenario_queue, active_workers)
      else
        let '(self1, queue1, active1) :=
          start_workers environ self scenario_queue active_workers in
        let '(self2, active2) :=
          fold_left clean_up (completed_workers alive self1 active1) (self1, active1) in
        execute_loop environ polls' self2 queue1 active2
  end.

Definition _execute_scenarios (environ : gmap string string)
    (polls : list (nat → bool)) (self : ParallelDebugger)
    (scenarios : list TestScenario) : ParallelDebugger :=
  (execute_loop environ polls self scenarios ∅).1.1.

(** The processes started in the run for which [process.is_alive()] holds,
    by their position in [started]. *)
Definition live_processes (alive : nat → bool) (self : ParallelDebugger)
  : list nat :=
  List.filter alive (seq 0 (length (started self))).

End Orchestrator.

(** ** analyzers/error_pattern_analyzer.py *)

Module ErrorPatternAnalyzer.
Import Re.

Definition dotstar : regex := Star AnyChar.

(** [self.error_patterns], in the order of the dictionary literal; all are
    compiled with [re.I]. *)
Definition error_patterns : list (string * regex) :=
  [ ("null_reference",
     Cat (alts [lit "null"; lit "undefined"; lit "None"])
         (Cat dotstar (alts [lit "reference"; lit "property"; lit "attribute"])));
    ("timeout",
     alts [lit "timeout"; lit "timed out";
           Cat (lit "exceeded") (Cat dotstar (lit "timeout"))]);
    ("connection",
     alts [Cat (lit "connection")
               (Cat dotstar (alts [lit "refused"; lit "failed"; lit "error"]));
           lit "ECONNREFUSED"]);
    ("authentication",
     alts [lit "401"; lit "403"; lit "unauthorized"; lit "forbidden";
           Cat (lit "auth") (Cat dotstar (lit "fail"))]);
    ("validation",
     alts [Cat (lit "validation") (Cat dotstar (alts [lit "error"; lit "fail"]));
           Cat (lit "invalid") (Cat dotstar (lit "data"))]);
    ("database",
     Cat (alts [lit "database"; lit "sql"; lit "query"])
         (Cat dotstar (alts [lit "error"; lit "fail"; lit "exception"])));
    ("api_error",
     Alt (Cat (Alt (Cat (Chr "4") (Cat Digit Digit)) (Cat (Chr "5") (Cat Digit Digit)))
              (Cat dotstar (alts [lit "error"; lit "fail"])))
         (Cat (lit "api") (Cat dotstar (lit "error")))) ].

(** An entry of a category: [{'scenario': ..., 'error': ...}] or
    [{'scenario': ..., 'log': ...}]. *)
Inductive occurrence : Type :=
  | ErrorOf (scenario error : string)
  | LogOf (scenario log : string).

(** [error_categories[category].append(entry)] on a [defaultdict(list)]. *)
Definition append_to (category : string) (entry : occurrence)
    (cats : gmap string (list occurrence)) : gmap string (list occurrence) :=
  <[category := default [] (cats !! category) ++ [entry]]> cats.

(** The loop over the items of a pattern dictionary for one text. *)
Definition categorize_with (pats : list (string * regex)) (text : string)
    (entry : occurrence) (cats : gmap string (list occurrence))
  : gmap string (list occurrence) :=
  fold_left
    (λ acc '(category, pattern),
       if search true pattern text then append_to category entry acc else acc)
    pats cats.

(** The loop over [self.error_patterns.items()]. *)
Definition categorize : string → occurrence → gmap string (list occurrence)
                        → gmap string (list occurrence) :=
  categorize_with error_patterns.

Definition is_error_line (log_line : string) : bool :=
  Py.contains (Py.lower log_line) "error" || Py.contains (Py.lower log_line) "fail".

(** A result is analysed when it failed and carries a non-empty error. *)
Definition failed_with (r : WorkerResult) : option string :=
  if success r then None
  else match error r with
       | Some e => if decide (e = "") then None else Some e
       | None => None
       end.

Definition analyze_one (cats : gmap string (list occurrence)) (r : WorkerResult)
  : gmap string (list occurrence) :=
  match failed_with r with
  | None => cats
  | Some e =>
      fold_left
        (λ acc log_line,
           if is_error_line log_line
           then categorize log_line (LogOf (scenario_name r) log_line) acc
           else acc)
        (logs r)
        (categorize e (ErrorOf (scenario_name r) e) cats)
  end.

Definition error_categories (worker_results : list WorkerResult)
  : gmap string (list occurrence) :=
  fold_left analyze_one worker_results ∅.

(** [Counter(error_messages)]: the distinct messages in order of first
    appearance, each with its number of occurrences. *)
Fixpoint counter (seen : list string) (l : list string) : list (string * nat) :=
  match l with
  | [] => []
  | x :: l' =>
      if bool_decide (x ∈ seen) then counter seen l'
      else (x, S (length (List.filter (String.eqb x) l'))) :: counter (x :: seen) l'
  end.

(** Insertion by decreasing count, before the entries of the same count:
    with [foldr] the earlier message of a tie stays first. *)
Fixpoint insert_by_count (x : string * nat) (l : list (string * nat))
  : list (string * nat) :=
  match l with
  | [] => [x]
  | y :: l' => if (y.2 <=? x.2)%nat then x :: l else y :: insert_by_count x l'
  end.

(** [Counter.most_common(n)] *)
Definition most_common (n : nat) (c : list (string * nat)) : list (string * nat) :=
  take n (foldr insert_by_count [] c).

Definition analyze_errors (worker_results : list WorkerResult)
  : list (string * nat) * gmap string (list occurrence) :=
  let error_messages := omap failed_with worker_results in
  (most_common 5 (counter [] error_messages), error_categories worker_results).

End ErrorPatternAnalyzer.

(** ** analyzers/findings_analyzer.py *)

Module FindingsAnalyzer.

(** An entry of [findings_by_type]. *)
Record entry : Type := mkEntry {
  e_scenario : string;
  e_description : string;
  e_evidence : option string
}.

(** A cluster of [_group_similar_findings]. *)
Record group : Type := mkGroup {
  g_description : string;
  g_count : nat;
  g_scenarios : list string;
  g_evidence : list string
}.

Definition words (text : string) : gset string := list_to_set (Py.split text).

(** [_are_similar].  The quotient [overlap / min(...)] is compared with the
    literal [0.7]; on word counts that is [10 * overlap > 7 * min(...)]. *)
Definition _are_similar (text1 text2 : string) : bool :=
  let text1 := Py.strip (Py.lower text1) in
  let text2 := Py.strip (Py.lower text2) in
  if String.eqb text1 text2 then true
  else if Py.contains text2 text1 || Py.contains text1 text2 then true
  else
    let words1 := words text1 in
    let words2 := words text2 in
    if bool_decide (size words1 = 0%nat) || bool_decide (size words2 = 0%nat)
    then false
    else
      let overlap := size (words1 ∩ words2) in
      (7 * Nat.min (size words1) (size words2) <? 10 * overlap)%nat.

Definition enumerate {A} (l : list A) : list (nat * A) := imap (λ i x, (i, x)) l.

(** The inner loop over [enumerate(findings[i+1:], i+1)]. *)
Definition collect (desc : string) (st : list entry * gset nat) (jo : nat * entry)
  : list entry * gset nat :=
  let '(similar, seen) := st in
  let '(j, other) := jo in
  if bool_decide (j ∈ seen) then st
  else if _are_similar desc (e_description other)
       then (similar ++ [other], {[j]} ∪ seen)
       else st.

Definition truthy (o : option string) : option string :=
  match o with
  | Some s => if decide (s = "") then None else Some s
  | None => None
  end.

(** The outer loop over [enumerate(findings)]. *)
Definition visit (findings : list entry) (st : list group * gset nat)
    (ifd : nat * entry) : list group * gset nat :=
  let '(grouped, seen) := st in
  let '(i, finding) := ifd in
  if bool_decide (i ∈ seen) then st
  else
    let desc := e_description finding in
    let '(similar, seen') :=
      fold_left (collect desc) (drop (S i) (enumerate findings)) ([finding], seen) in
    if (1 <? length similar)%nat then
      (grouped ++ [mkGroup desc (length similar) (e_scenario <$> similar)
                           (omap (λ f, truthy (e_evidence f)) similar)],
       seen')
    else (grouped, seen').

Definition _group_similar_findings (findings : list entry) : list group :=
  (fold_left (visit findings) (enumerate findings) ([], ∅)).1.

(** [finding.get('type', 'observation')] *)
Definition finding_type (f : Finding) : string := default "observation" (ftype f).

Definition by_type_step (scenario : string) (acc : gmap string (list entry))
    (f : Finding) : gmap string (list entry) :=
  <[finding_type f :=
      default [] (acc !! finding_type f)
      ++ [mkEntry scenario (description f) (evidence f)]]> acc.

Definition findings_by_type (worker_results : list WorkerResult)
  : gmap string (list entry) :=
  fold_left (λ acc r, fold_left (by_type_step (scenario_name r)) (findings r) acc)
            worker_results ∅.

Definition analyze_findings (worker_results : list WorkerResult)
  : gmap string (list group) * list Finding :=
  (omap (λ fs : list entry,
           if (1 <? length fs)%nat then
             match _group_similar_findings fs with
             | [] => None
             | grouped => Some grouped
             end
           else None)
        (findings_by_type worker_results),
   List.filter (λ f, String.eqb (finding_type f) "root_cause")
               (worker_results ≫= findings)).

End FindingsAnalyzer.

(** ** models/aggregated_results.py and result_aggregator.py *)

Module Aggregator.

(** An entry of [scenario_results]. *)
Record summary : Type := mkSummary {
  s_success : bool;
  s_duration : option Q;
  s_error : option string;
  s_worker_id : string;
  s_session_id : option string;
  s_checkpoints : list string
}.

(** [min_duration] starts at [float('inf')], which is [None] here. *)
Record AggregatedResults : Type := mkAggregated {
  total_scenarios : Z;
  successful_scenarios : Z;
  failed_scenarios : Z;
  success_rate : Q;
  total_duration : Q;
  average_duration : Q;
  min_duration : option Q;
  max_duration : Q;
  common_errors : list (string * nat);
  error_patterns : gmap string (list ErrorPatternAnalyzer.occurrence);
  common_findings : gmap string (list FindingsAnalyzer.group);
  root_causes : list Finding;
  scenario_results : gmap string summary
}.

(** [AggregatedResults()] *)
Definition empty_results : AggregatedResults :=
  mkAggregated 0 0 0 0%Q 0%Q 0%Q None 0%Q [] ∅ ∅ [] ∅.

Record ResultAggregator : Type := mkAggregator {
  worker_results : list WorkerResult;
  aggregated_results : AggregatedResults
}.

(** [ResultAggregator(master_session_id)] *)
Definition new_aggregator : ResultAggregator := mkAggregator [] empty_results.

Definition add_result (self : ResultAggregator) (worker_result : WorkerResult)
  : ResultAggregator :=
  mkAggregator (worker_results self ++ [worker_result]) (aggregated_results self).

Definition Qltb (a b : Q) : bool := negb (Qle_bool b a).

(** [min(results.min_duration, duration)] and [max(results.max_duration,
    duration)]: the second argument is taken only when strictly better. *)
Definition min_with (m : option Q) (d : Q) : option Q :=
  match m with
  | None => Some d
  | Some q => if Qltb d q then Some d else Some q
  end.
Definition max_with (m d : Q) : Q := if Qltb m d then d else m.

(** The truth value of [worker_result.get('duration', 0)]. *)
Definition nonzero (d : option Q) : option Q :=
  match d with
  | Some q => if Qeq_bool q 0 then None else Some q
  | None => None
  end.

(** One turn of the loop of [_calculate_basic_stats].  The total grows by
    one addition per duration, in the order of the results. *)
Definition stats_step (results : AggregatedResults) (worker_result : WorkerResult)
  : AggregatedResults :=
  let ok := success worker_result in
  let d := nonzero (duration worker_result) in
  mkAggregated
    (total_scenarios results)
    (if ok then successful_scenarios results + 1 else successful_scenarios results)
    (if ok then failed_scenarios results else failed_scenarios results + 1)
    (success_rate results)
    (match d with Some q => (total_duration results + q)%Q | None => total_duration results end)
    (average_duration results)
    (match d with Some q => min_with (min_duration results) q | None => min_duration results end)
    (match d with Some q => max_with (max_duration results) q | None => max_duration results end)
    (common_errors results) (error_patterns results) (common_findings results)
    (root_causes results)
    (<[scenario_name worker_result :=
         mkSummary ok (duration worker_result) (error worker_result)
                   (worker_id worker_result) (session_id worker_result)
                   (checkpoints worker_result)]> (scenario_results results)).

Definition set_total (n : Z) (r : AggregatedResults) : AggregatedResults :=
  mkAggregated n (successful_scenarios r) (failed_scenarios r) (success_rate r)
    (total_duration r) (average_duration r) (min_duration r) (max_duration r)
    (common_errors r) (error_patterns r) (common_findings r) (root_causes r)
    (scenario_results r).

(** The rates and averages at the end of [_calculate_basic_stats]. *)
Definition set_rates (r : AggregatedResults) : AggregatedResults :=
  if 0 <? total_scenarios r then
    mkAggregated (total_scenarios r) (successful_scenarios r) (failed_scenarios r)
      (inject_Z (successful_scenarios r) / inject_Z (total_scenarios r))%Q
      (total_duration r)
      (total_duration r / inject_Z (total_scenarios r))%Q
      (min_duration r) (max_duration r)
      (common_errors r) (error_patterns r) (common_findings r) (root_causes r)
      (scenario_results r)
  else r.

(** [_calculate_basic_stats]: it works on [self.aggregated_results] as the
    previous calls left it. *)
Definition _calculate_basic_stats (self : ResultAggregator) : AggregatedResults :=
  set_rates
    (fold_left stats_step (worker_results self)
       (set_total (Z.of_nat (length (worker_results self))) (aggregated_results self))).

Definition _analyze_errors (wr : list WorkerResult) (r : AggregatedResults)
  : AggregatedResults :=
  let '(common, patterns) := ErrorPatternAnalyzer.analyze_errors wr in
  mkAggregated (total_scenarios r) (successful_scenarios r) (failed_scenarios r)
    (success_rate r) (total_duration r) (average_duration r) (min_duration r)
    (max_duration r) common patterns (common_findings r) (root_causes r)
    (scenario_results r).

Definition _analyze_findings (wr : list WorkerResult) (r : AggregatedResults)
  : AggregatedResults :=
  let '(common, roots) := FindingsAnalyzer.analyze_findings wr in
  mkAggregated (total_scenarios r) (successful_scenarios r) (failed_scenarios r)
    (success_rate r) (total_duration r) (average_duration r) (min_duration r)
    (max_duration r) (common_errors r) (error_patterns r) common roots
    (scenario_results r).

(** [aggregate]: the returned object is [self.aggregated_results], so the
    aggregator is returned with it. *)
Definition aggregate (self : ResultAggregator)
  : AggregatedResults * ResultAggregator :=
  match worker_results self with
  | [] => (aggregated_results self, self)
  | _ :: _ =>
      let r := _analyze_findings (worker_results self)
                 (_analyze_errors (worker_results self)
                    (_calculate_basic_stats self)) in
      (r, mkAggregator (worker_results self) r)
  end.

End Aggregator.

(** ** Concrete inputs used below *)

Module Examples.

Definition scenario_of (nm : string) (t : TestType) (fn : string) : TestScenario :=
  mkScenario nm t fn None 120 ∅.

(** A configuration whose range holds two ports, as the edge-case test of
    the repository sets it up, after [worker1] took both. *)
Definition two_ports : Config.ParallelDebugConfig :=
  Config.mkConfig (mkResourceConfig 4 3100 2) ∅ 3100.
Definition two_ports_taken : Config.ParallelDebugConfig :=
  Config.do_calls two_ports [Config.Allocate "worker1" 2].

Definition some_calls : list Config.call :=
  [ Config.Allocate "worker_0" 2; Config.Allocate "worker_1" 2;
    Config.Release "worker_0"; Config.Allocate "worker_2" 3 ].

(** Three scenarios for two workers; at the first poll the process started
    second has exited and the one started first is still alive. *)
Definition three_scenarios : list TestScenario :=
  [ scenario_of "A" DATABASE "a"; scenario_of "B" DATABASE "b";
    scenario_of "C" DATABASE "c" ].
Definition second_exits_first : list (nat → bool) :=
  [ (λ process, Nat.eqb process 0); (λ _, true) ].
Definition first_exits_first : list (nat → bool) :=
  [ (λ process, Nat.eqb process 1); (λ _, true) ].

(** Six scenarios for two workers; at both polls the process started first
    has exited and every other process is alive. *)
Definition six_scenarios : list TestScenario :=
  [ scenario_of "A" DATABASE "a"; scenario_of "B" DATABASE "b";
    scenario_of "C" DATABASE "c"; scenario_of "D" DATABASE "d";
    scenario_of "E" DATABASE "e"; scenario_of "F" DATABASE "f" ].
Definition only_first_exits : list (nat → bool) :=
  [ (λ process, negb (Nat.eqb process 0)); (λ process, negb (Nat.eqb process 0)) ].

(** A host where no test script exists and every child would end at once
    with return code 0. *)
Definition bare_world : Worker.World :=
  Worker.mkWorld "python3" "/app/debug_helpers" "/app" (Ok "session-1")
    (λ _, Worker.Absent) (λ _ _, Worker.Files []) (λ _ _, Worker.Exited 0 "" "") 1%Q (λ _, "Traceback")
    (λ _, []).

(** A host where [slow.py] is given directly and never ends in time, and one
    where it ends with return code 3. *)
Definition hanging_world : Worker.World :=
  Worker.mkWorld "python3" "/app/debug_helpers" "/app" (Ok "session-1")
    (λ _, Worker.Absent) (λ _ _, Worker.Files []) (λ _ _, Worker.StillRunning) 1%Q (λ _, "Traceback")
    (λ _, []).
Definition failing_world : Worker.World :=
  Worker.mkWorld "python3" "/app/debug_helpers" "/app" (Ok "session-1")
    (λ _, Worker.Absent) (λ _ _, Worker.Files []) (λ _ _, Worker.Exited 3 "" "boom") 1%Q
    (λ _, "Traceback") (λ _, []).

(** A host where the first search root exists and no script does. *)
Definition rooted_world : Worker.World :=
  Worker.mkWorld "python3" "/app/debug_helpers" "/app" (Ok "session-1")
    (λ p, if String.eqb p "/app/tests/integration" then Worker.Present
          else Worker.Absent)
    (λ _ _, Worker.Files [])
    (λ _ _, Worker.Exited 0 "" "") 1%Q (λ _, "Traceback") (λ _, []).

Definition one_result (ok : bool) (err : option string) (nm : string) : WorkerResult :=
  mkResult ("worker_" +:+ nm) nm ok (Some 5%Q) err None [] [] None [].




End Examples.


(** The number of successful results of a list. *)
Definition successes (results : list WorkerResult) : Z :=
  Z.of_nat (length (List.filter success results)).

(** An entry stands in a category of the error patterns. *)
Definition placed (category : string) (entry : ErrorPatternAnalyzer.occurrence)
    (cats : gmap string (list ErrorPatternAnalyzer.occurrence)) : Prop :=
  entry ∈ default [] (cats !! category).

(** ** What a worker run shows *)

Module WorkerSummary.
Import Worker.

(** The lines [_execute_test_script] adds to the logs for the output of a
    child that exited. *)
Definition captured_logs (stdout stderr : string) : list string :=
  (if decide (stdout = "") then [] else Py.splitlines stdout)
  ++ (if decide (stderr = "") then []
      else (λ line, "STDERR: " +:+ line) <$> Py.splitlines stderr).

(** The checkpoint a strategy sets when it returns. *)
Definition checkpoint_of (t : TestType) : list string :=
  match t with
  | UI_FLOW => ["ui_test_complete"]
  | API_TEST => ["api_test_complete"]
  | DATABASE => ["database_test_complete"]
  | INTEGRATION => ["integration_test_complete"]
  | PERFORMANCE => ["performance_test_complete"]
  | SECURITY => []
  end.

(** The status event that closes the [try] of [run]. *)
Definition verdict_event (sc : TestScenario) (r : WorkerResult) : string * string :=
  if success r then ("completed", "Successfully completed " +:+ name sc)
  else ("failed", "Failed: " +:+ default "" (error r)).

(** What a worker that has run shows. *)
Definition run_summary (world : World) (id : string) (sc : TestScenario)
    (w : DebugWorker) : Prop :=
  ∃ r,
    result_queue w = [r]
    ∧ worker_id r = id ∧ scenario_name r = name sc
    ∧ duration r = Some (elapsed world)
    ∧ (if success r
       then error r = None ∧ traceback r = None
            ∧ checkpoints r = checkpoint_of (test_type sc)
       else is_Some (error r) ∧ is_Some (traceback r) ∧ checkpoints r = [])
    ∧ match spawned w with
      | [] => kills w = 0%nat ∧ logs r = []
      | [(cmd, cenv)] =>
          match child world cmd cenv with
          | StillRunning => kills w = 1%nat ∧ logs r = [] ∧ success r = false
          | Exited returncode stdout stderr =>
              kills w = 0%nat ∧ logs r = captured_logs stdout stderr
              ∧ (success r = true ↔ returncode = 0)
          | NotCreated _ => False
          end
      | _ => False
      end
    ∧ ∃ before,
        status_queue w
        = before ++ [verdict_event sc r; ("cleanup", "Cleaning up resources")]
        ∧ before.*1 `prefix_of` ["starting"; "running"; "executing"].
End WorkerSummary.

(** ** parallel_debugger.py: result collection and shutdown *)

Module Debugger.
Import Orchestrator.

(** The loop of [_collect_results].  [gets] are the outcomes of the
    successive [result_queue.get(timeout=5)] calls, a result or [None] for a
    time-out; [expected] is [len(self.worker_scenarios)].  The results are
    returned with the aggregator they were added to. *)
Fixpoint collect_loop (gets : list (option WorkerResult)) (expected : nat)
    (results : list WorkerResult) (aggregator : Aggregator.ResultAggregator)
    (timeout_count : nat)
  : list WorkerResult * Aggregator.ResultAggregator :=
  if (length results <? expected)%nat then
    match gets with
    | [] => (results, aggregator)
    | Some result :: gets' =>
        collect_loop gets' expected (results ++ [result])
                     (Aggregator.add_result aggregator result) 0
    | None :: gets' =>
        if (10 <=? S timeout_count)%nat then (results, aggregator)
        else collect_loop gets' expected results aggregator (S timeout_count)
    end
  else (results, aggregator).

Definition _collect_results (gets : list (option WorkerResult))
    (self : ParallelDebugger) (aggregator : Aggregator.ResultAggregator)
  : list WorkerResult * Aggregator.ResultAggregator :=
  collect_loop gets (size (worker_scenarios self)) [] aggregator 0.

(** [shutdown]: of the orchestrator's tracking state only the port table
    changes, by the loop over [list(self.workers.keys())]. *)
Definition shutdown (self : ParallelDebugger) : ParallelDebugger :=
  mkDebugger
    (fold_left Config.release_ports (map_to_list (workers self)).*1 (config self))
    (workers self) (worker_scenarios self) (started self).

(** Every port allocation belongs to a tracked worker. *)
Definition ports_tracked (self : ParallelDebugger) : Prop :=
  ∀ w, is_Some (Config.allocated_ports (config self) !! w) → is_Some (workers self !! w).

End Debugger.

(** ** parallel_config.py: validation *)

Module Validation.
Import Config.

(** What [validate_configuration] reads besides the fields of the
    configuration modelled above: the scenario list of the configuration, the
    memory limit of its resource settings, the reading of
    [_get_available_memory_mb] ([None] without [psutil]), and the text that
    [set(duplicates)] is rendered to. *)
Record Deployment : Type := mkDeployment {
  scenarios : list TestScenario;
  memory_limit_per_worker_mb : Z;
  available_memory_mb : option Z;
  set_repr : list string → string
}.

(** [names.count(name)] *)
Definition count (x : string) (l : list string) : nat :=
  length (List.filter (String.eqb x) l).

(** The check of the port range. *)
Definition port_warnings (self : ParallelDebugConfig) (d : Deployment) : list string :=
  let rc := resource_config self in
  let n := Z.of_nat (length (scenarios d)) in
  if port_range rc <? n * 2 then
    ["Port range (" +:+ str_of_Z (port_range rc) +:+ ") may be insufficient for "
       +:+ str_of_Z n +:+ " scenarios"]
  else [].

(** The check of the memory.  On integers [needed > available * 0.8] is
    [5 * needed > 4 * available]. *)
Definition memory_warnings (self : ParallelDebugConfig) (d : Deployment) : list string :=
  let total_memory_needed :=
    max_workers (resource_config self) * memory_limit_per_worker_mb d in
  match available_memory_mb d with
  | Some available_memory =>
      if negb (available_memory =? 0)
         && (4 * available_memory <? 5 * total_memory_needed) then
        ["Memory requirements (" +:+ str_of_Z total_memory_needed
           +:+ "MB) exceed 80% of available memory ("
           +:+ str_of_Z available_memory +:+ "MB)"]
      else []
  | None => []
  end.

Definition duplicates (names : list string) : list string :=
  List.filter (λ nm, (1 <? count nm names)%nat) names.

(** The check of the scenario names. *)
Definition duplicate_warnings (d : Deployment) : list string :=
  let names := name <$> scenarios d in
  match duplicates names with
  | [] => []
  | dups => ["Duplicate scenario names found: " +:+ set_repr d dups]
  end.

Definition validate_configuration (self : ParallelDebugConfig) (d : Deployment)
  : list string :=
  port_warnings self d ++ memory_warnings self d ++ duplicate_warnings d.

(** A caller that asks for [count] ports for each worker of a list in turn,
    keeping every outcome. *)
Fixpoint allocate_each (self : ParallelDebugConfig) (ws : list string) (count : Z)
  : list (result (list Z)) :=
  match ws with
  | [] => []
  | w :: ws' =>
      (allocate_ports self w count).1
      :: allocate_each (allocate_ports self w count).2 ws' count
  end.

Definition is_ok {A} (r : result A) : bool :=
  match r with Ok _ => true | Raise _ => false end.

End Validation.

(** ** Readings of the aggregated statistics *)

Module Statistics.

(** The durations that [_calculate_basic_stats] takes into account: those
    present and not zero, in the order of the results. *)
Definition truthy_durations (results : list WorkerResult) : list Q :=
  omap (λ r, Aggregator.nonzero (duration r)) results.

(** The sum as the loop builds it, from [0.0] and from the left. *)
Definition Qsum (l : list Q) : Q := fold_left Qplus l 0%Q.

(** The entry that the loop stores under the scenario name of a result. *)
Definition summary_of (r : WorkerResult) : Aggregator.summary :=
  Aggregator.mkSummary (success r) (duration r) (error r) (worker_id r)
                       (session_id r) (checkpoints r).

(** The results of a list that carry a given scenario name. *)
Definition named (nm : string) (results : list WorkerResult) : list WorkerResult :=
  List.filter (λ r, String.eqb (scenario_name r) nm) results.

End Statistics.

(** ** Origins of the error categories *)

Module ErrorOrigins.
Import Re ErrorPatternAnalyzer.

(** An entry of a category goes back to a failed result with a non-empty
    error: to that error, or to one of the result's log lines that mention
    an error or a failure, and the category's pattern is found in it. *)
Definition stems_from (results : list WorkerResult) (category : string)
    (entry : occurrence) : Prop :=
  ∃ r pat e,
    r ∈ results ∧ (category, pat) ∈ error_patterns
    ∧ success r = false ∧ error r = Some e ∧ e ≠ ""
    ∧ match entry with
      | ErrorOf scenario text =>
          scenario = scenario_name r ∧ text = e ∧ search true pat e = true
      | LogOf scenario line =>
          scenario = scenario_name r ∧ line ∈ logs r
          ∧ is_error_line line = true ∧ search true pat line = true
      end.

(** The number of times a message stands in a list. *)
Definition occurrences (m : string) (l : list string) : nat :=
  length (List.filter (String.eqb m) l).

(** What the loop of [analyze_errors] keeps true of the categories. *)
Definition cats_inv (results : list WorkerResult)
    (cats : gmap string (list occurrence)) : Prop :=
  (∀ c x, placed c x cats → stems_from results c x)
  ∧ (∀ c l, cats !! c = Some l → l ≠ [] ∧ c ∈ error_patterns.*1).

(** The order of [most_common]: by decreasing count. *)
Definition by_count : relation (string * nat) := λ a b, (b.2 ≤ a.2)%nat.

(** A list in which every entry counts at least as much as all later ones. *)
Fixpoint ranked (l : list (string * nat)) : Prop :=
  match l with
  | [] => True
  | x :: l' => Forall (by_count x) l' ∧ ranked l'
  end.

End ErrorOrigins.

(** ** Shape of the groups of findings *)

Module Grouping.
Import FindingsAnalyzer.

(** A group built from members that are entries of [findings]: the first
    gives the description, and every member is similar to it. *)
Definition group_of (findings : list entry) (g : group) : Prop :=
  ∃ first others,
    first ∈ findings ∧ (∀ f, f ∈ others → f ∈ findings)
    ∧ others ≠ []
    ∧ (∀ f, f ∈ others → _are_similar (e_description first) (e_description f) = true)
    ∧ g = mkGroup (e_description first) (S (length others))
                  (e_scenario <$> (first :: others))
                  (omap (λ f, truthy (e_evidence f)) (first :: others)).

(** What the inner loop keeps true: the members collected so far beyond the
    first, and the positions that were marked for them. *)
Definition collected (findings : list entry) (desc : string) (seen0 : gset nat)
    (lo : nat) (st : list entry * gset nat) (first : entry) : Prop :=
  ∃ others (marked : gset nat),
    st = (first :: others, marked ∪ seen0)
    ∧ marked ## seen0
    ∧ size marked = length others
    ∧ (∀ j, j ∈ marked → (lo ≤ j < length findings)%nat)
    ∧ (∀ f, f ∈ others → f ∈ findings ∧ _are_similar desc (e_description f) = true).

(** What the outer loop keeps true before it visits position [i]. *)
Definition grouped_upto (findings : list entry) (i : nat)
    (st : list group * gset nat) : Prop :=
  Forall (group_of findings) st.1
  ∧ (∀ j, j ∈ st.2 → (j < length findings)%nat)
  ∧ ∃ heads : gset nat,
      (∀ h, h ∈ heads → (h < i)%nat)
      ∧ heads ## st.2
      ∧ size heads = length st.1
      ∧ sum_list (g_count <$> st.1) = (size heads + size st.2)%nat.

(** The entries that [analyze_findings] files under a type: one for each
    finding of that type, in the order of the results and of their
    findings. *)
Definition entries_of_type (t : string) (results : list WorkerResult) : list entry :=
  results ≫= (λ r,
    (λ f, mkEntry (scenario_name r) (description f) (evidence f))
      <$> List.filter (λ f, String.eqb (finding_type f) t) (findings r)).

End Grouping.

(** ** generators/recommendation_generator.py *)

Module Recommendations.
Import Aggregator.






End Recommendations.

(** ** parallel_monitor.py *)

Module Monitor.

(** [WorkerStatus]; times are readings of the clock in seconds. *)
Record WorkerStatus : Type := mkStatus {
  worker_id : string;
  scenario_name : string;
  status : string;
  message : string;
  start_time : option Q;
  last_update : Q;
  error : option string
}.

(** [WorkerStatus(worker_id, scenario_name)] *)
Definition new_status (now : Q) (worker_id scenario_name : string) : WorkerStatus :=
  mkStatus worker_id scenario_name "pending" "Waiting to start" None now None.

(** [WorkerStatus.update] *)
Definition update (now : Q) (self : WorkerStatus) (status message : string)
  : WorkerStatus :=
  let starting :=
    String.eqb status "starting"
    && match start_time self with None => true | Some _ => false end in
  mkStatus (worker_id self) (scenario_name self) status message
    (if starting then Some now else start_time self)
    now
    (if starting then error self
     else if String.eqb status "failed" then Some message else error self).

(** An entry of the status queue, as [_send_status] builds it. *)
Record StatusUpdate : Type := mkUpdate {
  u_worker_id : string;
  u_scenario : string;
  u_status : string;
  u_message : string
}.

Record Stats : Type := mkStats {
  total : nat;
  completed : nat;
  failed : nat;
  running : nat;
  elapsed_time : Q
}.

Record ParallelMonitor : Type := mkMonitor {
  workers : gmap string WorkerStatus;
  stats : Stats;
  monitor_start_time : Q
}.

(** [ParallelMonitor(status_queue, scenarios)] for [n] scenarios. *)
Definition new_monitor (now : Q) (n : nat) : ParallelMonitor :=
  mkMonitor ∅ (mkStats n 0 0 0 0%Q) now.

(** [sum(1 for w in self.workers.values() if ...)] *)
Definition tally (p : string → bool) (workers : gmap string WorkerStatus) : nat :=
  length (List.filter (λ w, p (status w)) (map_to_list workers).*2).

Definition is_running (s : string) : bool :=
  String.eqb s "starting" || String.eqb s "running" || String.eqb s "executing".

(** [_update_stats] *)
Definition _update_stats (now : Q) (self : ParallelMonitor) : ParallelMonitor :=
  mkMonitor (workers self)
    (mkStats (total (stats self))
       (tally (String.eqb "completed") (workers self))
       (tally (String.eqb "failed") (workers self))
       (tally is_running (workers self))
       (now - monitor_start_time self)%Q)
    (monitor_start_time self).

(** [_handle_status_update]; [now] is the reading of the clock when the
    update is handled. *)
Definition _handle_status_update (self : ParallelMonitor)
    (at_update : Q * StatusUpdate) : ParallelMonitor :=
  let '(now, upd) := at_update in
  let worker_id := u_worker_id upd in
  let worker :=
    match workers self !! worker_id with
    | Some worker => worker
    | None => new_status now worker_id (u_scenario upd)
    end in
  _update_stats now
    (mkMonitor (<[worker_id := update now worker (u_status upd) (u_message upd)]>
                  (workers self))
               (stats self) (monitor_start_time self)).

(** [_process_status_updates] over the updates taken from the queue. *)
Definition process (self : ParallelMonitor) (updates : list (Q * StatusUpdate))
  : ParallelMonitor :=
  fold_left _handle_status_update updates self.

(** The updates a worker sends for its events; [clock i] is the time at
    which the monitor handles the update at position [i]. *)
Definition updates_of (id : string) (sc : TestScenario) (clock : nat → Q)
    (events : list (string * string)) : list (Q * StatusUpdate) :=
  imap (λ i e, (clock i, mkUpdate id (name sc) e.1 e.2)) events.

End Monitor.

(** ** A further host *)

Module Hosts.

(** A host where every path exists and every child ends at once with
    return code 0. *)
Definition scripted_world : Worker.World :=
  Worker.mkWorld "python3" "/app/debug_helpers" "/app" (Ok "session-1")
    (λ _, Worker.Present) (λ _ _, Worker.Files []) (λ _ _, Worker.Exited 0 "" "") 1%Q (λ _, "Traceback")
    (λ _, []).

End Hosts.

(** * Properties *)

(** ** Port allocation *)

Section PortAllocation.
Import Config.

Lemma allocate_loop_cursor n limit next ports :
  next ≤ (allocate_loop n limit next ports).2.
Proof.
  revert next ports. induction n as [|n IH]; intros next ports; simpl; [lia|].
  destruct (limit <=? next); simpl; [lia|].
  specialize (IH (next + 1) (ports ++ [next])). lia.
Qed.

Lemma allocate_loop_ports n limit next ports ps p :
  (allocate_loop n limit next ports).1 = Some ps →
  p ∈ ps →
  p ∈ ports ∨ next ≤ p < (allocate_loop n limit next ports).2.
Proof.
  revert next ports. induction n as [|n IH]; intros next ports; simpl.
  - intros [= <-] Hp. by left.
  - destruct (limit <=? next); [done|].
    intros Hps Hp.
    destruct (IH _ _ Hps Hp) as [Hin|Hrange].
    + apply elem_of_app in Hin as [Hin|Hin]; [by left|].
      apply list_elem_of_singleton in Hin as ->. right.
      pose proof (allocate_loop_cursor n limit (next + 1) (ports ++ [next])). lia.
    + right. lia.
Qed.

Lemma allocate_loop_exhausted n limit next ports :
  Z.max 0 (limit - next) < Z.of_nat n →
  (allocate_loop n limit next ports).1 = None.
Proof.
  revert next ports. induction n as [|n IH]; intros next ports Hn; simpl; [lia|].
  destruct (limit <=? next) eqn:Hlim; [done|].
  apply Z.leb_gt in Hlim. apply IH. lia.
Qed.

Lemma table_ok_empty self : allocated_ports self = ∅ → table_ok self.
Proof.
  intros Hempty. split.
  - intros w1 w2 l1 l2 p _ H1. rewrite Hempty in H1. by rewrite lookup_empty in H1.
  - intros w l p H1. rewrite Hempty in H1. by rewrite lookup_empty in H1.
Qed.

Lemma release_ports_table self w :
  allocated_ports (release_ports self w) = delete w (allocated_ports self)
  ∧ next_port (release_ports self w) = next_port self.
Proof.
  unfold release_ports. destruct (allocated_ports self !! w) eqn:Hw; simpl; [done|].
  split; [|done]. symmetry. by apply delete_id.
Qed.

Lemma table_ok_release self w : table_ok self → table_ok (release_ports self w).
Proof.
  intros [Hex Hbelow]. destruct (release_ports_table self w) as [Htbl Hnext].
  split.
  - intros w1 w2 l1 l2 p Hne H1 H2. rewrite Htbl in H1, H2.
    apply lookup_delete_Some in H1 as [_ H1].
    apply lookup_delete_Some in H2 as [_ H2]. by eapply Hex.
  - intros w' l p H1 Hp. rewrite Htbl in H1. rewrite Hnext.
    apply lookup_delete_Some in H1 as [_ H1]. by eapply Hbelow.
Qed.

Lemma table_ok_allocate self w count :
  table_ok self → table_ok (allocate_ports self w count).2.
Proof.
  intros [Hex Hbelow]. unfold allocate_ports.
  destruct (allocated_ports self !! w) eqn:Hw; simpl; [done|].
  set (limit := base_port (resource_config self) + port_range (resource_config self)).
  pose proof (allocate_loop_cursor (Z.to_nat count) limit (next_port self) []) as Hcur.
  pose proof (allocate_loop_ports (Z.to_nat count) limit (next_port self) []) as Hnew.
  destruct (allocate_loop (Z.to_nat count) limit (next_port self) [])
    as [[ps|] next'] eqn:Hloop; simpl in *.
  - assert (Hfresh : ∀ p, p ∈ ps → next_port self ≤ p < next').
    { intros p Hp. destruct (Hnew ps p eq_refl Hp) as [Hnil|?]; [|done].
      by apply elem_of_nil in Hnil. }
    split.
    + intros w1 w2 l1 l2 p Hne H1 H2 Hp1 Hp2. simpl in H1, H2.
      destruct (decide (w1 = w)) as [->|Hw1].
      * rewrite lookup_insert_eq in H1. injection H1 as <-.
        rewrite lookup_insert_ne in H2 by done.
        specialize (Hfresh p Hp1). specialize (Hbelow w2 l2 p H2 Hp2). lia.
      * rewrite lookup_insert_ne in H1 by done.
        destruct (decide (w2 = w)) as [->|Hw2].
        -- rewrite lookup_insert_eq in H2. injection H2 as <-.
           specialize (Hfresh p Hp2). specialize (Hbelow w1 l1 p H1 Hp1). lia.
        -- rewrite lookup_insert_ne in H2 by done.
           exact (Hex w1 w2 l1 l2 p Hne H1 H2 Hp1 Hp2).
    + intros w' l p H1 Hp. simpl in *.
      destruct (decide (w' = w)) as [->|Hw'].
      * rewrite lookup_insert_eq in H1. injection H1 as <-.
        specialize (Hfresh p Hp). lia.
      * rewrite lookup_insert_ne in H1 by done.
        specialize (Hbelow w' l p H1 Hp). lia.
  - split; [done|].
    intros w' l p H1 Hp. simpl in *. specialize (Hbelow w' l p H1 Hp). lia.
Qed.

Lemma table_ok_calls cs self : table_ok self → table_ok (do_calls self cs).
Proof.
  revert self. induction cs as [|c cs IH]; intros self Hok; [done|].
  simpl. apply IH. destruct c; simpl.
  - by apply table_ok_allocate.
  - by apply table_ok_release.
Qed.

Lemma allocate_held self w count :
  is_Some (allocated_ports self !! w) →
  allocate_ports self w count
  = (Raise (ValueError ("Ports already allocated for worker " +:+ w)), self).
Proof. intros [l Hl]. unfold allocate_ports. by rewrite Hl. Qed.

(** C2. Through every sequence of [allocate_ports] and [release_ports] calls
    on a configuration that starts with an empty table, no port is in the
    allocations of two workers held at the same time; and [allocate_ports]
    for a worker that holds an allocation raises the allocation error and
    leaves the configuration as it was. *)
Theorem allocation_exclusive (self0 : ParallelDebugConfig) (cs : list call) :
  allocated_ports self0 = ∅ →
  exclusive (allocated_ports (do_calls self0 cs))
  ∧ ∀ w count,
      is_Some (allocated_ports (do_calls self0 cs) !! w) →
      allocate_ports (do_calls self0 cs) w count
      = (Raise (ValueError ("Ports already allocated for worker " +:+ w)),
         do_calls self0 cs).
Proof.
  intros Hempty. split.
  - apply (table_ok_calls cs self0 (table_ok_empty self0 Hempty)).
  - intros w count. apply allocate_held.
Qed.

Lemma allocation_exclusive_witness :
  exclusive (allocated_ports (do_calls (init 4) Examples.some_calls))
  ∧ allocate_ports (do_calls (init 4) Examples.some_calls) "worker_1" 2
    = (Raise (ValueError "Ports already allocated for worker worker_1"),
       do_calls (init 4) Examples.some_calls).
Proof.
  destruct (allocation_exclusive (init 4) Examples.some_calls eq_refl) as [H1 H2].
  split; [exact H1|].
  apply (H2 "worker_1" 2). exists [3102; 3103]. vm_compute. reflexivity.
Defined.

(** C5, as stated, fails: with both ports of the range taken by [worker1],
    fewer than 2 ports remain, and [allocate_ports("worker1", 2)] raises the
    allocation error, not the exhaustion error. *)
Lemma exhaustion_counterexample :
  remaining Examples.two_ports_taken < 2
  ∧ (allocate_ports Examples.two_ports_taken "worker1" 2).1
    = Raise (ValueError "Ports already allocated for worker worker1")
  ∧ (allocate_ports Examples.two_ports_taken "worker1" 2).1
    ≠ Raise (RuntimeError "Port range exhausted").
Proof. vm_compute. split; [reflexivity|]. split; [reflexivity|]. discriminate. Qed.

(** C5, amended. When fewer than [count] ports remain, [allocate_ports]
    leaves the allocation table unchanged; it raises the exhaustion error
    when the worker holds no allocation and the allocation error when it
    holds one. *)
Theorem exhaustion_keeps_table (self : ParallelDebugConfig) (w : string) (count : Z) :
  remaining self < count →
  allocated_ports (allocate_ports self w count).2 = allocated_ports self
  ∧ (allocated_ports self !! w = None →
     (allocate_ports self w count).1 = Raise (RuntimeError "Port range exhausted"))
  ∧ (is_Some (allocated_ports self !! w) →
     (allocate_ports self w count).1
     = Raise (ValueError ("Ports already allocated for worker " +:+ w))).
Proof.
  intros Hrem. unfold remaining in Hrem.
  set (limit := base_port (resource_config self) + port_range (resource_config self)) in *.
  assert (Hloop : (allocate_loop (Z.to_nat count) limit (next_port self) []).1 = None).
  { apply allocate_loop_exhausted. lia. }
  unfold allocate_ports. fold limit.
  destruct (allocated_ports self !! w) eqn:Hw; simpl.
  - split; [done|]. split; [done|]. done.
  - destruct (allocate_loop (Z.to_nat count) limit (next_port self) [])
      as [[ps|] next']; simpl in *; [done|].
    split; [done|]. split; [done|]. by intros [? ?].
Qed.

Lemma exhaustion_keeps_table_witness :
  allocated_ports (allocate_ports Examples.two_ports_taken "worker2" 2).2
  = allocated_ports Examples.two_ports_taken
  ∧ (allocate_ports Examples.two_ports_taken "worker2" 2).1
    = Raise (RuntimeError "Port range exhausted").
Proof.
  assert (Hrem : remaining Examples.two_ports_taken < 2) by (vm_compute; reflexivity).
  destruct (exhaustion_keeps_table Examples.two_ports_taken "worker2" 2 Hrem)
    as (Htbl & Hfree & _).
  split; [exact Htbl|]. apply Hfree. vm_compute. reflexivity.
Defined.

End PortAllocation.

(** ** The worker *)

Section WorkerRun.
Import Worker.

Lemma execute_launch_spec world script cenv w :
  spawned w = [] → kills w = 0%nat →
  launch_spec world (scenario w) (_execute_test_script world script cenv w).
Proof.
  intros Hsp Hk. unfold _execute_test_script, run_child.
  destruct w as [sc env0 st r sq rq sp k]. simpl in Hsp, Hk. subst sp k.
  mred.
  destruct (Py.endswith script ".py"); [|destruct (Py.endswith script ".js")]; mred.
  3:{ left. done. }
  all: match goal with |- context [child ?wd ?c ?e] =>
         destruct (child wd c e) as [code so se| |msg] eqn:Hc; mred end.
  all: try (left; done).
  all: try (destruct (decide (code = 0)); mred).
  all: right; eexists _, _; (split; [reflexivity|]); rewrite Hc; done.
Qed.

(** A later step that keeps the children and the kills keeps the
    specification, whether it passes an error on or follows a success. *)
Lemma launch_spec_keep world sc r r' w w' :
  spawned w' = spawned w → kills w' = kills w →
  (r' = r ∨ ∃ u, r = Ok u) →
  launch_spec world sc (r, w) → launch_spec world sc (r', w').
Proof.
  intros Hs Hk Hr [[H1 H2]|(cmd & cenv & H1 & H2)]; simpl in *.
  - left. simpl. by rewrite Hs, Hk.
  - right. exists cmd, cenv. simpl. rewrite Hs, Hk. split; [done|].
    destruct (child world cmd cenv); [|destruct Hr as [->|[u ->]]; [done|]|done].
    + destruct H2 as [H2 H3]. split; [done|]. intros Hne.
      destruct Hr as [->|[u ->]]; [by apply H3|]. by specialize (H3 Hne).
    + by destruct H2.
Qed.

(** The common end of a strategy: run the script found, then set a
    checkpoint. *)
Ltac after_execute :=
  match goal with |- context [_execute_test_script ?wd ?s ?e ?w] =>
    let Hspec := fresh "Hspec" in
    let w' := fresh "w'" in
    pose proof (execute_launch_spec wd s e w eq_refl eq_refl) as Hspec;
    destruct (_execute_test_script wd s e w) as [[[]|?] w'];
    [ eapply launch_spec_keep; [| |left; reflexivity|exact Hspec];
      destruct w'; reflexivity
    | exact Hspec ]
  end.

(** The ways a strategy comes to its script: by the search, which returns a
    path, returns nothing or raises, or by the test function itself. *)
Ltac script_cases :=
  repeat match goal with
  | |- context [if negb (?a || ?b) then _ else _] => destruct (negb (a || b)); mred
  | |- context [_find_test_script ?wd ?tf] =>
      destruct (_find_test_script wd tf) as [[?|]|?]; mred
  | |- context [negb (truthy ?x)] => destruct (negb (truthy x)); mred
  | |- context [if truthy ?x then _ else _] => destruct (truthy x); mred
  end.

Lemma ui_launch_spec world w :
  spawned w = [] → kills w = 0%nat →
  launch_spec world (scenario w) (_run_ui_test world w).
Proof.
  intros Hsp Hk. unfold _run_ui_test.
  destruct w as [sc env0 st r sq rq sp k]. simpl in Hsp, Hk. subst sp k.
  mred. script_cases; first [by left | after_execute].
Qed.

Lemma api_launch_spec world w :
  spawned w = [] → kills w = 0%nat →
  launch_spec world (scenario w) (_run_api_test world w).
Proof.
  intros Hsp Hk. unfold _run_api_test.
  destruct w as [sc env0 st r sq rq sp k]. simpl in Hsp, Hk. subst sp k.
  mred. script_cases; first [by left | after_execute].
Qed.

Lemma integration_launch_spec world w :
  spawned w = [] → kills w = 0%nat →
  launch_spec world (scenario w) (_run_integration_test world w).
Proof.
  intros Hsp Hk. unfold _run_integration_test.
  destruct w as [sc env0 st r sq rq sp k]. simpl in Hsp, Hk. subst sp k.
  mred. script_cases; first [by left | after_execute].
Qed.

Lemma performance_launch_spec world w :
  spawned w = [] → kills w = 0%nat →
  launch_spec world (scenario w) (_run_performance_test world w).
Proof.
  intros Hsp Hk. unfold _run_performance_test.
  destruct w as [sc env0 st r sq rq sp k]. simpl in Hsp, Hk. subst sp k.
  mred. script_cases; first [by left | after_execute].
Qed.

Lemma dispatch_launch_spec world w :
  spawned w = [] → kills w = 0%nat →
  launch_spec world (scenario w) (dispatch world w).
Proof.
  intros Hsp Hk. cbv beta iota delta [dispatch bind get].
  destruct (test_type (scenario w)).
  - by apply ui_launch_spec.
  - by apply api_launch_spec.
  - left. destruct w. simpl in *. done.
  - by apply integration_launch_spec.
  - by apply performance_launch_spec.
  - left. done.
Qed.

Lemma attempt_launch_spec world id sc env0 :
  launch_spec world sc (attempt world (new_worker id sc env0)).
Proof.
  unfold attempt, _initialize_session, new_worker. mred.
  destruct (session_start world) as [sid|e]; mred; [|left; done].
  match goal with |- context [dispatch ?wd ?w] =>
    pose proof (dispatch_launch_spec wd w eq_refl eq_refl) as Hspec;
    destruct (dispatch wd w) as [[[]|?] w']
  end.
  - eapply launch_spec_keep; [| |right; by eexists|exact Hspec]; destruct w'; reflexivity.
  - exact Hspec.
Qed.

(** What [run] makes of the outcome of the [try] body: the result sent is
    successful exactly when the body returned, it carries the message of the
    exception otherwise, and nothing after the body touches a child. *)
Lemma run_after_attempt world w0 :
  let out := attempt world w0 in
  spawned (run world w0) = spawned out.2
  ∧ kills (run world w0) = kills out.2
  ∧ ∃ r, last (result_queue (run world w0)) = Some r
      ∧ match out.1 with
        | Ok _ => success r = true ∧ error r = None
        | Raise e => success r = false ∧ error r = Some (exn_str e)
        end.
Proof.
  unfold run. mred. unfold on_failure, _cleanup, _send_final_result. mred.
  destruct (attempt world w0) as [[[]|e] w1] eqn:Hatt; mred.
  - assert (Hok : success (result_ w1) = true ∧ error (result_ w1) = None).
    { revert Hatt. unfold attempt, _initialize_session. mred.
      destruct (session_start world); mred; [|done].
      match goal with |- context [dispatch ?wd ?w] =>
        destruct (dispatch wd w) as [[[]|?] ?] end; mred; [|done].
      intros [= <-]. done. }
    destruct w1 as [sc1 env1 [st1|] r1 sq1 rq1 sp1 k1]; simpl in *;
      (split; [done|]); (split; [done|]);
      eexists; (split; [apply last_snoc|]); done.
  - destruct w1 as [sc1 env1 [st1|] r1 sq1 rq1 sp1 k1]; simpl in *;
      (split; [done|]); (split; [done|]);
      eexists; (split; [apply last_snoc|]); done.
Qed.

Lemma startswith_app s t p : Py.startswith s p = true → Py.startswith (s +:+ t) p = true.
Proof.
  revert p. induction s as [|c s IH]; intros p; destruct p as [|a p].
  - intros _. by destruct t.
  - done.
  - intros _. reflexivity.
  - change (String c s +:+ t) with (String c (s +:+ t)). simpl.
    intros [-> Hp]%andb_true_iff. simpl. by apply IH.
Qed.

Lemma contains_app s t p : Py.contains s p = true → Py.contains (s +:+ t) p = true.
Proof.
  induction s as [|c s IH].
  - destruct p; [|done]. intros _. by destruct t.
  - change (String c s +:+ t) with (String c (s +:+ t)).
    cbn [Py.contains]. intros [H|H]%orb_true_iff; apply orb_true_iff.
    + left. by apply (startswith_app (String c s) t p).
    + right. by apply IH.
Qed.

Lemma match_nullable ci r s : Re.nullable r = true → Re.match_ ci r s = true.
Proof. intros H. destruct s; simpl; by rewrite H. Qed.

Lemma match_app ci r s t : Re.match_ ci r s = true → Re.match_ ci r (s +:+ t) = true.
Proof.
  revert r. induction s as [|c s IH]; intros r.
  - simpl. rewrite orb_false_r. apply match_nullable.
  - change (String c s +:+ t) with (String c (s +:+ t)).
    cbn [Re.match_]. intros [H|H]%orb_true_iff; apply orb_true_iff; [by left|].
    right. by apply IH.
Qed.

Lemma search_app ci r s t : Re.search ci r s = true → Re.search ci r (s +:+ t) = true.
Proof.
  induction s as [|c s IH].
  - simpl. rewrite orb_false_r. intros H.
    assert (Re.match_ ci r ("" +:+ t) = true) by (by apply match_app).
    destruct t; simpl in *; by rewrite H0.
  - change (String c s +:+ t) with (String c (s +:+ t)).
    cbn [Re.search]. intros [H|H]%orb_true_iff; apply orb_true_iff.
    + left. by apply (match_app ci r (String c s) t).
    + right. by apply IH.
Qed.

(** C6. When the child the worker created is still running after
    [scenario.timeout] seconds, it is killed (once), the execution fails with
    a [TimeoutError], and the result sent has [success = False] and an error
    message that mentions the timeout (and falls in the timeout category of
    the error analyzer); when the child ends with a return code other than 0,
    the execution fails with a [RuntimeError] whose message carries the code,
    and that message is the error of the failed result. *)
Theorem child_timeout_and_exit_code (world : World) (id : string)
    (sc : TestScenario) (env0 : gmap string string)
    (cmd : list string) (cenv : gmap string string) :
  (cmd, cenv) ∈ spawned (run world (new_worker id sc env0)) →
  ∃ r, final_result world id sc env0 = Some r
    ∧ (child world cmd cenv = StillRunning →
       kills (run world (new_worker id sc env0)) = 1%nat
       ∧ (attempt world (new_worker id sc env0)).1
         = Raise (TimeoutError (timeout_message sc))
       ∧ success r = false
       ∧ error r = Some (timeout_message sc)
       ∧ Py.contains (timeout_message sc) "timeout" = true
       ∧ ∃ pattern, ("timeout", pattern) ∈ ErrorPatternAnalyzer.error_patterns
                    ∧ Re.search true pattern (timeout_message sc) = true)
    ∧ (∀ returncode stdout stderr,
         child world cmd cenv = Exited returncode stdout stderr →
         returncode ≠ 0 →
         (attempt world (new_worker id sc env0)).1
         = Raise (RuntimeError (exit_message returncode))
         ∧ success r = false
         ∧ error r = Some (exit_message returncode)).
Proof.
  intros Hin.
  destruct (run_after_attempt world (new_worker id sc env0)) as (Hsp & Hk & r & Hr & Hout).
  rewrite Hsp in Hin. rewrite Hk.
  pose proof (attempt_launch_spec world id sc env0) as [[Hnil _]|(c & e & Hone & Hchild)].
  { rewrite Hnil in Hin. by apply elem_of_nil in Hin. }
  rewrite Hone in Hin. apply list_elem_of_singleton in Hin. injection Hin as -> ->.
  exists r. split; [exact Hr|]. split.
  - intros Hrun. rewrite Hrun in Hchild. destruct Hchild as [Hraise Hkill].
    rewrite Hraise in Hout. destruct Hout as [Hs He].
    split; [done|]. split; [done|]. split; [done|]. split; [done|]. split.
    + unfold timeout_message. by apply contains_app.
    + eexists. split.
      * apply list_elem_of_lookup. exists 1%nat. reflexivity.
      * unfold timeout_message. apply search_app. vm_compute. reflexivity.
  - intros code so se Hexit Hne. rewrite Hexit in Hchild.
    destruct Hchild as [_ Hraise]. specialize (Hraise Hne).
    rewrite Hraise in Hout. by destruct Hout.
Qed.

Lemma child_timeout_and_exit_code_witness :
  ∃ r, final_result Examples.hanging_world "w"
         (Examples.scenario_of "s" UI_FLOW "slow.py") ∅ = Some r
       ∧ success r = false
       ∧ error r = Some "Test exceeded timeout of 120s".
Proof.
  set (sc := Examples.scenario_of "s" UI_FLOW "slow.py").
  set (cmd := ["python3"; "slow.py"]).
  set (cenv := <["BASE_URL" := "http://localhost:3000"]>
                 (<["DEBUG_WORKER_ID" := "w"]>
                    (<["DEBUG_SESSION_ID" := "session-1"]> (∅ : gmap string string)))).
  assert (Hin : (cmd, cenv) ∈ spawned (run Examples.hanging_world (new_worker "w" sc ∅))).
  { apply list_elem_of_singleton. vm_compute. reflexivity. }
  destruct (child_timeout_and_exit_code Examples.hanging_world "w" sc ∅ cmd cenv Hin)
    as (r & Hr & Hhang & _).
  exists r. split; [exact Hr|].
  destruct (Hhang eq_refl) as (_ & _ & Hs & He & _).
  split; [exact Hs|exact He].
Defined.



(** C4, as stated, fails: for an API scenario whose test function has no
    script extension and is found under no search root, the body of [run]
    returns normally, no child is created, and the result sent is successful
    and carries no error. *)
Lemma unresolved_script_counterexample :
  let sc := Examples.scenario_of "s" API_TEST "nothing" in
  Py.endswith (test_function sc) ".py" = false
  ∧ Py.endswith (test_function sc) ".js" = false
  ∧ _find_test_script Examples.bare_world (test_function sc) = Ok None
  ∧ (attempt Examples.bare_world (new_worker "w" sc ∅)).1 = Ok tt
  ∧ (success <$> final_result Examples.bare_world "w" sc ∅) = Some true
  ∧ (error <$> final_result Examples.bare_world "w" sc ∅) = Some None.
Proof. vm_compute. repeat split; reflexivity. Qed.

(** The body of [run] up to the script a strategy comes to. *)
Ltac to_script Hs Ht :=
  unfold attempt, _initialize_session, dispatch, new_worker;
  mred; rewrite Hs; mred; rewrite Ht;
  unfold _run_ui_test, _run_api_test, _run_integration_test, _run_performance_test;
  mred.

(** What the body of [run] does with the outcome of the search: nothing
    found is an error for a UI flow scenario and a skipped launch for the
    others, and an exception of the search ends the body. *)
Lemma attempt_unresolved world id sc env0 sid :
  session_start world = Ok sid →
  let out := attempt world (new_worker id sc env0) in
  let searched :=
    (test_type sc = UI_FLOW ∧ Py.endswith (test_function sc) ".py" = false
     ∧ Py.endswith (test_function sc) ".js" = false)
    ∨ test_type sc = API_TEST ∨ test_type sc = INTEGRATION
    ∨ test_type sc = PERFORMANCE in
  (searched → _find_test_script world (test_function sc) = Ok None →
   spawned out.2 = []
   ∧ out.1 = match test_type sc with
             | UI_FLOW => Raise (FileNotFoundError
                                   ("Test script not found: " +:+ test_function sc))
             | _ => Ok tt
             end)
  ∧ (∀ e, searched → _find_test_script world (test_function sc) = Raise e →
          spawned out.2 = [] ∧ out.1 = Raise e).
Proof.
  intros Hs out searched. subst out searched. split.
  - intros [(Ht & Hpy & Hjs)|[Ht|[Ht|Ht]]] Hfind; to_script Hs Ht;
      rewrite ?Hpy, ?Hjs; cbn [orb negb]; mred; rewrite Hfind; mred;
      cbn [truthy negb]; mred; split; reflexivity.
  - intros e [(Ht & Hpy & Hjs)|[Ht|[Ht|Ht]]] Hfind; to_script Hs Ht;
      rewrite ?Hpy, ?Hjs; cbn [orb negb]; mred; rewrite Hfind; mred;
      split; reflexivity.
Qed.

(** C4, amended.  When the search for the script of a scenario returns
    nothing, no child is created: a UI flow scenario whose test function has
    no script extension fails with the not-found error and its result records
    the failure with that message, whereas an API, integration or performance
    scenario skips the launch and its result is successful, without error,
    whatever the test function ends in.  When the search itself raises, as
    [pathlib] does for a test function that is an absolute path, no child is
    created either and the result records the failure with the message of
    that exception. *)
Theorem unresolved_script (world : World) (id : string) (sc : TestScenario)
    (env0 : gmap string string) (sid : string) :
  session_start world = Ok sid →
  ∃ r, final_result world id sc env0 = Some r
    ∧ (test_type sc = UI_FLOW →
       Py.endswith (test_function sc) ".py" = false →
       Py.endswith (test_function sc) ".js" = false →
       _find_test_script world (test_function sc) = Ok None →
       spawned (run world (new_worker id sc env0)) = []
       ∧ (attempt world (new_worker id sc env0)).1
         = Raise (FileNotFoundError ("Test script not found: " +:+ test_function sc))
       ∧ success r = false
       ∧ error r = Some ("Test script not found: " +:+ test_function sc))
    ∧ (test_type sc = API_TEST ∨ test_type sc = INTEGRATION
       ∨ test_type sc = PERFORMANCE →
       _find_test_script world (test_function sc) = Ok None →
       spawned (run world (new_worker id sc env0)) = []
       ∧ (attempt world (new_worker id sc env0)).1 = Ok tt
       ∧ success r = true ∧ error r = None)
    ∧ (∀ e,
         (test_type sc = UI_FLOW ∧ Py.endswith (test_function sc) ".py" = false
          ∧ Py.endswith (test_function sc) ".js" = false)
         ∨ test_type sc = API_TEST ∨ test_type sc = INTEGRATION
         ∨ test_type sc = PERFORMANCE →
         _find_test_script world (test_function sc) = Raise e →
         spawned (run world (new_worker id sc env0)) = []
         ∧ (attempt world (new_worker id sc env0)).1 = Raise e
         ∧ success r = false
         ∧ error r = Some (exn_str e)).
Proof.
  intros Hs.
  destruct (run_after_attempt world (new_worker id sc env0)) as (Hsp & _ & r & Hr & Hout).
  destruct (attempt_unresolved world id sc env0 sid Hs) as [Hnone Hraise].
  cbv zeta in Hsp, Hout, Hnone, Hraise.
  exists r. split; [exact Hr|]. rewrite Hsp. split; [|split].
  - intros Ht Hpy Hjs Hfind.
    destruct (Hnone (or_introl (conj Ht (conj Hpy Hjs))) Hfind) as [Hnil Hres].
    rewrite Ht in Hres. rewrite Hres in Hout |- *.
    split; [exact Hnil|]. split; [reflexivity|exact Hout].
  - intros Ht Hfind.
    destruct (Hnone (or_intror Ht) Hfind) as [Hnil Hres].
    assert (Hok : (attempt world (new_worker id sc env0)).1 = Ok tt)
      by (destruct Ht as [Ht|[Ht|Ht]]; rewrite Ht in Hres; exact Hres).
    clear Hres. rename Hok into Hres. rewrite Hres in Hout |- *.
    split; [exact Hnil|]. split; [reflexivity|exact Hout].
  - intros e Ht Hfind. destruct (Hraise e Ht Hfind) as [Hnil Hres].
    rewrite Hres in Hout |- *.
    split; [exact Hnil|]. split; [reflexivity|exact Hout].
Qed.

Lemma unresolved_script_witness :
  (∃ r, final_result Examples.bare_world "w"
          (Examples.scenario_of "s" UI_FLOW "nothing") ∅ = Some r
        ∧ success r = false
        ∧ error r = Some "Test script not found: nothing")
  ∧ (∃ r, final_result Examples.rooted_world "w"
            (Examples.scenario_of "s" API_TEST "/tmp/evil") ∅ = Some r
          ∧ success r = false
          ∧ error r = Some "Non-relative patterns are unsupported").
Proof.
  split.
  - destruct (unresolved_script Examples.bare_world "w"
                (Examples.scenario_of "s" UI_FLOW "nothing") ∅ "session-1" eq_refl)
      as (r & Hr & Hui & _).
    exists r. split; [exact Hr|].
    destruct (Hui eq_refl eq_refl eq_refl eq_refl) as (_ & _ & Hs & He).
    split; [exact Hs|exact He].
  - destruct (unresolved_script Examples.rooted_world "w"
                (Examples.scenario_of "s" API_TEST "/tmp/evil") ∅ "session-1" eq_refl)
      as (r & Hr & _ & _ & Hraise).
    exists r. split; [exact Hr|].
    destruct (Hraise (NotImplementedError "Non-relative patterns are unsupported")
                (or_intror (or_introl eq_refl)) eq_refl) as (_ & _ & Hs & He).
    split; [exact Hs|exact He].
Defined.

End WorkerRun.

(** ** The orchestrator *)

Section WorkerIds.
Import Orchestrator.

(** The identifier of a started worker is built from the number of workers
    tracked at that moment, and a completed worker is no longer tracked. *)
Lemma started_worker_id environ self scenario worker_id self' :
  _start_worker environ self scenario = (Some worker_id, self') →
  worker_id = "worker_" +:+ str_of_Z (Z.of_nat (size (workers self))).
Proof.
  unfold _start_worker, next_worker_id.
  destruct (Config.allocate_ports _ _ _) as [[ports|e] cfg]; [|done].
  destruct (Config.get_worker_env _ _ _ _); [|done].
  by intros [= <- _].
Qed.

(** C3 on the code, with two workers at most and three scenarios.  When the
    worker started second exits first, the third worker is started under the
    identifier [worker_1] again, although two workers were started before it:
    the identifiers of the run are not pairwise distinct.  When the worker
    started first exits first, the third scenario is given the identifier of
    the live worker [worker_1]; the allocation fails, the scenario is never
    started, and the live worker loses its ports. *)
Theorem worker_ids_repeat :
  let run1 := _execute_scenarios ∅ Examples.second_exits_first
                (new_debugger (Config.init 2)) Examples.three_scenarios in
  let run2 := _execute_scenarios ∅ Examples.first_exits_first
                (new_debugger (Config.init 2)) Examples.three_scenarios in
  p_worker_id <$> started run1 = ["worker_0"; "worker_1"; "worker_1"]
  ∧ name ∘ p_scenario <$> started run1 = ["A"; "B"; "C"]
  ∧ ¬ NoDup (p_worker_id <$> started run1)
  ∧ name ∘ p_scenario <$> started run2 = ["A"; "B"]
  ∧ workers run2 !! "worker_1" = Some 1%nat
  ∧ Config.allocated_ports (config run2) !! "worker_1" = None.
Proof.
  intros run1 run2.
  assert (H1 : p_worker_id <$> started run1 = ["worker_0"; "worker_1"; "worker_1"])
    by (vm_compute; reflexivity).
  split; [exact H1|]. split; [vm_compute; reflexivity|]. split.
  - rewrite H1. intros Hnd.
    apply NoDup_cons in Hnd as [_ Hnd]. apply NoDup_cons in Hnd as [Hnot _].
    apply Hnot. by left.
  - split; [vm_compute; reflexivity|]. split; vm_compute; reflexivity.
Qed.

End WorkerIds.

(** ** The result aggregator *)

Section Aggregation.
Import Aggregator.

Lemma add_results_fold l self :
  worker_results (fold_left add_result l self) = worker_results self ++ l
  ∧ aggregated_results (fold_left add_result l self) = aggregated_results self.
Proof.
  revert self. induction l as [|x l IH]; intros self; simpl.
  - by rewrite app_nil_r.
  - destruct (IH (add_result self x)) as [-> ->]. simpl. by rewrite <- app_assoc.
Qed.

(** The loop of [_calculate_basic_stats] adds to the counters it finds. *)
Lemma stats_fold l r :
  total_scenarios (fold_left stats_step l r) = total_scenarios r
  ∧ successful_scenarios (fold_left stats_step l r)
    = successful_scenarios r + successes l
  ∧ failed_scenarios (fold_left stats_step l r)
    = failed_scenarios r + (Z.of_nat (length l) - successes l).
Proof.
  revert r. induction l as [|x l IH]; intros r.
  - simpl. unfold successes. simpl. lia.
  - cbn [fold_left]. destruct (IH (stats_step r x)) as (-> & -> & ->).
    unfold successes. simpl. destruct (success x); simpl length; lia.
Qed.

Lemma successes_bound l : 0 ≤ successes l ≤ Z.of_nat (length l).
Proof.
  unfold successes. split; [lia|].
  apply inj_le. induction l as [|x l IH]; simpl; [lia|].
  destruct (success x); simpl; lia.
Qed.

(** One call of [aggregate] on an aggregator that holds results: the total is
    set, the two counters grow from what the previous calls left. *)
Lemma aggregate_counts self :
  worker_results self ≠ [] →
  let n := Z.of_nat (length (worker_results self)) in
  let k := successes (worker_results self) in
  let r := (aggregate self).1 in
  (aggregate self).2 = mkAggregator (worker_results self) r
  ∧ total_scenarios r = n
  ∧ successful_scenarios r = successful_scenarios (aggregated_results self) + k
  ∧ failed_scenarios r = failed_scenarios (aggregated_results self) + (n - k)
  ∧ success_rate r = (inject_Z (successful_scenarios r) / inject_Z n)%Q.
Proof.
  intros Hne n k. subst n k. unfold aggregate.
  destruct (worker_results self) as [|x l] eqn:Hl; [done|].
  cbn [fst snd]. split; [reflexivity|].
  unfold _analyze_findings, _analyze_errors.
  destruct (FindingsAnalyzer.analyze_findings (x :: l)) as [cf rc].
  destruct (ErrorPatternAnalyzer.analyze_errors (x :: l)) as [ce ep].
  cbn [total_scenarios successful_scenarios failed_scenarios success_rate].
  unfold _calculate_basic_stats. rewrite Hl.
  set (n := Z.of_nat (length (x :: l))).
  destruct (stats_fold (x :: l) (set_total n (aggregated_results self)))
    as (Ht & Hs & Hf).
  cbn [set_total total_scenarios successful_scenarios failed_scenarios] in Ht, Hs, Hf.
  assert (Hpos : (0 <? n) = true).
  { apply Z.ltb_lt. unfold n. simpl length. lia. }
  unfold set_rates. rewrite Ht, Hpos.
  cbn [total_scenarios successful_scenarios failed_scenarios success_rate].
  done.
Qed.

(** C8. One [aggregate] call on a fresh aggregator holding [N] results of
    which [K] are successful sets [success_rate] to [K/N], the successful
    count to [K] and the failed count to [N - K]; with no result the rate
    returned is 0. *)
Theorem success_rate_correct (results : list WorkerResult) :
  let r := (aggregate (fold_left add_result results new_aggregator)).1 in
  let n := Z.of_nat (length results) in
  let k := successes results in
  total_scenarios r = n
  ∧ successful_scenarios r = k
  ∧ failed_scenarios r = n - k
  ∧ success_rate r = if decide (n = 0) then 0%Q else (inject_Z k / inject_Z n)%Q.
Proof.
  intros r n k. subst r.
  destruct (add_results_fold results new_aggregator) as [Hwr Hagg].
  simpl in Hwr, Hagg.
  destruct results as [|x l].
  - simpl. done.
  - set (self := fold_left add_result (x :: l) new_aggregator) in *.
    assert (Hne : worker_results self ≠ []) by (by rewrite Hwr).
    destruct (aggregate_counts self Hne) as (_ & Ht & Hs & Hf & Hrate).
    rewrite Hwr, Hagg in *. cbn [empty_results successful_scenarios failed_scenarios] in *.
    fold n in Ht, Hs, Hf, Hrate. fold k in Hs, Hf.
    rewrite Z.add_0_l in Hs, Hf.
    split; [done|]. split; [done|]. split; [done|].
    rewrite Hrate, Hs. destruct (decide (n = 0)) as [Hz|_]; [|done].
    unfold n in Hz. simpl length in Hz. lia.
Qed.

(** C1 on the code: a second [aggregate] call with no result added in
    between adds the successes and failures once more to the counters of the
    first call, while the total is set again: the counts are doubled, and the
    second result differs from the first. *)
Theorem aggregate_twice_accumulates (results : list WorkerResult) :
  results ≠ [] →
  let self0 := fold_left add_result results new_aggregator in
  let r1 := (aggregate self0).1 in
  let self1 := (aggregate self0).2 in
  let r2 := (aggregate self1).1 in
  let n := Z.of_nat (length results) in
  worker_results self1 = worker_results self0
  ∧ total_scenarios r1 = n ∧ total_scenarios r2 = n
  ∧ successful_scenarios r1 + failed_scenarios r1 = n
  ∧ successful_scenarios r2 = 2 * successful_scenarios r1
  ∧ failed_scenarios r2 = 2 * failed_scenarios r1
  ∧ successful_scenarios r2 + failed_scenarios r2 = 2 * n
  ∧ r2 ≠ r1.
Proof.
  intros Hne self0 r1 self1 r2 n.
  destruct (add_results_fold results new_aggregator) as [Hwr Hagg].
  simpl in Hwr, Hagg. fold self0 in Hwr, Hagg.
  assert (Hne0 : worker_results self0 ≠ []) by (by rewrite Hwr).
  destruct (aggregate_counts self0 Hne0) as (Hself1 & Ht1 & Hs1 & Hf1 & _).
  fold r1 self1 in Hself1, Ht1, Hs1, Hf1.
  assert (Hwr1 : worker_results self1 = worker_results self0) by (by rewrite Hself1).
  assert (Hne1 : worker_results self1 ≠ []) by (by rewrite Hwr1).
  destruct (aggregate_counts self1 Hne1) as (_ & Ht2 & Hs2 & Hf2 & _).
  fold r2 in Ht2, Hs2, Hf2.
  assert (Hagg1 : aggregated_results self1 = r1) by (by rewrite Hself1).
  rewrite Hwr1 in Ht2, Hs2, Hf2. rewrite Hagg1 in Hs2, Hf2.
  rewrite Hwr in Ht1, Hs1, Hf1, Ht2, Hs2, Hf2. rewrite Hagg in Hs1, Hf1.
  fold n in Ht1, Hs1, Hf1, Ht2, Hs2, Hf2.
  cbn [empty_results successful_scenarios failed_scenarios] in Hs1, Hf1.
  assert (Hn : 0 < n).
  { unfold n. destruct results; [done|]. simpl length. lia. }
  pose proof (successes_bound results) as Hk. fold n in Hk.
  split; [exact Hwr1|].
  split; [done|]. split; [done|]. split; [lia|]. split; [lia|]. split; [lia|].
  split; [lia|].
  intros Heq.
  assert (successful_scenarios r2 + failed_scenarios r2
          = successful_scenarios r1 + failed_scenarios r1) by (by rewrite Heq).
  lia.
Qed.

Lemma aggregate_twice_accumulates_witness :
  let self0 := add_result new_aggregator (Examples.one_result true None "a") in
  successful_scenarios (aggregate self0).1 = 1
  ∧ successful_scenarios (aggregate (aggregate self0).2).1 = 2
  ∧ total_scenarios (aggregate (aggregate self0).2).1 = 1.
Proof.
  intros self0.
  assert (Hne : [Examples.one_result true None "a"] ≠ []) by discriminate.
  destruct (aggregate_twice_accumulates [Examples.one_result true None "a"] Hne)
    as (_ & _ & Ht2 & _ & Hs2 & _).
  split; [reflexivity|]. split; [|exact Ht2].
  etransitivity; [exact Hs2|]. reflexivity.
Defined.

End Aggregation.

(** ** The pattern matcher *)

Section Matcher.
Import Re.

Lemma append_empty s1 s2 : s1 +:+ s2 = "" → s1 = "" ∧ s2 = "".
Proof. destruct s1; [done|]. discriminate. Qed.

Lemma append_cons c s1 s2 : String c s1 +:+ s2 = String c (s1 +:+ s2).
Proof. reflexivity. Qed.

Lemma append_nil_l s : "" +:+ s = s.
Proof. reflexivity. Qed.

Lemma append_nil_r s : s +:+ "" = s.
Proof. induction s as [|c s IH]; [done|]. by rewrite append_cons, IH. Qed.

Lemma append_assoc s1 s2 s3 : (s1 +:+ s2) +:+ s3 = s1 +:+ (s2 +:+ s3).
Proof. induction s1 as [|c s1 IH]; [done|]. by rewrite !append_cons, IH. Qed.

Lemma nullable_in_lang ci r : nullable r = true ↔ in_lang ci r "".
Proof.
  split.
  - induction r as [| |a| | |r1 IH1 r2 IH2|r1 IH1 r2 IH2|r1 IH1]; simpl; try done.
    + intros _. constructor.
    + intros [H1 H2]%andb_true_iff.
      change "" with ("" +:+ ""). constructor; auto.
    + intros [H|H]%orb_true_iff; [apply in_alt_l|apply in_alt_r]; auto.
    + intros _. constructor.
  - intros H. remember "" as w eqn:Hw.
    induction H as [ |a c Hc|c Hc|c Hc|r1 r2 s1 s2 H1 IH1 H2 IH2
                    |r1 r2 s H IH|r1 r2 s H IH|r|r s1 s2 H1 IH1 H2 IH2];
      simpl; try done.
    + apply append_empty in Hw as [-> ->]. rewrite IH1, IH2; done.
    + rewrite IH; done.
    + rewrite IH by done. apply orb_true_r.
Qed.

Lemma deriv_sound ci c r s : in_lang ci (deriv ci c r) s → in_lang ci r (String c s).
Proof.
  revert s.
  induction r as [| |a| | |r1 IH1 r2 IH2|r1 IH1 r2 IH2|r1 IH1]; intros s; simpl.
  - inversion 1.
  - inversion 1.
  - destruct (chr_matches ci a c) eqn:Hm; inversion 1; subst. by constructor.
  - destruct (Ascii.eqb c _) eqn:Hm; inversion 1; subst. by constructor.
  - destruct (is_digit c) eqn:Hm; inversion 1; subst. by constructor.
  - destruct (nullable r1) eqn:Hn.
    + inversion 1 as [| | | | | ? ? ? Hl | ? ? ? Hr | |]; subst.
      * inversion Hl as [| | | |? ? s1 s2 Ha Hb| | | |]; subst.
        rewrite <- append_cons. constructor; auto.
      * rewrite <- (append_nil_l (String c s)). constructor; auto.
        by apply nullable_in_lang.
    + inversion 1 as [| | | |? ? s1 s2 Ha Hb| | | |]; subst.
      rewrite <- append_cons. constructor; auto.
  - inversion 1; subst; [apply in_alt_l|apply in_alt_r]; auto.
  - inversion 1 as [| | | |? ? s1 s2 Ha Hb| | | |]; subst.
    rewrite <- append_cons. constructor; auto.
Qed.

Lemma deriv_complete ci r w :
  in_lang ci r w → ∀ c s, w = String c s → in_lang ci (deriv ci c r) s.
Proof.
  induction 1 as [ |a c0 Hc|c0 Hc|c0 Hc|r1 r2 s1 s2 H1 IH1 H2 IH2
                  |r1 r2 s0 H IH|r1 r2 s0 H IH|r|r s1 s2 H1 IH1 H2 IH2];
    intros c s Hw; simpl.
  - done.
  - injection Hw as -> <-. rewrite Hc. constructor.
  - injection Hw as -> <-. rewrite Hc. constructor.
  - injection Hw as -> <-. rewrite Hc. constructor.
  - destruct s1 as [|c1 s1].
    + rewrite append_nil_l in Hw. subst s2.
      apply nullable_in_lang in H1. rewrite H1. apply in_alt_r. by apply IH2.
    + rewrite append_cons in Hw. injection Hw as -> <-.
      assert (Hcat : in_lang ci (Cat (deriv ci c r1) r2) (s1 +:+ s2)).
      { constructor; [by apply IH1|done]. }
      destruct (nullable r1); [by apply in_alt_l|done].
  - apply in_alt_l. by apply IH.
  - apply in_alt_r. by apply IH.
  - done.
  - destruct s1 as [|c1 s1].
    + rewrite append_nil_l in Hw. by apply IH2.
    + rewrite append_cons in Hw. injection Hw as -> <-.
      constructor; [by apply IH1|done].
Qed.

(** [match_] accepts exactly the strings with a prefix in the language. *)
Lemma match_correct ci r s :
  match_ ci r s = true ↔ ∃ s1 s2, s = s1 +:+ s2 ∧ in_lang ci r s1.
Proof.
  revert r. induction s as [|c s IH]; intros r; simpl.
  - rewrite orb_false_r. rewrite nullable_in_lang. split.
    + intros H. by exists "", "".
    + intros (s1 & s2 & Hs & H). symmetry in Hs.
      apply append_empty in Hs as [-> _]. done.
  - rewrite orb_true_iff, IH, (nullable_in_lang ci). split.
    + intros [H|(s1 & s2 & -> & H)].
      * by exists "", (String c s).
      * exists (String c s1), s2. split; [done|]. by apply deriv_sound.
    + intros (s1 & s2 & Hs & H). destruct s1 as [|c1 s1].
      * by left.
      * right. rewrite append_cons in Hs. injection Hs as <- ->.
        exists s1, s2. split; [done|]. by eapply deriv_complete.
Qed.

(** [search] accepts exactly the strings with a substring in the language. *)
Lemma search_correct ci r s :
  search ci r s = true ↔ ∃ s0 s1 s2, s = s0 +:+ s1 +:+ s2 ∧ in_lang ci r s1.
Proof.
  induction s as [|c s IH].
  - simpl. rewrite orb_false_r. rewrite (match_correct ci r ""). split.
    + intros (s1 & s2 & Hs & H). by exists "", s1, s2.
    + intros (s0 & s1 & s2 & Hs & H). symmetry in Hs.
      apply append_empty in Hs as [-> Hs]. by exists s1, s2.
  - cbn [search]. rewrite orb_true_iff, IH, match_correct. split.
    + intros [(s1 & s2 & Hs & H)|(s0 & s1 & s2 & -> & H)].
      * by exists "", s1, s2.
      * by exists (String c s0), s1, s2.
    + intros (s0 & s1 & s2 & Hs & H). destruct s0 as [|c0 s0].
      * left. by exists s1, s2.
      * right. rewrite append_cons in Hs. injection Hs as <- ->.
        by exists s0, s1, s2.
Qed.

End Matcher.

(** ** The error pattern analyzer *)

Section ErrorPatterns.
Import Re ErrorPatternAnalyzer.







Lemma placed_append_mono c x c' y cats :
  placed c x cats → placed c x (append_to c' y cats).
Proof.
  unfold placed, append_to. intros Hx. destruct (decide (c' = c)) as [->|Hne].
  - rewrite lookup_insert_eq. simpl. apply elem_of_app. by left.
  - by rewrite lookup_insert_ne.
Qed.

Lemma placed_append c y cats : placed c y (append_to c y cats).
Proof.
  unfold placed, append_to. rewrite lookup_insert_eq. simpl.
  apply elem_of_app. right. by apply list_elem_of_singleton.
Qed.

Lemma categorize_with_mono pats text entry cats c x :
  placed c x cats → placed c x (categorize_with pats text entry cats).
Proof.
  revert cats. induction pats as [|[c' pat] pats IH]; intros cats Hx; [done|].
  simpl. apply IH. destruct (search true pat text); [|done].
  by apply placed_append_mono.
Qed.

Lemma categorize_with_adds pats text entry cats c pat :
  (c, pat) ∈ pats → search true pat text = true →
  placed c entry (categorize_with pats text entry cats).
Proof.
  revert cats. induction pats as [|[c' pat'] pats IH]; intros cats Hin Hs.
  - by apply elem_of_nil in Hin.
  - simpl. apply elem_of_cons in Hin as [[= <- <-]|Hin].
    + rewrite Hs. apply categorize_with_mono. apply placed_append.
    + by apply IH.
Qed.

Lemma logs_fold_mono scenario lines cats c x :
  placed c x cats →
  placed c x
    (fold_left
       (λ acc log_line,
          if is_error_line log_line
          then categorize log_line (LogOf scenario log_line) acc
          else acc)
       lines cats).
Proof.
  revert cats. induction lines as [|line lines IH]; intros cats Hx; [done|].
  simpl. apply IH. destruct (is_error_line line); [|done].
  by apply (categorize_with_mono error_patterns).
Qed.

Lemma analyze_one_mono cats r c x : placed c x cats → placed c x (analyze_one cats r).
Proof.
  intros Hx. unfold analyze_one. destruct (failed_with r) as [e|]; [|done].
  apply logs_fold_mono. by apply (categorize_with_mono error_patterns).
Qed.

Lemma analyze_one_adds cats r e c pat :
  failed_with r = Some e → (c, pat) ∈ error_patterns → search true pat e = true →
  placed c (ErrorOf (scenario_name r) e) (analyze_one cats r).
Proof.
  intros Hf Hin Hs. unfold analyze_one. rewrite Hf.
  apply logs_fold_mono. by apply (categorize_with_adds error_patterns _ _ _ c pat).
Qed.

Lemma analyze_fold_mono results cats c x :
  placed c x cats → placed c x (fold_left analyze_one results cats).
Proof.
  revert cats. induction results as [|r results IH]; intros cats Hx; [done|].
  simpl. apply IH. by apply analyze_one_mono.
Qed.

Lemma analyze_fold_adds results cats r e c pat :
  r ∈ results → failed_with r = Some e →
  (c, pat) ∈ error_patterns → search true pat e = true →
  placed c (ErrorOf (scenario_name r) e) (fold_left analyze_one results cats).
Proof.
  revert cats. induction results as [|r' results IH]; intros cats Hin Hf Hp Hs.
  - by apply elem_of_nil in Hin.
  - simpl. apply elem_of_cons in Hin as [<-|Hin].
    + apply analyze_fold_mono. by apply (analyze_one_adds cats r e c pat).
    + by apply IH.
Qed.



End ErrorPatterns.

(** ** The findings analyzer *)

Section Findings.
Import FindingsAnalyzer.








End Findings.

(** ** Port allocation: what a caller can rely on *)

Section PortAllocationMore.
Import Config.

Lemma allocate_loop_success n limit next ports :
  next + Z.of_nat n ≤ limit →
  allocate_loop n limit next ports
  = (Some (ports ++ seqZ next (Z.of_nat n)), next + Z.of_nat n).
Proof.
  revert next ports. induction n as [|n IH]; intros next ports Hle.
  - simpl. rewrite seqZ_nil by lia. rewrite app_nil_r. f_equal. lia.
  - cbn [allocate_loop]. destruct (limit <=? next) eqn:Hlim.
    { apply Z.leb_le in Hlim. lia. }
    rewrite IH by lia. rewrite (seqZ_cons next) by lia.
    rewrite <- app_assoc. cbn [app].
    replace (Z.pred (Z.of_nat (S n))) with (Z.of_nat n) by lia.
    replace (Z.succ next) with (next + 1) by lia.
    f_equal. lia.
Qed.

Lemma allocate_ports_fits (self : ParallelDebugConfig) (w : string) (count : Z) :
  allocated_ports self !! w = None →
  count ≤ remaining self →
  allocate_ports self w count
  = (Ok (seqZ (next_port self) count),
     mkConfig (resource_config self)
       (<[w := seqZ (next_port self) count]> (allocated_ports self))
       (next_port self + Z.max 0 count)).
Proof.
  intros Hw Hrem. unfold allocate_ports, remaining in *. rewrite Hw.
  destruct (decide (count ≤ 0)) as [Hneg|Hpos].
  - replace (Z.to_nat count) with 0%nat by lia. simpl.
    rewrite seqZ_nil by lia. do 2 f_equal. lia.
  - rewrite allocate_loop_success by lia. simpl.
    rewrite Z2Nat.id by lia. do 2 f_equal. lia.
Qed.

(** X1. A worker that holds no ports and asks for no more ports than the
    cursor has left gets [count] consecutive ports starting at the cursor;
    they are recorded under its identifier and the cursor moves by [count]
    (by nothing for a count of zero or less). *)
Theorem allocate_ports_success (self : ParallelDebugConfig) (w : string) (count : Z) :
  allocated_ports self !! w = None →
  count ≤ remaining self →
  allocate_ports self w count
  = (Ok (seqZ (next_port self) count),
     mkConfig (resource_config self)
       (<[w := seqZ (next_port self) count]> (allocated_ports self))
       (next_port self + Z.max 0 count)).
Proof. apply allocate_ports_fits. Qed.

Lemma allocate_ports_success_witness :
  (allocate_ports (init 4) "worker_0" 2).1 = Ok [3100; 3101].
Proof.
  assert (Hw : allocated_ports (init 4) !! "worker_0" = None) by reflexivity.
  assert (Hrem : 2 ≤ remaining (init 4)) by (vm_compute; discriminate).
  rewrite (allocate_ports_success (init 4) "worker_0" 2 Hw Hrem). reflexivity.
Defined.

Lemma allocate_keeps_config self w count :
  resource_config (allocate_ports self w count).2 = resource_config self
  ∧ next_port self ≤ next_port (allocate_ports self w count).2.
Proof.
  unfold allocate_ports. destruct (allocated_ports self !! w); simpl;
    [split; [done|lia]|].
  pose proof (allocate_loop_cursor (Z.to_nat count)
                (base_port (resource_config self) + port_range (resource_config self))
                (next_port self) []) as Hcur.
  destruct (allocate_loop _ _ _ _) as [[ps|] next']; simpl in *; done.
Qed.

Lemma release_keeps_config self w :
  resource_config (release_ports self w) = resource_config self
  ∧ next_port (release_ports self w) = next_port self.
Proof. unfold release_ports. by destruct (allocated_ports self !! w). Qed.

Lemma calls_keep_config cs self :
  resource_config (do_calls self cs) = resource_config self
  ∧ next_port self ≤ next_port (do_calls self cs).
Proof.
  revert self. induction cs as [|c cs IH]; intros self; simpl; [split; [done|lia]|].
  destruct (IH (do_call self c)) as [Hrc Hle]. rewrite Hrc.
  destruct c as [w n|w]; simpl in *.
  - destruct (allocate_keeps_config self w n) as [Hrc' ?].
    split; [done|lia].
  - destruct (release_keeps_config self w) as [Hrc' Hn].
    rewrite Hn in Hle. done.
Qed.

(** X2. Whatever sequence of allocations and releases came before, a port
    handed out by a successful allocation lies at or above the cursor the
    configuration started with: releasing never brings a port back. *)
Theorem ports_never_reused (self : ParallelDebugConfig) (cs : list call)
    (w : string) (count : Z) (ports : list Z) (p : Z) :
  (allocate_ports (do_calls self cs) w count).1 = Ok ports →
  p ∈ ports →
  next_port self ≤ p.
Proof.
  intros Hok Hp.
  destruct (calls_keep_config cs self) as [_ Hmono].
  revert Hok. unfold allocate_ports.
  destruct (allocated_ports (do_calls self cs) !! w); [done|].
  set (limit := base_port _ + port_range _).
  pose proof (allocate_loop_ports (Z.to_nat count) limit (next_port (do_calls self cs)) [])
    as Hports.
  destruct (allocate_loop _ _ _ _) as [[ps|] next']; simpl in *; [|done].
  intros [= <-]. destruct (Hports ps p eq_refl Hp) as [Hnil|?]; [|lia].
  by apply elem_of_nil in Hnil.
Qed.

Lemma allocate_loop_none_cursor n limit next ports :
  (allocate_loop n limit next ports).1 = None →
  limit ≤ (allocate_loop n limit next ports).2.
Proof.
  revert next ports. induction n as [|n IH]; intros next ports; simpl; [done|].
  destruct (limit <=? next) eqn:Hlim; simpl.
  - intros _. by apply Z.leb_le.
  - apply IH.
Qed.

(** X3. Once an allocation has raised the exhaustion error, every later
    request for at least one port by a worker that holds none raises it
    again, whatever was allocated or released in between. *)
Theorem exhaustion_is_final (self : ParallelDebugConfig) (w : string) (count : Z)
    (cs : list call) (w' : string) (count' : Z) :
  (allocate_ports self w count).1 = Raise (RuntimeError "Port range exhausted") →
  0 < count' →
  allocated_ports (do_calls (allocate_ports self w count).2 cs) !! w' = None →
  (allocate_ports (do_calls (allocate_ports self w count).2 cs) w' count').1
  = Raise (RuntimeError "Port range exhausted").
Proof.
  intros Hraise Hpos Hfree.
  set (self1 := (allocate_ports self w count).2) in *.
  assert (Hfull : base_port (resource_config self1) + port_range (resource_config self1)
                  ≤ next_port self1).
  { subst self1. revert Hraise. unfold allocate_ports.
    destruct (allocated_ports self !! w); [done|].
    pose proof (allocate_loop_none_cursor (Z.to_nat count)
                  (base_port (resource_config self) + port_range (resource_config self))
                  (next_port self) []) as Hnone.
    destruct (allocate_loop _ _ _ _) as [[ps|] next']; simpl in *; [done|].
    intros _. by apply Hnone. }
  destruct (calls_keep_config cs self1) as [Hrc Hmono].
  unfold allocate_ports. rewrite Hfree, Hrc.
  pose proof (allocate_loop_exhausted (Z.to_nat count')
                (base_port (resource_config self1) + port_range (resource_config self1))
                (next_port (do_calls self1 cs)) []) as Hnone.
  destruct (allocate_loop _ _ _ _) as [[ps|] next']; simpl in *; [|done].
  discriminate Hnone. lia.
Qed.

Lemma ports_never_reused_witness : 3100 ≤ 3104.
Proof.
  apply (ports_never_reused (init 4)
           [Allocate "worker_0" 2; Allocate "worker_1" 2; Release "worker_0"]
           "worker_2" 3 [3104; 3105; 3106] 3104);
    [vm_compute; reflexivity|constructor].
Defined.

Lemma exhaustion_is_final_witness :
  (allocate_ports
     (do_calls (allocate_ports Examples.two_ports_taken "worker2" 2).2
               [Release "worker1"]) "worker1" 1).1
  = Raise (RuntimeError "Port range exhausted").
Proof.
  apply (exhaustion_is_final Examples.two_ports_taken "worker2" 2
           [Release "worker1"] "worker1" 1);
    [vm_compute; reflexivity|lia|vm_compute; reflexivity].
Defined.

(** X4. [release_ports] removes the entry of the worker and nothing else:
    the cursor and the entries of the other workers stay, a second release
    changes nothing, and releasing a worker that holds no ports leaves the
    configuration as it was. *)
Theorem release_ports_idempotent (self : ParallelDebugConfig) (w : string) :
  release_ports (release_ports self w) w = release_ports self w
  ∧ allocated_ports (release_ports self w) !! w = None
  ∧ next_port (release_ports self w) = next_port self
  ∧ (∀ w', w' ≠ w →
       allocated_ports (release_ports self w) !! w' = allocated_ports self !! w')
  ∧ (allocated_ports self !! w = None → release_ports self w = self).
Proof.
  destruct (release_ports_table self w) as [Htbl Hnext].
  assert (Hgone : allocated_ports (release_ports self w) !! w = None).
  { rewrite Htbl. apply lookup_delete_eq. }
  split.
  { unfold release_ports at 1. by rewrite Hgone. }
  split; [exact Hgone|]. split; [exact Hnext|]. split.
  - intros w' Hne. rewrite Htbl. by apply lookup_delete_ne.
  - intros Hnone. unfold release_ports. by rewrite Hnone.
Qed.

Lemma release_ports_idempotent_witness :
  release_ports (init 4) "worker_0" = init 4.
Proof.
  destruct (release_ports_idempotent (init 4) "worker_0") as (_ & _ & _ & _ & Hid).
  apply Hid. reflexivity.
Defined.

(** X5. [get_worker_env] raises [IndexError] exactly when the worker holds
    an empty port list.  Otherwise the environment carries the worker
    identifier, the scenario name and the parallel debug mode, whatever the
    scenario or the host set for these keys.  Under every other key a
    variable of the scenario wins, in particular under [APP_PORT] and under
    [API_PORT], over the ports and over the host.  Where the scenario sets
    none, [APP_PORT] is the first port and [API_PORT] the second, or the
    first plus one when only one port is held; a worker without ports keeps
    the two of the host; every remaining key keeps the value of the host. *)
Theorem worker_env_markers (self : ParallelDebugConfig)
    (environ : gmap string string) (w : string) (sc : TestScenario) :
  (get_worker_env self environ w sc = Raise (IndexError "list index out of range")
   ↔ allocated_ports self !! w = Some [])
  ∧ ∀ env, get_worker_env self environ w sc = Ok env →
      env !! "PARALLEL_WORKER_ID" = Some w
      ∧ env !! "PARALLEL_SCENARIO" = Some (name sc)
      ∧ env !! "DEBUG_MODE" = Some "parallel"
      ∧ (∀ k v, k ≠ "PARALLEL_WORKER_ID" → k ≠ "PARALLEL_SCENARIO" →
           k ≠ "DEBUG_MODE" →
           environment_vars sc !! k = Some v → env !! k = Some v)
      ∧ (∀ v, environment_vars sc !! "APP_PORT" = Some v → env !! "APP_PORT" = Some v)
      ∧ (∀ v, environment_vars sc !! "API_PORT" = Some v → env !! "API_PORT" = Some v)
      ∧ (∀ p0 rest, allocated_ports self !! w = Some (p0 :: rest) →
           (environment_vars sc !! "APP_PORT" = None →
            env !! "APP_PORT" = Some (str_of_Z p0))
           ∧ (environment_vars sc !! "API_PORT" = None →
              env !! "API_PORT" = Some (str_of_Z (default (p0 + 1) (head rest)))))
      ∧ (allocated_ports self !! w = None →
         (environment_vars sc !! "APP_PORT" = None →
          env !! "APP_PORT" = environ !! "APP_PORT")
         ∧ (environment_vars sc !! "API_PORT" = None →
            env !! "API_PORT" = environ !! "API_PORT"))
      ∧ (∀ k, k ≠ "PARALLEL_WORKER_ID" → k ≠ "PARALLEL_SCENARIO" →
           k ≠ "DEBUG_MODE" → k ≠ "APP_PORT" → k ≠ "API_PORT" →
           environment_vars sc !! k = None → env !! k = environ !! k).
Proof.
  unfold get_worker_env. split.
  - destruct (allocated_ports self !! w) as [[|p0 rest]|]; split; done.
  - intros env Henv.
    assert (Hshape : ∃ base,
              (match allocated_ports self !! w with
               | None => base = environ
               | Some [] => False
               | Some (p0 :: rest) =>
                   base = <["API_PORT" := str_of_Z (default (p0 + 1) (head rest))]>
                            (<["APP_PORT" := str_of_Z p0]> environ)
               end)
              ∧ env = <["DEBUG_MODE" := "parallel"]>
                        (<["PARALLEL_SCENARIO" := name sc]>
                           (<["PARALLEL_WORKER_ID" := w]>
                              (environment_vars sc ∪ base)))).
    { destruct (allocated_ports self !! w) as [[|p0 rest]|]; [done| |].
      - injection Henv as <-. eexists. split; [|reflexivity]. by destruct rest.
      - injection Henv as <-. eexists. split; [reflexivity|reflexivity]. }
    destruct Hshape as (base & Hbase & ->).
    assert (Hover : ∀ k v, k ≠ "PARALLEL_WORKER_ID" → k ≠ "PARALLEL_SCENARIO" →
              k ≠ "DEBUG_MODE" → environment_vars sc !! k = Some v →
              (<["DEBUG_MODE" := "parallel"]>
                 (<["PARALLEL_SCENARIO" := name sc]>
                    (<["PARALLEL_WORKER_ID" := w]>
                       (environment_vars sc ∪ base)))) !! k = Some v).
    { intros k v H1 H2 H3 Hv. rewrite !lookup_insert_ne by done.
      by apply lookup_union_Some_l. }
    split; [by rewrite lookup_insert_ne, lookup_insert_ne, lookup_insert_eq|].
    split; [by rewrite lookup_insert_ne, lookup_insert_eq|].
    split; [by rewrite lookup_insert_eq|].
    split; [exact Hover|].
    split; [intros v; by apply Hover|].
    split; [intros v; by apply Hover|].
    split; [|split].
    + intros p0 rest Hports. rewrite Hports in Hbase. subst base. split.
      * intros Hnone. rewrite !lookup_insert_ne by done.
        rewrite lookup_union_r by done.
        by rewrite lookup_insert_ne, lookup_insert_eq.
      * intros Hnone. rewrite !lookup_insert_ne by done.
        rewrite lookup_union_r by done. by rewrite lookup_insert_eq.
    + intros Hnone. rewrite Hnone in Hbase. subst base.
      split; intros Hsc; rewrite !lookup_insert_ne by done;
        by rewrite lookup_union_r.
    + intros k H1 H2 H3 H4 H5 Hnone. rewrite !lookup_insert_ne by done.
      rewrite lookup_union_r by done.
      destruct (allocated_ports self !! w) as [[|p0 rest]|]; [done| |by subst].
      subst base. by rewrite !lookup_insert_ne.
Qed.

Lemma worker_env_markers_witness :
  ∃ env,
    get_worker_env (allocate_ports (init 4) "worker_0" 1).2 ∅ "worker_0"
      (Examples.scenario_of "A" DATABASE "a") = Ok env
    ∧ env !! "APP_PORT" = Some "3100" ∧ env !! "API_PORT" = Some "3101".
Proof.
  destruct (worker_env_markers (allocate_ports (init 4) "worker_0" 1).2 ∅ "worker_0"
              (Examples.scenario_of "A" DATABASE "a")) as [_ Hall].
  destruct (get_worker_env (allocate_ports (init 4) "worker_0" 1).2 ∅ "worker_0"
              (Examples.scenario_of "A" DATABASE "a")) as [env|e] eqn:Henv;
    [|vm_compute in Henv; discriminate].
  exists env. split; [reflexivity|].
  destruct (Hall env eq_refl) as (_ & _ & _ & _ & _ & _ & Hports & _).
  destruct (Hports 3100 [] eq_refl) as [Happ Hapi].
  split; [apply Happ; reflexivity|apply Hapi; reflexivity].
Defined.

End PortAllocationMore.

(** ** The validation of the configuration *)

Section ValidationProps.
Import Config Validation.

Lemma count_notin x l : x ∉ l → count x l = 0%nat.
Proof.
  induction l as [|y l IH]; [done|]. intros [Hne Hl]%not_elem_of_cons.
  unfold count in *. cbn [List.filter]. destruct (String.eqb x y) eqn:E.
  - apply String.eqb_eq in E. done.
  - by apply IH.
Qed.

Lemma count_in x l : x ∈ l → (1 ≤ count x l)%nat.
Proof.
  induction l as [|y l IH]; [by intros ?%elem_of_nil|].
  unfold count in *. cbn [List.filter]. intros [->|Hl]%elem_of_cons.
  - rewrite String.eqb_refl. cbn [length]. lia.
  - destruct (String.eqb x y); cbn [length]; [lia|by apply IH].
Qed.

Lemma count_cons x y l :
  count x (y :: l) = ((if String.eqb x y then 1 else 0) + count x l)%nat.
Proof. unfold count. cbn [List.filter]. by destruct (String.eqb x y). Qed.

Lemma nodup_count l : NoDup l ↔ ∀ x, x ∈ l → count x l = 1%nat.
Proof.
  induction l as [|y l IH].
  - split; [by intros _ x ?%elem_of_nil|constructor].
  - rewrite NoDup_cons, IH. split.
    + intros [Hy Hl] x [->|Hx]%elem_of_cons.
      * rewrite count_cons, String.eqb_refl, count_notin by done. lia.
      * rewrite count_cons. destruct (String.eqb x y) eqn:E.
        -- apply String.eqb_eq in E. by subst.
        -- by rewrite Hl.
    + intros Hall. assert (Hy : y ∉ l).
      { intros Hy. specialize (Hall y (list_elem_of_here _ _)).
        rewrite count_cons, String.eqb_refl in Hall.
        apply count_in in Hy. lia. }
      split; [done|]. intros x Hx.
      specialize (Hall x (list_elem_of_further _ _ _ Hx)).
      rewrite count_cons in Hall. destruct (String.eqb x y) eqn:E; [|done].
      apply String.eqb_eq in E. by subst.
Qed.

Lemma filter_nil_iff {A} (p : A → bool) (l : list A) :
  List.filter p l = [] ↔ ∀ x, x ∈ l → p x = false.
Proof.
  induction l as [|y l IH]; cbn [List.filter].
  - split; [by intros _ x ?%elem_of_nil|done].
  - destruct (p y) eqn:Hy.
    + split; [done|]. intros Hall. specialize (Hall y (list_elem_of_here _ _)).
      congruence.
    + rewrite IH. split.
      * intros Hall x [->|Hx]%elem_of_cons; [done|by apply Hall].
      * intros Hall x Hx. by apply Hall, list_elem_of_further.
Qed.

Lemma duplicates_nil names : duplicates names = [] ↔ NoDup names.
Proof.
  unfold duplicates. rewrite filter_nil_iff, nodup_count. split.
  - intros Hall x Hx. specialize (Hall x Hx). apply Nat.ltb_ge in Hall.
    apply count_in in Hx. lia.
  - intros Hall x Hx. rewrite (Hall x Hx). done.
Qed.

(** X6. [validate_configuration] returns no warning exactly when twice the
    number of scenarios fits the port range, the memory reading is missing or
    zero or the workers need at most 80 percent of it, and no scenario name
    occurs twice. *)
Theorem validation_silent_iff (self : ParallelDebugConfig) (d : Deployment) :
  validate_configuration self d = []
  ↔ 2 * Z.of_nat (length (scenarios d)) ≤ port_range (resource_config self)
    ∧ match available_memory_mb d with
      | Some available =>
          available = 0
          ∨ 5 * (max_workers (resource_config self) * memory_limit_per_worker_mb d)
            ≤ 4 * available
      | None => True
      end
    ∧ NoDup (name <$> scenarios d).
Proof.
  unfold validate_configuration.
  rewrite app_nil, app_nil.
  assert (Hport : port_warnings self d = []
                  ↔ 2 * Z.of_nat (length (scenarios d))
                    ≤ port_range (resource_config self)).
  { unfold port_warnings. destruct (_ <? _) eqn:E.
    - apply Z.ltb_lt in E. split; [done|lia].
    - apply Z.ltb_ge in E. split; [lia|done]. }
  assert (Hmem : memory_warnings self d = []
                 ↔ match available_memory_mb d with
                   | Some available =>
                       available = 0
                       ∨ 5 * (max_workers (resource_config self)
                              * memory_limit_per_worker_mb d) ≤ 4 * available
                   | None => True
                   end).
  { unfold memory_warnings. destruct (available_memory_mb d) as [a|]; [|done].
    destruct (a =? 0) eqn:Ea; cbn [negb andb].
    - apply Z.eqb_eq in Ea. split; [by left|done].
    - apply Z.eqb_neq in Ea. destruct (_ <? _) eqn:E.
      + apply Z.ltb_lt in E. split; [done|]. intros [?|?]; [done|lia].
      + apply Z.ltb_ge in E. split; [by right|done]. }
  assert (Hdup : duplicate_warnings d = [] ↔ NoDup (name <$> scenarios d)).
  { unfold duplicate_warnings. rewrite <- duplicates_nil.
    by destruct (duplicates (name <$> scenarios d)). }
  by rewrite Hport, Hmem, Hdup.
Qed.

Lemma remaining_after self w count :
  allocated_ports self !! w = None → 0 ≤ count → count ≤ remaining self →
  let out := allocate_ports self w count in
  is_ok out.1 = true
  ∧ remaining out.2 = remaining self - count
  ∧ ∀ w', w' ≠ w → allocated_ports out.2 !! w' = allocated_ports self !! w'.
Proof.
  intros Hw H0 Hrem. cbv zeta. rewrite (allocate_ports_fits self w count Hw Hrem).
  cbn [fst snd is_ok]. split; [done|].
  unfold remaining in *. cbn [resource_config next_port allocated_ports].
  split; [lia|]. intros w' Hne. by rewrite lookup_insert_ne.
Qed.

Lemma allocate_each_ok self ws count :
  0 < count → NoDup ws → (∀ w, w ∈ ws → allocated_ports self !! w = None) →
  forallb is_ok (allocate_each self ws count) = true
  ↔ count * Z.of_nat (length ws) ≤ remaining self.
Proof.
  intros Hpos. revert self. induction ws as [|w ws IH]; intros self Hnd Hfree.
  - cbn. unfold remaining. split; [lia|done].
  - apply NoDup_cons in Hnd as [Hw Hnd].
    cbn [allocate_each forallb length].
    destruct (decide (count ≤ remaining self)) as [Hle|Hgt].
    + destruct (remaining_after self w count) as (Hok & Hrem & Hothers);
        [apply Hfree, list_elem_of_here|lia|done|].
      cbv zeta in Hok, Hrem, Hothers. rewrite Hok. cbn [andb].
      rewrite IH; [|done|].
      * rewrite Hrem. lia.
      * intros w' Hw'. rewrite Hothers; [by apply Hfree, list_elem_of_further|].
        by intros ->.
    + assert (Hfail : is_ok (allocate_ports self w count).1 = false).
      { unfold allocate_ports. rewrite (Hfree w (list_elem_of_here _ _)).
        pose proof (allocate_loop_exhausted (Z.to_nat count)
                      (base_port (resource_config self)
                       + port_range (resource_config self))
                      (next_port self) []) as Hex.
        unfold remaining in Hgt.
        destruct (allocate_loop _ _ _ _) as [[ports|] next]; [|done].
        cbn [fst] in Hex. discriminate Hex. lia. }
      rewrite Hfail. cbn [andb]. split; [done|]. nia.
Qed.

(** X7. For a fresh configuration with a range that is not negative and as
    many distinct worker identifiers as there are scenarios, the port check
    of the validation is silent exactly when every one of these workers gets
    its two ports. *)
Theorem port_warning_exact (self : ParallelDebugConfig) (d : Deployment)
    (ws : list string) :
  allocated_ports self = ∅ →
  next_port self = base_port (resource_config self) →
  0 ≤ port_range (resource_config self) →
  NoDup ws → length ws = length (scenarios d) →
  port_warnings self d = [] ↔ forallb is_ok (allocate_each self ws 2) = true.
Proof.
  intros Hempty Hnext Hrange Hnd Hlen.
  rewrite allocate_each_ok; [|lia|done|by intros w _; rewrite Hempty].
  unfold remaining. rewrite Hnext, Hlen. unfold port_warnings.
  destruct (_ <? _) eqn:E.
  - apply Z.ltb_lt in E. split; [done|lia].
  - apply Z.ltb_ge in E. split; [lia|done].
Qed.

Lemma port_warning_exact_witness :
  port_warnings (init 4)
    (mkDeployment Examples.three_scenarios 1024 None (λ _, "")) = []
  ∧ forallb is_ok (allocate_each (init 4) ["worker_0"; "worker_1"; "worker_2"] 2)
    = true.
Proof.
  assert (Hnd : NoDup ["worker_0"; "worker_1"; "worker_2"]).
  { apply NoDup_ListNoDup. repeat constructor; cbn; intuition discriminate. }
  pose proof (port_warning_exact (init 4)
                (mkDeployment Examples.three_scenarios 1024 None (λ _, ""))
                ["worker_0"; "worker_1"; "worker_2"]
                eq_refl eq_refl ltac:(cbn; lia) Hnd eq_refl) as [H1 H2].
  split; [reflexivity|]. apply H1. reflexivity.
Defined.

End ValidationProps.

(** ** The worker: one run from start to result *)

Section WorkerMore.
Import Worker WorkerSummary.

Ltac wred :=
  cbv beta iota delta
    [bind ret raise of_result get modify try_except finally fst snd set_result
     set_state _send_status spawn kill create_checkpoint add_finding record_failed_attempt
     spawned kills state scenario env result_ status_queue result_queue
     worker_id scenario_name success duration error traceback logs findings
     session_id checkpoints st_session_id st_checkpoints st_findings
     st_failed_attempts fmap option_fmap option_map complete].

Ltac walk_step :=
  match goal with
  | |- context [session_start ?w] => destruct (session_start w) eqn:?
  | |- context [match test_type ?s with _ => _ end] => destruct (test_type s) eqn:?
  | |- context [negb (Py.endswith ?a ?b || ?c)] =>
      destruct (Py.endswith a b) eqn:?; cbn [orb negb]
  | |- context [if negb (Py.endswith ?a ?b) then _ else _] =>
      destruct (Py.endswith a b) eqn:?; cbn [negb]
  | |- context [_find_test_script ?w ?tf] =>
      destruct (_find_test_script w tf) as [[?|]|?] eqn:?
  | |- context [truthy None] => change (truthy None) with false; cbn [negb]
  | |- context [negb (truthy ?x)] => destruct (truthy x) eqn:?; cbn [negb]
  | |- context [truthy ?x] => destruct (truthy x) eqn:?
  | |- context [if Py.endswith ?a ?b then _ else _] => destruct (Py.endswith a b) eqn:?
  | |- context [match child ?w ?c ?e with _ => _ end] => destruct (child w c e) eqn:?
  | |- context [decide (?a = 0)] => destruct (decide (a = 0))
  end; wred.

Ltac walk :=
  unfold run, attempt, on_failure, dispatch, _cleanup,
    _send_final_result, _initialize_session, new_worker, new_result;
  wred;
  repeat (first
    [ walk_step
    | progress (unfold _run_ui_test, _run_api_test, _run_database_test,
                  _run_integration_test, _run_performance_test,
                  _execute_test_script, run_child; wred) ]).

Lemma captured_logs_eq (stdout stderr : string) :
  (if decide (stderr = "")
   then if decide (stdout = "") then [] else [] ++ Py.splitlines stdout
   else (if decide (stdout = "") then [] else [] ++ Py.splitlines stdout)
        ++ ((λ line : string, "STDERR: " +:+ line) <$> Py.splitlines stderr))
  = captured_logs stdout stderr.
Proof.
  unfold captured_logs.
  destruct (decide (stderr = "")), (decide (stdout = "")); simpl;
    by rewrite ?app_nil_r.
Qed.

Ltac use_test_type :=
  try match goal with H : test_type _ = _ |- _ => rewrite H end.

Ltac status_split :=
  lazymatch goal with
  | |- ∃ before, [_; _] = _ ∧ _ => exists []
  | |- ∃ before, [?a; _; _] = _ ∧ _ => exists [a]
  | |- ∃ before, [?a; ?b; _; _] = _ ∧ _ => exists [a; b]
  | |- ∃ before, [?a; ?b; ?c; _; _] = _ ∧ _ => exists [a; b; c]
  end;
  split; [reflexivity|]; by eexists.

Ltac summary_leaf :=
  unfold run_summary; eexists; cbn [app];
  split; [reflexivity|];
  unfold verdict_event; wred; cbn [app list_fmap];
  split; [reflexivity|]; split; [reflexivity|]; split; [reflexivity|];
  split;
  [ first
      [ split; [reflexivity|]; split; [reflexivity|]; use_test_type; reflexivity
      | split; [by eexists|]; split; [by eexists|reflexivity] ]
  | split;
    [ first
        [ split; reflexivity
        | match goal with H : child _ _ _ = _ |- _ => rewrite H end;
          first
            [ split; [reflexivity|]; split; reflexivity
            | split; [reflexivity|]; split; [apply captured_logs_eq|];
              split; [done|done] ] ]
    | status_split ] ].

Lemma run_summarised (world : World) (id : string) (sc : TestScenario)
    (env0 : gmap string string) :
  run_summary world id sc (run world (new_worker id sc env0)).
Proof. walk; summary_leaf. Qed.


(** X8. A run puts exactly one result on the result queue, under the
    identifier of the worker and the name of its scenario and with a
    duration; it creates at most one child process and kills no more
    children than it created. *)
Theorem worker_reports_once (world : World) (id : string) (sc : TestScenario)
    (env0 : gmap string string) :
  ∃ r, result_queue (run world (new_worker id sc env0)) = [r]
     ∧ worker_id r = id ∧ scenario_name r = name sc
     ∧ duration r = Some (elapsed world)
     ∧ (length (spawned (run world (new_worker id sc env0))) ≤ 1)%nat
     ∧ (kills (run world (new_worker id sc env0))
        ≤ length (spawned (run world (new_worker id sc env0))))%nat.
Proof.
  destruct (run_summarised world id sc env0)
    as (r & Hq & Hid & Hname & Hdur & _ & Hchild & _).
  exists r. split; [exact Hq|]. split; [exact Hid|]. split; [exact Hname|].
  split; [exact Hdur|].
  destruct (spawned (run world (new_worker id sc env0))) as [|[cmd cenv] [|more rest]];
    [| |done].
  - destruct Hchild as [-> _]. simpl. lia.
  - destruct (child world cmd cenv); [| |done].
    + destruct Hchild as [-> _]. simpl. lia.
    + destruct Hchild as [-> _]. simpl. lia.
Qed.

(** X9. The status events of a run end with the verdict ([completed] or
    [failed], as the result says) followed by [cleanup]; what precedes them
    is a prefix of [starting], [running], [executing]. *)
Theorem worker_status_sequence (world : World) (id : string) (sc : TestScenario)
    (env0 : gmap string string) :
  ∃ r before,
    final_result world id sc env0 = Some r
    ∧ status_queue (run world (new_worker id sc env0))
      = before ++ [verdict_event sc r; ("cleanup", "Cleaning up resources")]
    ∧ before.*1 `prefix_of` ["starting"; "running"; "executing"].
Proof.
  destruct (run_summarised world id sc env0)
    as (r & Hq & _ & _ & _ & _ & _ & before & Hst & Hpre).
  exists r, before. unfold final_result. rewrite Hq. done.
Qed.

(** X10. The result of a run is successful exactly when it carries no
    error, and exactly when it carries no traceback; a successful result
    carries the checkpoint of its test type and a failed one none. *)
Theorem worker_verdict_consistent (world : World) (id : string) (sc : TestScenario)
    (env0 : gmap string string) :
  ∃ r, final_result world id sc env0 = Some r
     ∧ (success r = true ↔ error r = None)
     ∧ (success r = true ↔ traceback r = None)
     ∧ checkpoints r = if success r then checkpoint_of (test_type sc) else [].
Proof.
  destruct (run_summarised world id sc env0)
    as (r & Hq & _ & _ & _ & Hv & _).
  exists r. unfold final_result. rewrite Hq. split; [done|].
  destruct (success r).
  - destruct Hv as (-> & -> & ->). done.
  - destruct Hv as ([e ->] & [t ->] & ->). done.
Qed.

Lemma worker_verdict_consistent_witness :
  ∃ r, final_result Examples.bare_world "w"
         (Examples.scenario_of "s" DATABASE "q") ∅ = Some r
     ∧ error r = None ∧ checkpoints r = ["database_test_complete"].
Proof.
  destruct (worker_verdict_consistent Examples.bare_world "w"
              (Examples.scenario_of "s" DATABASE "q") ∅) as (r & Hr & He & _ & Hc).
  exists r. split; [exact Hr|].
  assert (Hs : success r = true).
  { revert Hr. vm_compute. intros [= <-]. reflexivity. }
  split; [by apply He|]. rewrite Hc, Hs. reflexivity.
Defined.

(** X11. When the run created a child, the child decides the result: a
    child that exited gives the captured output lines as logs and success
    exactly for return code 0, with no kill; a child still running at the
    timeout gives a failed result without logs and is killed once.  A run
    without a child has no logs. *)
Theorem child_decides_result (world : World) (id : string) (sc : TestScenario)
    (env0 : gmap string string) :
  ∃ r, final_result world id sc env0 = Some r
     ∧ (spawned (run world (new_worker id sc env0)) = [] → logs r = [])
     ∧ ∀ cmd cenv,
         (cmd, cenv) ∈ spawned (run world (new_worker id sc env0)) →
         match child world cmd cenv with
         | Exited returncode stdout stderr =>
             logs r = captured_logs stdout stderr
             ∧ (success r = true ↔ returncode = 0)
             ∧ kills (run world (new_worker id sc env0)) = 0%nat
         | StillRunning =>
             logs r = [] ∧ success r = false
             ∧ kills (run world (new_worker id sc env0)) = 1%nat
         | NotCreated _ => False
         end.
Proof.
  destruct (run_summarised world id sc env0)
    as (r & Hq & _ & _ & _ & _ & Hchild & _).
  exists r. unfold final_result. rewrite Hq. split; [done|].
  destruct (spawned (run world (new_worker id sc env0))) as [|[c e] [|more rest]];
    [| |done].
  - split; [by destruct Hchild|]. intros cmd cenv Hin. by apply elem_of_nil in Hin.
  - split; [done|]. intros cmd cenv Hin.
    apply list_elem_of_singleton in Hin. injection Hin as -> ->.
    destruct (child world c e); [| |done].
    + destruct Hchild as (? & ? & ?). done.
    + destruct Hchild as (? & ? & ?). done.
Qed.

Lemma child_decides_result_witness :
  ∃ r, final_result Examples.failing_world "w"
         (Examples.scenario_of "s" UI_FLOW "slow.py") ∅ = Some r
     ∧ logs r = ["STDERR: boom"] ∧ success r = false.
Proof.
  destruct (child_decides_result Examples.failing_world "w"
              (Examples.scenario_of "s" UI_FLOW "slow.py") ∅) as (r & Hr & _ & Hall).
  exists r. split; [exact Hr|].
  assert (Hin : (["python3"; "slow.py"],
                 <["BASE_URL" := "http://localhost:3000"]>
                   (<["DEBUG_WORKER_ID" := "w"]>
                      (<["DEBUG_SESSION_ID" := "session-1"]> (∅ : gmap string string))))
                ∈ spawned (run Examples.failing_world
                             (new_worker "w" (Examples.scenario_of "s" UI_FLOW "slow.py") ∅))).
  { apply list_elem_of_singleton. vm_compute. reflexivity. }
  destruct (Hall _ _ Hin) as (Hlogs & Hs & _).
  split; [exact Hlogs|]. destruct (success r); [|reflexivity].
  destruct Hs as [Hs _]. specialize (Hs eq_refl). discriminate Hs.
Defined.

(** *** Script resolution *)

Lemma endswith_spec s p : Py.endswith s p = true ↔ ∃ pre, s = pre +:+ p.
Proof.
  split.
  - induction s as [|c s IH]; cbn [Py.endswith].
    + rewrite orb_false_r. intros ->%String.eqb_eq. by exists "".
    + intros [->%String.eqb_eq|H]%orb_true_iff; [by exists ""|].
      destruct (IH H) as [pre ->]. by exists (String c pre).
  - intros [pre ->]. induction pre as [|c pre IH].
    + change ("" +:+ p) with p. destruct p; cbn [Py.endswith];
        by rewrite String.eqb_refl.
    + change (String c pre +:+ p) with (String c (pre +:+ p)).
      cbn [Py.endswith]. rewrite IH. apply orb_true_r.
Qed.

Lemma from_last_dot_suffix s t : from_last_dot s = Some t → ∃ pre, s = pre +:+ t.
Proof.
  revert t. induction s as [|c s IH]; intros t; cbn [from_last_dot]; [done|].
  destruct (from_last_dot s) as [t'|].
  - intros [= <-]. destruct (IH t' eq_refl) as [pre ->]. by exists (String c pre).
  - destruct (Ascii.eqb c "."); [|done]. intros [= <-]. by exists "".
Qed.

Lemma basename_suffix s cur : ∃ pre, cur +:+ s = pre +:+ basename_go s cur.
Proof.
  revert cur. induction s as [|c s IH]; intros cur; cbn [basename_go].
  - exists "". by rewrite append_nil_r.
  - destruct (Ascii.eqb c "/").
    + destruct (IH "") as [pre Hpre]. change ("" +:+ s) with s in Hpre.
      exists (cur +:+ String c pre).
      by rewrite append_assoc, append_cons, <- Hpre.
    + destruct (IH (cur +:+ String c "")) as [pre Hpre].
      exists pre. rewrite <- Hpre. rewrite append_assoc. by rewrite append_cons.
Qed.

Lemma path_suffix_suffix p t : path_suffix p = t → t ≠ "" → Py.endswith p t = true.
Proof.
  unfold path_suffix. intros Ht Hne. apply endswith_spec.
  destruct (basename_suffix p "") as [pre Hpre]. change ("" +:+ p) with p in Hpre.
  destruct (basename_go p "") as [|c rest]; [by subst|].
  destruct (from_last_dot rest) as [t'|] eqn:Hdot; [|by subst].
  destruct (decide (t' = ".")); [by subst|]. subst t'.
  destruct (from_last_dot_suffix rest t Hdot) as [pre' ->].
  exists (pre +:+ String c pre'). rewrite Hpre. by rewrite append_assoc.
Qed.

(** **** Paths as [pathlib] joins them *)

(** A suffix that holds no slash and is more than one character: it stays
    whole when a path is cut into components. *)
Lemma script_ext_cases ext : ext ∈ script_exts → ext = ".py" ∨ ext = ".js".
Proof.
  intros Hin. apply elem_of_cons in Hin as [->|Hin]; [by left|].
  apply list_elem_of_singleton in Hin. by right.
Qed.

Lemma script_ext_split ext cur :
  ext ∈ script_exts → split_sep ext cur = [cur +:+ ext].
Proof.
  intros [-> | ->]%script_ext_cases; cbn [split_sep Ascii.eqb Bool.eqb];
    by rewrite !append_assoc.
Qed.

Lemma script_ext_lstrip ext : ext ∈ script_exts → lstrip_sep ext = ext.
Proof. by intros [-> | ->]%script_ext_cases. Qed.

Lemma script_ext_kept ext lst : ext ∈ script_exts → kept (lst +:+ ext) = true.
Proof.
  intros Hext.
  assert (Hlen : ∃ c d r, lst +:+ ext = String c (String d r)).
  { destruct lst as [|c [|d lst]]; rewrite ?append_cons, ?append_nil_l.
    - destruct (script_ext_cases ext Hext) as [-> | ->]; by eexists _, _, _.
    - destruct (script_ext_cases ext Hext) as [-> | ->]; by eexists _, _, _.
    - by eexists _, _, _. }
  destruct Hlen as (c & d & r & ->). unfold kept. cbn [String.eqb].
  by destruct (Ascii.eqb c ".").
Qed.

Lemma split_sep_ext s ext cur :
  ext ∈ script_exts →
  ∃ init lst, split_sep s cur = init ++ [lst]
            ∧ split_sep (s +:+ ext) cur = init ++ [lst +:+ ext].
Proof.
  intros Hext. revert cur. induction s as [|c s IH]; intros cur.
  - exists [], cur. by rewrite append_nil_l, (script_ext_split ext cur Hext).
  - rewrite append_cons. cbn [split_sep]. destruct (Ascii.eqb c "/").
    + destruct (IH "") as (init & lst & H1 & H2).
      exists (cur :: init), lst. by rewrite H1, H2.
    + apply IH.
Qed.

Lemma lstrip_sep_ext t ext :
  ext ∈ script_exts → ∃ t', lstrip_sep (t +:+ ext) = t' +:+ ext.
Proof.
  intros Hext. induction t as [|c t IH].
  - exists "". by rewrite !append_nil_l, script_ext_lstrip.
  - rewrite append_cons. cbn [lstrip_sep]. destruct (Ascii.eqb c "/"); [done|].
    exists (String c t). by rewrite append_cons.
Qed.

Lemma join_sep_last parts y : ∃ pre, join_sep (parts ++ [y]) = pre +:+ y.
Proof.
  induction parts as [|x parts [pre IH]].
  - by exists "".
  - exists (x +:+ "/" +:+ pre). cbn [app join_sep].
    destruct (parts ++ [y]) as [|z rest] eqn:Hrest.
    { by destruct parts. }
    by rewrite IH, !append_assoc.
Qed.

(** The components of a name that ends in a script suffix end with a
    component that ends in it. *)
Lemma parse_parts_ext tf ext :
  ext ∈ script_exts →
  ∃ root init lst, parse_parts (tf +:+ ext) = (root, init ++ [lst +:+ ext]).
Proof.
  intros Hext. unfold parse_parts, splitroot.
  assert (Hrel : ∀ rel, ∃ init lst,
            List.filter kept (split_sep (rel +:+ ext) "") = init ++ [lst +:+ ext]).
  { intros rel. destruct (split_sep_ext rel ext "" Hext) as (init & lst & _ & ->).
    exists (List.filter kept init), lst.
    rewrite List.filter_app. cbn [List.filter]. by rewrite script_ext_kept. }
  destruct (Py.startswith (tf +:+ ext) "/").
  - destruct (lstrip_sep_ext tf ext Hext) as [t' ->].
    destruct (Hrel t') as (init & lst & Hf).
    destruct (_ =? 2)%nat; cbv beta iota; rewrite Hf; by eexists _, _, _.
  - destruct (Hrel tf) as (init & lst & Hf). cbv beta iota. rewrite Hf.
    by eexists _, _, _.
Qed.

(** [str(base / f"{name}{ext}")] ends in the suffix. *)
Lemma path_join_ext base tf ext :
  ext ∈ script_exts → Py.endswith (path_join base (tf +:+ ext)) ext = true.
Proof.
  intros Hin. unfold path_join.
  destruct (parse_parts base) as [root_a parts_a].
  destruct (parse_parts_ext tf ext Hin) as (root_b & init & lst & ->).
  assert (Hstr : ∀ root parts, ∃ pre,
            path_str (root, parts ++ [lst +:+ ext]) = pre +:+ ext).
  { intros root parts. unfold path_str.
    destruct (join_sep_last parts (lst +:+ ext)) as [pre Hpre].
    destruct (String.eqb root "").
    - destruct (parts ++ [lst +:+ ext]) as [|z rest] eqn:Hrest.
      { by destruct parts. }
      exists (pre +:+ lst). by rewrite Hpre, append_assoc.
    - exists (root +:+ pre +:+ lst). by rewrite Hpre, !append_assoc. }
  apply endswith_spec. destruct (String.eqb root_b "").
  - rewrite app_assoc. apply Hstr.
  - apply Hstr.
Qed.

(** An absolute name replaces the root it is joined to. *)
Lemma path_join_absolute base b :
  Py.startswith b "/" = true → path_join base b = path_join "" b.
Proof.
  intros Habs. unfold path_join.
  destruct (parse_parts base) as [root_a parts_a].
  destruct (parse_parts "") as [root_0 parts_0].
  unfold parse_parts, splitroot. rewrite Habs.
  by destruct (_ =? 2)%nat.
Qed.

Lemma exact_file_spec world base tf exts p :
  exact_file world base tf exts = Ok (Some p) →
  ∃ ext, ext ∈ exts ∧ p = path_join base (tf +:+ ext)
         ∧ exists_ world p = Ok true.
Proof.
  induction exts as [|ext exts IH]; cbn [exact_file]; [done|].
  destruct (exists_ world (path_join base (tf +:+ ext))) as [[|]|e] eqn:Hex;
    [| |done].
  - intros [= <-]. exists ext. split; [by left|done].
  - intros Hrest. destruct (IH Hrest) as (ext' & Hin & Hp & Hex').
    exists ext'. split; [by right|done].
Qed.

Lemma exists_raises world path e :
  exists_ world path = Raise e → ∃ msg, e = OSError msg.
Proof.
  unfold exists_. destruct (path_exists world path) as [| |msg]; [done|done|].
  intros [= <-]. by exists msg.
Qed.

Lemma exact_file_raises world base tf exts e :
  exact_file world base tf exts = Raise e → ∃ msg, e = OSError msg.
Proof.
  induction exts as [|ext exts IH]; cbn [exact_file]; [done|].
  destruct (exists_ world (path_join base (tf +:+ ext))) as [[|]|e'] eqn:Hex;
    [done|exact IH|].
  intros [= <-]. by eapply exists_raises.
Qed.

Lemma find_under_launchable world tf base p :
  find_under world tf base = Ok (Some p) →
  (Py.endswith p ".py" = true ∨ Py.endswith p ".js" = true)
  ∧ exists_ world base = Ok true
  ∧ ((∃ ext, ext ∈ script_exts ∧ p = path_join base (tf +:+ ext)
             ∧ exists_ world p = Ok true)
     ∨ (Py.startswith (tf +:+ ".*") "/" = false
        ∧ ∃ files, rglob world base (tf +:+ ".*") = Files files
                    ∧ p ∈ files ∧ path_suffix p ∈ script_exts)).
Proof.
  unfold find_under. destruct (exists_ world base) as [[|]|e]; [|done|done].
  destruct (exact_file world base tf script_exts) as [[q|]|e] eqn:Hexact;
    [| |done].
  - intros [= <-].
    destruct (exact_file_spec world base tf script_exts q Hexact)
      as (ext & Hin & Hq & Hex).
    pose proof (path_join_ext base tf ext Hin) as Hends. rewrite <- Hq in Hends.
    split.
    + destruct (script_ext_cases ext Hin) as [-> | ->]; [by left|by right].
    + split; [done|]. left. by exists ext.
  - unfold rglob_files. destruct (Py.startswith (tf +:+ ".*") "/"); [done|].
    destruct (rglob world base (tf +:+ ".*")) as [files| |msg]; [|done|done].
    intros [= Hfind]. apply find_some in Hfind as [Hin Hsuf].
    apply bool_decide_eq_true in Hsuf. split.
    + destruct (script_ext_cases _ Hsuf) as [Hs|Hs];
        [left|right]; by apply path_suffix_suffix.
    + split; [done|]. right. split; [done|]. exists files.
      split; [done|]. split; [by apply list_elem_of_In|done].
Qed.

Lemma find_test_script_spec (world : World) (tf p : string) :
  _find_test_script world tf = Ok (Some p) →
  (Py.endswith p ".py" = true ∨ Py.endswith p ".js" = true)
  ∧ ∃ base, base ∈ search_paths world
      ∧ exists_ world base = Ok true
      ∧ ((∃ ext, ext ∈ script_exts ∧ p = path_join base (tf +:+ ext)
                 ∧ exists_ world p = Ok true)
         ∨ (Py.startswith (tf +:+ ".*") "/" = false
            ∧ ∃ files, rglob world base (tf +:+ ".*") = Files files
                        ∧ p ∈ files ∧ path_suffix p ∈ script_exts)).
Proof.
  unfold _find_test_script.
  induction (search_paths world) as [|base bases IH]; cbn [first_found]; [done|].
  destruct (find_under world tf base) as [[q|]|e] eqn:Hq; [| |done].
  - intros [= <-]. destruct (find_under_launchable world tf base q Hq) as (He & Hb & Hp).
    split; [exact He|]. exists base. split; [by left|done].
  - intros Hrest. destruct (IH Hrest) as (He & b & Hin & Hb).
    split; [exact He|]. exists b. split; [by right|done].
Qed.

(** The exceptions of the search are those of [exists] and of [rglob]. *)
Lemma find_test_script_raises (world : World) (tf : string) (e : exn) :
  _find_test_script world tf = Raise e →
  e = NotImplementedError "Non-relative patterns are unsupported"
  ∨ e = ValueError "Invalid pattern: '**' can only be an entire path component"
  ∨ ∃ msg, e = OSError msg.
Proof.
  unfold _find_test_script.
  induction (search_paths world) as [|base bases IH]; cbn [first_found]; [done|].
  destruct (find_under world tf base) as [[q|]|e'] eqn:Hq; [done|exact IH|].
  intros [= <-]. revert Hq. unfold find_under, rglob_files.
  destruct (exists_ world base) as [[|]|e1] eqn:Hbase; [|done|].
  - destruct (exact_file world base tf script_exts) as [[q|]|e2] eqn:Hexact;
      [done| |].
    + destruct (Py.startswith (tf +:+ ".*") "/"); [intros [= <-]; by left|].
      destruct (rglob world base (tf +:+ ".*")) as [files| |msg]; [done| |].
      * intros [= <-]. by right; left.
      * intros [= <-]. right; right. by exists msg.
    + intros [= <-]. right; right. by eapply exact_file_raises.
  - intros [= <-]. right; right. by eapply exists_raises.
Qed.

(** X12. A path returned by [_find_test_script] ends in [.py] or [.js].  It
    is the join, as [pathlib] forms it, of a search root that exists with the
    test function and one of the two suffixes, a path that exists; or it is a
    hit with one of the two suffixes of the recursive search under a root
    that exists, made with a pattern that is relative.  A test function that
    is an absolute path replaces the root it is joined to. *)
Theorem find_test_script_launchable (world : World) (tf p : string) :
  _find_test_script world tf = Ok (Some p) →
  (Py.endswith p ".py" = true ∨ Py.endswith p ".js" = true)
  ∧ (∃ base, base ∈ search_paths world
      ∧ exists_ world base = Ok true
      ∧ ((∃ ext, ext ∈ script_exts ∧ p = path_join base (tf +:+ ext)
                 ∧ exists_ world p = Ok true)
         ∨ (Py.startswith (tf +:+ ".*") "/" = false
            ∧ ∃ files, rglob world base (tf +:+ ".*") = Files files
                        ∧ p ∈ files ∧ path_suffix p ∈ script_exts)))
  ∧ (∀ base ext, Py.startswith (tf +:+ ext) "/" = true →
       path_join base (tf +:+ ext) = path_join "" (tf +:+ ext)).
Proof.
  intros Hfind. destruct (find_test_script_spec world tf p Hfind) as [He Hb].
  split; [exact He|]. split; [exact Hb|].
  intros base ext. apply path_join_absolute.
Qed.

Lemma find_test_script_launchable_witness :
  _find_test_script Hosts.scripted_world "/tmp/login" = Ok (Some "/tmp/login.py")
  ∧ Py.endswith "/tmp/login.py" ".py" = true.
Proof.
  assert (H : _find_test_script Hosts.scripted_world "/tmp/login"
              = Ok (Some "/tmp/login.py")) by reflexivity.
  split; [exact H|].
  destruct (find_test_script_launchable Hosts.scripted_world "/tmp/login" _ H)
    as [[Hpy|Hjs] _]; [exact Hpy|].
  vm_compute in Hjs. discriminate Hjs.
Defined.

Lemma found_launchable world tf p :
  _find_test_script world tf = Ok (Some p) →
  Py.endswith p ".py" = false → Py.endswith p ".js" = false → False.
Proof.
  intros Hp Hpy Hjs.
  destruct (find_test_script_spec world tf p Hp) as [[He|He] _]; congruence.
Qed.

Ltac walk_attempt Hs :=
  unfold attempt, dispatch, _initialize_session, new_worker, new_result;
  wred; rewrite Hs; wred;
  repeat (first
    [ walk_step
    | progress (unfold _run_ui_test, _run_api_test, _run_database_test,
                  _run_integration_test, _run_performance_test,
                  _execute_test_script, run_child; wred) ]).

(** X13. Once the session is initialised, the body of [run] never fails
    with the unsupported-script-type error of [_execute_test_script]: every
    script that reaches it ends in [.py] or [.js]. *)
Theorem unsupported_script_unreachable (world : World) (id : string)
    (sc : TestScenario) (env0 : gmap string string) (sid s : string) :
  session_start world = Ok sid →
  (attempt world (new_worker id sc env0)).1
  ≠ Raise (ValueError ("Unsupported script type: " +:+ s)).
Proof.
  intros Hs. walk_attempt Hs.
  all: try discriminate.
  all: intros Heq; simpl in *.
  all: try congruence.
  all: try (by eapply found_launchable).
  all: lazymatch goal with
       | H : _find_test_script _ _ = Raise _ |- _ =>
           apply find_test_script_raises in H as [->|[->|[msg ->]]]
       end; try discriminate Heq.
  all: injection Heq as Hmsg; vm_compute in Hmsg; discriminate Hmsg.
Qed.

Lemma unsupported_script_unreachable_witness :
  (attempt Examples.bare_world
     (new_worker "w" (Examples.scenario_of "s" UI_FLOW "x.txt") ∅)).1
  ≠ Raise (ValueError "Unsupported script type: x.txt").
Proof.
  apply (unsupported_script_unreachable Examples.bare_world "w"
           (Examples.scenario_of "s" UI_FLOW "x.txt") ∅ "session-1" "x.txt").
  reflexivity.
Defined.
End WorkerMore.

(** ** The orchestrator: scheduling, collection and shutdown *)

Section OrchestratorMore.
Import Orchestrator Debugger.

Lemma allocate_rc cfg w n :
  Config.resource_config (Config.allocate_ports cfg w n).2 = Config.resource_config cfg.
Proof.
  unfold Config.allocate_ports. destruct (Config.allocated_ports cfg !! w); [done|].
  by destruct (Config.allocate_loop _ _ _ _) as [[?|] ?].
Qed.

Lemma release_rc cfg w :
  Config.resource_config (Config.release_ports cfg w) = Config.resource_config cfg.
Proof. unfold Config.release_ports. by destruct (Config.allocated_ports cfg !! w). Qed.

Lemma start_worker_rc environ self sc :
  Config.resource_config (config (_start_worker environ self sc).2)
  = Config.resource_config (config self).
Proof.
  unfold _start_worker.
  pose proof (allocate_rc (config self) (next_worker_id self) 2) as Hrc.
  destruct (Config.allocate_ports _ _ _) as [[ports|e] cfg]; simpl in *.
  - destruct (Config.get_worker_env _ _ _ _); simpl; [done|].
    by rewrite release_rc.
  - by rewrite release_rc.
Qed.

Lemma size_insert_le {A} (m : gmap string A) k v :
  (size (<[k := v]> m) ≤ S (size m))%nat.
Proof.
  destruct (m !! k) eqn:Hk.
  - rewrite map_size_insert_Some by eauto. lia.
  - rewrite map_size_insert_None by done. lia.
Qed.

Lemma size_delete_le {A} (m : gmap string A) k : (size (delete k m) ≤ size m)%nat.
Proof.
  destruct (m !! k) eqn:Hk.
  - rewrite map_size_delete_Some by eauto. lia.
  - by rewrite delete_id.
Qed.

Lemma start_workers_bound environ queue self active :
  let out := start_workers environ self queue active in
  Config.resource_config (config out.1.1) = Config.resource_config (config self)
  ∧ Z.of_nat (size out.2)
    ≤ Z.max (Z.of_nat (size active)) (max_workers (Config.resource_config (config self)))
  ∧ out.1.2 `suffix_of` queue.
Proof.
  revert self active. induction queue as [|sc rest IH]; intros self active; simpl.
  { split; [done|]. split; [lia|done]. }
  destruct (Z.of_nat (size active) <? max_workers (Config.resource_config (config self)))
    eqn:Hlt; simpl; [|split; [done|]; split; [lia|done]].
  apply Z.ltb_lt in Hlt.
  pose proof (start_worker_rc environ self sc) as Hrc.
  destruct (_start_worker environ self sc) as [[worker_id|] self1]; simpl in Hrc.
  - destruct (IH self1 (<[worker_id := sc]> active)) as (Hrc1 & Hsize & Hsuf).
    rewrite Hrc in Hrc1, Hsize. split; [done|]. split.
    + pose proof (size_insert_le active worker_id sc). lia.
    + by apply suffix_cons_r.
  - destruct (IH self1 active) as (Hrc1 & Hsize & Hsuf).
    rewrite Hrc in Hrc1, Hsize. split; [done|]. split; [lia|].
    by apply suffix_cons_r.
Qed.

Lemma clean_up_bound ids st :
  let out := fold_left clean_up ids st in
  Config.resource_config (config out.1) = Config.resource_config (config st.1)
  ∧ (size out.2 ≤ size st.2)%nat.
Proof.
  revert st. induction ids as [|worker_id ids IH]; intros [self active]; simpl;
    [split; [done|lia]|].
  destruct (IH (clean_up (self, active) worker_id)) as [Hrc Hsize].
  simpl in *. rewrite Hrc, release_rc. split; [done|].
  pose proof (size_delete_le active worker_id). lia.
Qed.

Lemma execute_loop_bound environ polls self queue active :
  let out := execute_loop environ polls self queue active in
  let limit := Z.max 0 (max_workers (Config.resource_config (config self))) in
  Z.of_nat (size active) ≤ limit →
  Config.resource_config (config out.1.1) = Config.resource_config (config self)
  ∧ Z.of_nat (size out.2) ≤ limit
  ∧ out.1.2 `suffix_of` queue.
Proof.
  revert self queue active.
  induction polls as [|alive polls IH]; intros self queue active; simpl;
    [intros; split; [done|]; split; [lia|done]|].
  intros Hact.
  destruct (match queue with [] => true | _ :: _ => false end
            && bool_decide (size active = 0%nat)); simpl;
    [split; [done|]; split; [lia|done]|].
  destruct (start_workers_bound environ queue self active) as (Hrc1 & Hs1 & Hq1).
  destruct (start_workers environ self queue active) as [[self1 queue1] active1].
  simpl in *.
  destruct (clean_up_bound (completed_workers alive self1 active1) (self1, active1))
    as [Hrc2 Hs2].
  destruct (fold_left clean_up _ _) as [self2 active2]. simpl in *.
  destruct (IH self2 queue1 active2) as (Hrc3 & Hs3 & Hq3).
  { rewrite Hrc2, Hrc1. lia. }
  rewrite Hrc2, Hrc1 in Hrc3, Hs3. split; [done|]. split; [done|].
  by etrans.
Qed.

(** X14. After any number of turns of the scheduling loop the dictionary
    [active_workers] holds at most [max_workers] entries (none when it is
    not positive), and the scenarios left in the queue are a suffix of those
    given.  The bound is on the entries of the dictionary and not on the
    processes that are alive: identifiers repeat, and an entry that is
    written again stands for one process only.  With two workers at most and
    six scenarios, when only the process started first has exited, four
    processes are started, under [worker_0], [worker_1], [worker_1] and
    [worker_1]; three of them are alive while the dictionary holds one
    entry. *)
Theorem concurrency_bounded (environ : gmap string string)
    (polls : list (nat → bool)) (self : ParallelDebugger)
    (scenarios : list TestScenario) :
  let out := execute_loop environ polls self scenarios ∅ in
  let crowded := execute_loop ∅ Examples.only_first_exits
                   (new_debugger (Config.init 2)) Examples.six_scenarios ∅ in
  (Z.of_nat (size out.2) ≤ Z.max 0 (max_workers (Config.resource_config (config self)))
   ∧ out.1.2 `suffix_of` scenarios)
  ∧ max_workers (Config.resource_config (config crowded.1.1)) = 2
  ∧ p_worker_id <$> started crowded.1.1
    = ["worker_0"; "worker_1"; "worker_1"; "worker_1"]
  ∧ name ∘ p_scenario <$> started crowded.1.1 = ["A"; "B"; "D"; "F"]
  ∧ live_processes (λ process, negb (Nat.eqb process 0)) crowded.1.1
    = [1%nat; 2%nat; 3%nat]
  ∧ size crowded.2 = 1%nat
  ∧ crowded.1.2 = [].
Proof.
  intros out crowded. split.
  - destruct (execute_loop_bound environ polls self scenarios ∅) as (_ & Hs & Hq).
    + rewrite map_size_empty. lia.
    + done.
  - subst crowded. vm_compute. repeat split; reflexivity.
Qed.

Lemma none_completed_of_none alive self :
  completed_workers alive self ∅ = [].
Proof.
  unfold completed_workers.
  induction ((map_to_list (workers self)).*1) as [|x l IHl]; [done|].
  simpl. rewrite lookup_empty. by destruct (workers self !! x).
Qed.

(** X15. With [max_workers] at zero or below the scheduling loop starts
    nothing: after any number of turns the orchestrator, the queue and the
    empty set of active workers are as they were. *)
Theorem no_workers_no_progress (environ : gmap string string)
    (polls : list (nat → bool)) (self : ParallelDebugger)
    (scenarios : list TestScenario) :
  max_workers (Config.resource_config (config self)) ≤ 0 →
  execute_loop environ polls self scenarios ∅ = (self, scenarios, ∅).
Proof.
  intros Hmax. induction polls as [|alive polls IH]; cbn [execute_loop]; [done|].
  destruct scenarios as [|sc rest].
  { by rewrite bool_decide_eq_true_2 by apply map_size_empty. }
  cbn [andb start_workers]. rewrite map_size_empty.
  destruct (Z.of_nat 0 <? max_workers (Config.resource_config (config self))) eqn:Hlt.
  { apply Z.ltb_lt in Hlt. lia. }
  rewrite none_completed_of_none. cbn [fold_left]. apply IH.
Qed.

Lemma no_workers_no_progress_witness :
  execute_loop ∅ Examples.second_exits_first
    (new_debugger (Config.mkConfig (mkResourceConfig 0 3100 100) ∅ 3100))
    Examples.three_scenarios ∅
  = (new_debugger (Config.mkConfig (mkResourceConfig 0 3100 100) ∅ 3100),
     Examples.three_scenarios, ∅).
Proof.
  apply (no_workers_no_progress ∅ Examples.second_exits_first
           (new_debugger (Config.mkConfig (mkResourceConfig 0 3100 100) ∅ 3100))
           Examples.three_scenarios).
  simpl. lia.
Defined.

Lemma start_worker_cases (environ : gmap string string)
    (self : ParallelDebugger) (sc : TestScenario) :
  let id := next_worker_id self in
  let out := _start_worker environ self sc in
  match out.1 with
  | Some worker_id =>
      worker_id = id
      ∧ workers out.2 = <[id := length (started self)]> (workers self)
      ∧ worker_scenarios out.2 = <[id := sc]> (worker_scenarios self)
      ∧ (∃ env, started out.2 = started self ++ [mkProcess id sc env])
      ∧ Config.allocated_ports (config out.2) !! id
        = Some [Config.next_port (config self); Config.next_port (config self) + 1]
  | None =>
      workers out.2 = workers self
      ∧ worker_scenarios out.2 = worker_scenarios self
      ∧ started out.2 = started self
      ∧ Config.allocated_ports (config out.2) !! id = None
  end.
Proof.
  intros id out. subst out. unfold _start_worker. fold id.
  assert (Hrel : ∀ cfg, Config.allocated_ports (Config.release_ports cfg id) !! id = None).
  { intros cfg. destruct (release_ports_table cfg id) as [-> _]. apply lookup_delete_eq. }
  unfold Config.allocate_ports.
  destruct (Config.allocated_ports (config self) !! id) eqn:Hheld; simpl.
  { done. }
  change (Z.to_nat 2) with 2%nat. cbn [Config.allocate_loop].
  set (limit := base_port (Config.resource_config (config self))
                + port_range (Config.resource_config (config self))).
  destruct (limit <=? Config.next_port (config self)); simpl; [done|].
  destruct (limit <=? Config.next_port (config self) + 1); simpl; [done|].
  unfold Config.get_worker_env. simpl. rewrite lookup_insert_eq. simpl.
  split; [done|]. split; [done|]. split; [done|]. split; [by eexists|].
  by rewrite lookup_insert_eq.
Qed.

(** X16. [_start_worker] either starts one process under the next worker
    identifier, tracked with its scenario and holding the two ports at the
    cursor, or starts nothing and leaves that identifier without ports, also
    when a live worker of the same identifier held them before. *)
Theorem start_worker_outcome (environ : gmap string string)
    (self : ParallelDebugger) (sc : TestScenario) :
  let id := next_worker_id self in
  let out := _start_worker environ self sc in
  match out.1 with
  | Some worker_id =>
      worker_id = id
      ∧ workers out.2 = <[id := length (started self)]> (workers self)
      ∧ worker_scenarios out.2 = <[id := sc]> (worker_scenarios self)
      ∧ (∃ env, started out.2 = started self ++ [mkProcess id sc env])
      ∧ Config.allocated_ports (config out.2) !! id
        = Some [Config.next_port (config self); Config.next_port (config self) + 1]
  | None =>
      workers out.2 = workers self
      ∧ worker_scenarios out.2 = worker_scenarios self
      ∧ started out.2 = started self
      ∧ Config.allocated_ports (config out.2) !! id = None
  end.
Proof. apply start_worker_cases. Qed.

Lemma release_lookup cfg w w' :
  Config.allocated_ports (Config.release_ports cfg w) !! w'
  = if decide (w' = w) then None else Config.allocated_ports cfg !! w'.
Proof.
  destruct (release_ports_table cfg w) as [-> _]. destruct (decide (w' = w)) as [->|Hne].
  - apply lookup_delete_eq.
  - by apply lookup_delete_ne.
Qed.

Lemma fold_release_lookup ids cfg w :
  Config.allocated_ports (fold_left Config.release_ports ids cfg) !! w
  = if decide (w ∈ ids) then None else Config.allocated_ports cfg !! w.
Proof.
  revert cfg. induction ids as [|id ids IH]; intros cfg; cbn [fold_left].
  - by rewrite decide_False by apply not_elem_of_nil.
  - rewrite IH, release_lookup.
    destruct (decide (w ∈ ids)) as [Hin|Hnin].
    + rewrite decide_True; [done|by right].
    + destruct (decide (w = id)) as [->|Hne].
      * rewrite decide_True; [done|by left].
      * rewrite decide_False; [done|]. by intros [?|?]%elem_of_cons.
Qed.

Lemma fold_release_absent ids cfg :
  (∀ w, w ∈ ids → Config.allocated_ports cfg !! w = None) →
  fold_left Config.release_ports ids cfg = cfg.
Proof.
  revert cfg. induction ids as [|id ids IH]; intros cfg Habs; simpl; [done|].
  assert (Hid : Config.release_ports cfg id = cfg).
  { unfold Config.release_ports. rewrite Habs; [done|by left]. }
  rewrite Hid. apply IH. intros w Hw. apply Habs. by right.
Qed.

Lemma tracked_keys (self : ParallelDebugger) w :
  w ∈ (map_to_list (workers self)).*1 ↔ is_Some (workers self !! w).
Proof.
  rewrite list_elem_of_fmap. split.
  - intros ([k v] & -> & Hin). apply elem_of_map_to_list in Hin. by exists v.
  - intros [v Hv]. exists (w, v). split; [done|]. by apply elem_of_map_to_list.
Qed.

Lemma shutdown_lookup (self : ParallelDebugger) w :
  Config.allocated_ports (config (shutdown self)) !! w
  = if decide (is_Some (workers self !! w)) then None
    else Config.allocated_ports (config self) !! w.
Proof.
  unfold shutdown. cbn [config]. rewrite fold_release_lookup.
  destruct (decide (w ∈ (map_to_list (workers self)).*1)) as [Hin|Hnin].
  - rewrite decide_True; [done|by apply tracked_keys].
  - rewrite decide_False; [done|]. by rewrite <- tracked_keys.
Qed.

Lemma shutdown_twice (self : ParallelDebugger) : shutdown (shutdown self) = shutdown self.
Proof.
  unfold shutdown at 1. cbn [workers worker_scenarios started].
  rewrite fold_release_absent; [by destruct self|].
  intros w Hw%tracked_keys. cbn [workers] in Hw. rewrite shutdown_lookup.
  by rewrite decide_True.
Qed.

Lemma shutdown_empties (self : ParallelDebugger) :
  ports_tracked self → Config.allocated_ports (config (shutdown self)) = ∅.
Proof.
  intros Htracked. apply map_eq. intros w. rewrite lookup_empty, shutdown_lookup.
  destruct (decide (is_Some (workers self !! w))) as [|Hnot]; [done|].
  destruct (Config.allocated_ports (config self) !! w) eqn:Hw; [|done].
  exfalso. apply Hnot. apply Htracked. by rewrite Hw.
Qed.

(** X19. [shutdown] releases the ports of every tracked worker and leaves
    the ports of all other identifiers as they are; a second shutdown changes
    nothing. *)
Theorem shutdown_releases_tracked (self : ParallelDebugger) :
  (∀ w, is_Some (workers self !! w) →
        Config.allocated_ports (config (shutdown self)) !! w = None)
  ∧ (∀ w, workers self !! w = None →
          Config.allocated_ports (config (shutdown self)) !! w
          = Config.allocated_ports (config self) !! w)
  ∧ shutdown (shutdown self) = shutdown self.
Proof.
  split; [|split].
  - intros w Hw. rewrite shutdown_lookup. by rewrite decide_True.
  - intros w Hw. rewrite shutdown_lookup. rewrite decide_False; [done|].
    rewrite Hw. by intros [? ?].
  - apply shutdown_twice.
Qed.

Lemma start_worker_tracked environ self sc :
  ports_tracked self → ports_tracked (_start_worker environ self sc).2.
Proof.
  intros Htr. unfold _start_worker.
  set (id := next_worker_id self).
  assert (Hfail : ∀ cfg,
            (∀ w, w ≠ id → is_Some (Config.allocated_ports cfg !! w) →
                  is_Some (Config.allocated_ports (config self) !! w)) →
            ports_tracked (mkDebugger (Config.release_ports cfg id) (workers self)
                             (worker_scenarios self) (started self))).
  { intros cfg Hsub w. cbn [config workers]. rewrite release_lookup.
    destruct (decide (w = id)); [by intros [? ?]|]. intros Hw. by apply Htr, Hsub. }
  unfold Config.allocate_ports.
  destruct (Config.allocated_ports (config self) !! id) eqn:Hheld.
  { cbn [fst snd]. by apply Hfail. }
  destruct (Config.allocate_loop _ _ _ _) as [[ports|] next]; cbn [fst snd].
  - set (cfg := Config.mkConfig _ _ _).
    destruct (Config.get_worker_env cfg environ id sc) as [env|e]; cbn [snd].
    + intros w. cbn [config workers]. subst cfg. cbn [Config.allocated_ports].
      destruct (decide (w = id)) as [->|Hne].
      * rewrite !lookup_insert_eq. by eauto.
      * rewrite !lookup_insert_ne by done. apply Htr.
    + apply Hfail. intros w Hne. subst cfg. cbn [Config.allocated_ports].
      by rewrite lookup_insert_ne.
  - apply Hfail. intros w _. by cbn [Config.allocated_ports].
Qed.

Lemma start_workers_tracked environ queue self active :
  ports_tracked self → ports_tracked (start_workers environ self queue active).1.1.
Proof.
  revert self active. induction queue as [|sc rest IH]; intros self active Htr;
    cbn [start_workers]; [done|].
  destruct (Z.of_nat (size active) <? _); [|done].
  pose proof (start_worker_tracked environ self sc Htr) as Htr1.
  destruct (_start_worker environ self sc) as [[worker_id|] self1]; by apply IH.
Qed.

Lemma clean_up_tracked ids st :
  ports_tracked st.1 → ports_tracked (fold_left clean_up ids st).1.
Proof.
  revert st. induction ids as [|id ids IH]; intros [self active] Htr; [done|].
  cbn [fold_left]. apply IH. cbn [clean_up fst].
  intros w. cbn [config workers]. rewrite release_lookup.
  destruct (decide (w = id)) as [->|Hne]; [by intros [? ?]|].
  rewrite lookup_delete_ne by done. apply Htr.
Qed.

Lemma execute_loop_tracked environ polls self queue active :
  ports_tracked self → ports_tracked (execute_loop environ polls self queue active).1.1.
Proof.
  revert self queue active. induction polls as [|alive polls IH];
    intros self queue active Htr; cbn [execute_loop]; [done|].
  destruct (_ && _); [done|].
  pose proof (start_workers_tracked environ queue self active Htr) as Htr1.
  destruct (start_workers environ self queue active) as [[self1 queue1] active1].
  pose proof (clean_up_tracked (completed_workers alive self1 active1)
                (self1, active1) Htr1) as Htr2.
  destruct (fold_left clean_up _ _) as [self2 active2]. by apply IH.
Qed.

(** X20. When the orchestrator starts from a configuration with no port
    allocated, after the scheduling loop (however far it got) one shutdown
    leaves no port allocated, and so does a second one. *)
Theorem shutdown_after_run_frees_all (environ : gmap string string)
    (polls : list (nat → bool)) (cfg : Config.ParallelDebugConfig)
    (scenarios : list TestScenario) :
  Config.allocated_ports cfg = ∅ →
  let self := _execute_scenarios environ polls (new_debugger cfg) scenarios in
  Config.allocated_ports (config (shutdown self)) = ∅
  ∧ Config.allocated_ports (config (shutdown (shutdown self))) = ∅.
Proof.
  intros Hempty self.
  assert (Htr : ports_tracked self).
  { apply execute_loop_tracked. intros w. cbn [new_debugger config].
    rewrite Hempty, lookup_empty. by intros [? ?]. }
  rewrite shutdown_twice. split; by apply shutdown_empties.
Qed.

Lemma shutdown_after_run_frees_all_witness :
  Config.allocated_ports
    (config
       (shutdown
          (_execute_scenarios ∅ Examples.second_exits_first
             (new_debugger (Config.init 2)) Examples.three_scenarios)))
  = ∅.
Proof.
  exact (proj1 (shutdown_after_run_frees_all ∅ Examples.second_exits_first
                  (Config.init 2) Examples.three_scenarios eq_refl)).
Defined.

Lemma collect_loop_spec gets expected results aggregator timeout_count :
  let out := collect_loop gets expected results aggregator timeout_count in
  ∃ more,
    out.1 = results ++ more
    ∧ Aggregator.worker_results out.2 = Aggregator.worker_results aggregator ++ more
    ∧ more `prefix_of` omap id gets
    ∧ (length out.1 ≤ Nat.max (length results) expected)%nat.
Proof.
  revert results aggregator timeout_count.
  induction gets as [|[r|] gets IH]; intros results aggregator timeout_count;
    cbn [collect_loop].
  - exists []. rewrite !app_nil_r.
    destruct (length results <? expected)%nat; cbn [fst snd];
      (split; [done|]); (split; [done|]); (split; [done|lia]).
  - destruct (length results <? expected)%nat eqn:Hlt; cbn [fst snd].
    + apply Nat.ltb_lt in Hlt.
      destruct (IH (results ++ [r]) (Aggregator.add_result aggregator r) 0%nat)
        as (more & H1 & H2 & H3 & H4).
      exists (r :: more). rewrite H1, H2. cbn [Aggregator.add_result Aggregator.worker_results].
      rewrite <- !app_assoc. split; [done|]. split; [done|]. split.
      * cbn [omap]. simpl. by apply prefix_cons.
      * rewrite H1 in H4. rewrite !length_app in *. simpl in *. lia.
    + exists []. rewrite !app_nil_r. split; [done|]. split; [done|].
      split; [apply prefix_nil|lia].
  - destruct (length results <? expected)%nat eqn:Hlt; cbn [fst snd].
    + destruct (10 <=? S timeout_count)%nat; cbn [fst snd].
      * exists []. rewrite !app_nil_r. split; [done|]. split; [done|].
        split; [apply prefix_nil|lia].
      * destruct (IH results aggregator (S timeout_count)) as (more & H1 & H2 & H3 & H4).
        exists more. done.
    + exists []. rewrite !app_nil_r. split; [done|]. split; [done|].
      split; [apply prefix_nil|lia].
Qed.

Lemma collect_loop_all gets expected results aggregator timeout_count rs :
  gets = Some <$> rs →
  (collect_loop gets expected results aggregator timeout_count).1
  = results ++ take (expected - length results) rs.
Proof.
  intros ->. revert results aggregator timeout_count.
  induction rs as [|r rs IH]; intros results aggregator timeout_count;
    cbn [collect_loop fmap list_fmap].
  - rewrite take_nil, app_nil_r. by destruct (length results <? expected)%nat.
  - destruct (length results <? expected)%nat eqn:Hlt; cbn [fst].
    + apply Nat.ltb_lt in Hlt. rewrite IH. rewrite length_app. simpl.
      replace (expected - length results)%nat
        with (S (expected - (length results + 1)))%nat by lia.
      simpl. by rewrite <- app_assoc.
    + apply Nat.ltb_ge in Hlt.
      replace (expected - length results)%nat with 0%nat by lia.
      by rewrite app_nil_r.
Qed.

Lemma collect_loop_timeouts n gets expected results aggregator timeout_count :
  (timeout_count < 10)%nat → (10 ≤ timeout_count + n)%nat →
  (collect_loop (replicate n None ++ gets) expected results aggregator timeout_count).1
  = results.
Proof.
  revert timeout_count. induction n as [|n IH]; intros timeout_count Hlt Hn; [lia|].
  cbn [replicate app collect_loop].
  destruct (length results <? expected)%nat; cbn [fst]; [|done].
  destruct (10 <=? S timeout_count)%nat eqn:Hle; [done|].
  apply Nat.leb_gt in Hle. apply IH; lia.
Qed.

(** X18. [_collect_results] returns a prefix of the results delivered by
    the queue, never more than the table of worker scenarios has entries, and
    the aggregator has received exactly these results; when the queue only
    delivers results it returns the first ones up to that number, and ten
    time-outs in a row at the start end the collection with no result. *)
Theorem collect_results_bounded (gets : list (option WorkerResult))
    (self : ParallelDebugger) (aggregator : Aggregator.ResultAggregator) :
  let out := _collect_results gets self aggregator in
  out.1 `prefix_of` omap id gets
  ∧ (length out.1 ≤ size (worker_scenarios self))%nat
  ∧ Aggregator.worker_results out.2 = Aggregator.worker_results aggregator ++ out.1
  ∧ (∀ rs, gets = Some <$> rs → out.1 = take (size (worker_scenarios self)) rs)
  ∧ (∀ rest, gets = replicate 10 None ++ rest → out.1 = []).
Proof.
  intros out. subst out. unfold _collect_results.
  destruct (collect_loop_spec gets (size (worker_scenarios self)) [] aggregator 0)
    as (more & H1 & H2 & H3 & H4).
  cbn [app] in H1. rewrite H1 in *.
  split; [done|]. split; [simpl in H4; lia|]. split; [done|]. split.
  - intros rs Hrs. rewrite <- H1.
    rewrite (collect_loop_all gets _ [] aggregator 0 rs Hrs). simpl.
    by rewrite Nat.sub_0_r.
  - intros rest ->. rewrite <- H1.
    by rewrite (collect_loop_timeouts 10 rest _ [] aggregator 0) by lia.
Qed.

Lemma start_workers_book environ queue self active :
  let out := start_workers environ self queue active in
  ∃ consumed new,
    queue = consumed ++ out.1.2
    ∧ started out.1.1 = started self ++ new
    ∧ (p_scenario <$> new) `sublist_of` consumed
    ∧ dom (worker_scenarios out.1.1)
      = dom (worker_scenarios self) ∪ list_to_set (p_worker_id <$> new).
Proof.
  revert self active. induction queue as [|sc queue IH]; intros self active.
  - exists [], []. cbn. rewrite app_nil_r. split; [done|]. split; [done|].
    split; [done|]. set_solver.
  - cbn [start_workers].
    destruct (Z.of_nat (size active) <? _).
    2:{ exists [], []. cbn. rewrite app_nil_r. split; [done|]. split; [done|].
        split; [apply sublist_nil_l|]. set_solver. }
    pose proof (start_worker_cases environ self sc) as Hout. cbv zeta in Hout.
    destruct (_start_worker environ self sc) as [[worker_id|] self1] eqn:Hs;
      cbn [fst snd] in Hout.
    + destruct Hout as (-> & _ & Hws & (env & Hst) & _).
      destruct (IH self1 (<[next_worker_id self := sc]> active))
        as (consumed & new & Hq & Hst' & Hsub & Hdom).
      exists (sc :: consumed), (mkProcess (next_worker_id self) sc env :: new).
      split; [by rewrite Hq at 1|]. split; [|split].
      * rewrite Hst', Hst. by rewrite <- app_assoc.
      * cbn [fmap list_fmap p_scenario]. by apply sublist_skip.
      * rewrite Hdom, Hws, dom_insert_L. cbn [fmap list_fmap p_worker_id list_to_set].
        set_solver.
    + destruct Hout as (_ & Hws & Hst & _).
      destruct (IH self1 active) as (consumed & new & Hq & Hst' & Hsub & Hdom).
      exists (sc :: consumed), new.
      split; [by rewrite Hq at 1|]. split; [by rewrite Hst', Hst|].
      split; [by apply sublist_cons|]. by rewrite Hdom, Hws.
Qed.

Lemma clean_up_book ids st :
  started (fold_left clean_up ids st).1 = started st.1
  ∧ worker_scenarios (fold_left clean_up ids st).1 = worker_scenarios st.1.
Proof.
  revert st. induction ids as [|w ids IH]; intros [self active]; [done|].
  cbn [fold_left]. destruct (IH (clean_up (self, active) w)) as [-> ->]. done.
Qed.

Lemma execute_loop_book environ polls self queue active :
  let out := execute_loop environ polls self queue active in
  ∃ consumed new,
    queue = consumed ++ out.1.2
    ∧ started out.1.1 = started self ++ new
    ∧ (p_scenario <$> new) `sublist_of` consumed
    ∧ dom (worker_scenarios out.1.1)
      = dom (worker_scenarios self) ∪ list_to_set (p_worker_id <$> new).
Proof.
  revert self queue active. induction polls as [|alive polls IH]; intros self queue active.
  - exists [], []. cbn. rewrite app_nil_r. split; [done|]. split; [done|].
    split; [done|]. set_solver.
  - cbn [execute_loop].
    destruct (_ && _).
    { exists [], []. cbn. rewrite app_nil_r. split; [done|]. split; [done|].
      split; [done|]. set_solver. }
    destruct (start_workers_book environ queue self active)
      as (c1 & n1 & Hq1 & Hst1 & Hsub1 & Hdom1).
    destruct (start_workers environ self queue active) as [[self1 queue1] active1].
    cbn [fst snd] in *.
    destruct (clean_up_book (completed_workers alive self1 active1) (self1, active1))
      as [Hst2 Hws2].
    destruct (fold_left clean_up _ (self1, active1)) as [self2 active2].
    cbn [fst snd] in *.
    destruct (IH self2 queue1 active2) as (c3 & n3 & Hq3 & Hst3 & Hsub3 & Hdom3).
    exists (c1 ++ c3), (n1 ++ n3). split; [|split; [|split]].
    + rewrite Hq1, Hq3 at 1. by rewrite <- app_assoc.
    + rewrite Hst3, Hst2, Hst1. by rewrite <- app_assoc.
    + rewrite fmap_app. by apply sublist_app.
    + rewrite Hdom3, Hws2, Hdom1, fmap_app, list_to_set_app_L. set_solver.
Qed.

(** X17. After the scheduling loop the scenarios of the started processes
    are a sublist of the scenarios given, in their order; the table of worker
    scenarios has one entry for each distinct identifier among the started
    processes, so result collection returns no more results than there are
    distinct identifiers, which are no more than the processes started. *)
Theorem run_bookkeeping (environ : gmap string string) (polls : list (nat → bool))
    (cfg : Config.ParallelDebugConfig) (scenarios : list TestScenario)
    (gets : list (option WorkerResult)) (aggregator : Aggregator.ResultAggregator) :
  let self := _execute_scenarios environ polls (new_debugger cfg) scenarios in
  let ids : gset string := list_to_set (p_worker_id <$> started self) in
  (p_scenario <$> started self) `sublist_of` scenarios
  ∧ dom (worker_scenarios self) = ids
  ∧ (length (_collect_results gets self aggregator).1 ≤ size ids)%nat
  ∧ (size ids ≤ length (started self))%nat.
Proof.
  intros self ids. subst ids self. unfold _execute_scenarios.
  destruct (execute_loop_book environ polls (new_debugger cfg) scenarios ∅)
    as (consumed & new & Hq & Hst & Hsub & Hdom).
  cbn [new_debugger started worker_scenarios app] in Hst, Hdom.
  rewrite dom_empty_L, (left_id_L ∅ (∪)) in Hdom.
  set (self := (execute_loop environ polls (new_debugger cfg) scenarios ∅).1.1) in *.
  rewrite Hst. split; [|split; [done|split]].
  - rewrite Hq. etransitivity; [exact Hsub|]. by apply sublist_inserts_r.
  - unfold _collect_results.
    destruct (collect_loop_spec gets (size (worker_scenarios self)) [] aggregator 0)
      as (more & H1 & _ & _ & H4).
    rewrite <- Hdom, size_dom. cbn [length] in H4. lia.
  - rewrite <- (length_fmap p_worker_id). clear.
    induction (p_worker_id <$> new) as [|w ws IH]; cbn [list_to_set length].
    + by rewrite size_empty.
    + rewrite size_union_alt, size_singleton.
      assert (size (list_to_set ws ∖ {[w]} : gset string) ≤ size (list_to_set ws : gset string))%nat
        by (apply subseteq_size; set_solver).
      lia.
Qed.
End OrchestratorMore.

(** ** The result aggregator: durations and repeated calls *)

Section AggregationMore.
Import Aggregator Statistics.

Lemma stats_fold_durations l r :
  total_duration (fold_left stats_step l r)
  = fold_left Qplus (truthy_durations l) (total_duration r)
  ∧ min_duration (fold_left stats_step l r)
    = fold_left min_with (truthy_durations l) (min_duration r)
  ∧ max_duration (fold_left stats_step l r)
    = fold_left max_with (truthy_durations l) (max_duration r).
Proof.
  revert r. induction l as [|x l IH]; intros r; [done|].
  cbn [fold_left]. destruct (IH (stats_step r x)) as (-> & -> & ->).
  unfold truthy_durations. cbn [omap list_omap].
  cbn [stats_step total_duration min_duration max_duration].
  by destruct (nonzero (duration x)).
Qed.

Lemma stats_fold_rest l r :
  success_rate (fold_left stats_step l r) = success_rate r
  ∧ average_duration (fold_left stats_step l r) = average_duration r
  ∧ common_errors (fold_left stats_step l r) = common_errors r
  ∧ error_patterns (fold_left stats_step l r) = error_patterns r
  ∧ common_findings (fold_left stats_step l r) = common_findings r
  ∧ root_causes (fold_left stats_step l r) = root_causes r.
Proof.
  revert r. induction l as [|x l IH]; intros r; [done|].
  cbn [fold_left]. by destruct (IH (stats_step r x)) as (-> & -> & -> & -> & -> & ->).
Qed.

Lemma stats_fold_scenarios l r nm :
  scenario_results (fold_left stats_step l r) !! nm
  = match last (named nm l) with
    | Some x => Some (summary_of x)
    | None => scenario_results r !! nm
    end.
Proof.
  revert r. induction l as [|x l IH]; intros r; [done|].
  cbn [fold_left]. rewrite IH. unfold named. cbn [List.filter].
  destruct (String.eqb (scenario_name x) nm) eqn:Hx.
  - apply String.eqb_eq in Hx.
    destruct (List.filter _ l) as [|y l'] eqn:Hl.
    + cbn [last stats_step scenario_results]. rewrite Hx.
      by rewrite lookup_insert_eq.
    + rewrite last_cons_cons. destruct (last (y :: l')) eqn:E; [done|].
      by apply last_None in E.
  - apply String.eqb_neq in Hx.
    destruct (last (List.filter _ l)); [done|].
    cbn [stats_step scenario_results]. by rewrite lookup_insert_ne.
Qed.

Lemma Qltb_false_le a b : Qltb a b = false ↔ (b <= a)%Q.
Proof.
  unfold Qltb. rewrite negb_false_iff. apply Qle_bool_iff.
Qed.

Lemma Qltb_true_lt a b : Qltb a b = true ↔ (a < b)%Q.
Proof.
  unfold Qltb. rewrite negb_true_iff. split.
  - intros H. apply Qnot_le_lt. intros Hle. apply Qle_bool_iff in Hle. congruence.
  - intros H. destruct (Qle_bool b a) eqn:Hb; [|done].
    apply Qle_bool_iff in Hb. exfalso. by apply (Qlt_not_le a b).
Qed.

Lemma min_fold_spec ds m0 :
  match fold_left min_with ds m0 with
  | None => ds = [] ∧ m0 = None
  | Some m =>
      (m ∈ ds ∨ m0 = Some m)
      ∧ (∀ d, d ∈ ds → (m <= d)%Q)
      ∧ (∀ q, m0 = Some q → (m <= q)%Q)
  end.
Proof.
  revert m0. induction ds as [|d ds IH]; intros m0.
  - cbn [fold_left]. destruct m0 as [q|]; [|done].
    split; [by right|]. split; [by intros d Hd%elem_of_nil|].
    intros q' [= <-]. apply Qle_refl.
  - cbn [fold_left]. specialize (IH (min_with m0 d)).
    destruct (fold_left min_with ds (min_with m0 d)) as [m|].
    + destruct IH as (Hin & Hall & Hm0).
      assert (Hmd : (m <= d)%Q ∧ ∀ q, m0 = Some q → (m <= q)%Q).
      { destruct m0 as [q|]; cbn [min_with] in Hm0.
        - destruct (Qltb d q) eqn:Hlt.
          + apply Qltb_true_lt in Hlt. pose proof (Hm0 d eq_refl) as Hd.
            split; [done|]. intros q' [= <-].
            eapply Qle_trans; [exact Hd|]. by apply Qlt_le_weak.
          + apply Qltb_false_le in Hlt. pose proof (Hm0 q eq_refl) as Hq.
            split; [by eapply Qle_trans|]. by intros q' [= <-].
        - split; [by apply Hm0|]. done. }
      split; [|split].
      * destruct Hin as [Hin|Hin]; [left; by apply list_elem_of_further|].
        destruct m0 as [q|]; cbn [min_with] in Hin.
        -- destruct (Qltb d q); injection Hin as <-;
             [left; apply list_elem_of_here|by right].
        -- injection Hin as <-. left. apply list_elem_of_here.
      * intros d' [->|Hd']%elem_of_cons; [apply (proj1 Hmd)|by apply Hall].
      * apply (proj2 Hmd).
    + destruct IH as [_ Hnone]. destruct m0 as [q|]; cbn [min_with] in Hnone;
        [by destruct (Qltb d q)|done].
Qed.

Lemma max_fold_spec ds m0 :
  let m := fold_left max_with ds m0 in
  (m ∈ ds ∨ m = m0) ∧ (∀ d, d ∈ ds → (d <= m)%Q) ∧ (m0 <= m)%Q.
Proof.
  revert m0. induction ds as [|d ds IH]; intros m0; cbn [fold_left].
  - split; [by right|]. split; [by intros d Hd%elem_of_nil|]. apply Qle_refl.
  - destruct (IH (max_with m0 d)) as (Hin & Hall & Hm0).
    assert (Hmax : (d <= max_with m0 d)%Q ∧ (m0 <= max_with m0 d)%Q).
    { unfold max_with. destruct (Qltb m0 d) eqn:Hlt.
      - apply Qltb_true_lt in Hlt. split; [apply Qle_refl|by apply Qlt_le_weak].
      - apply Qltb_false_le in Hlt. split; [done|apply Qle_refl]. }
    split; [|split].
    + destruct Hin as [Hin|Hin]; [left; by apply list_elem_of_further|].
      rewrite Hin. unfold max_with. destruct (Qltb m0 d);
        [left; apply list_elem_of_here|by right].
    + intros d' [->|Hd']%elem_of_cons; [|by apply Hall].
      eapply Qle_trans; [apply Hmax|done].
    + eapply Qle_trans; [apply Hmax|done].
Qed.

Lemma min_fold_stable ds m :
  (∀ d, d ∈ ds → (m <= d)%Q) → fold_left min_with ds (Some m) = Some m.
Proof.
  induction ds as [|d ds IH]; intros Hall; [done|].
  cbn [fold_left min_with].
  assert (Hd : Qltb d m = false).
  { apply Qltb_false_le, Hall, list_elem_of_here. }
  rewrite Hd. apply IH. intros d' Hd'. by apply Hall, list_elem_of_further.
Qed.

Lemma max_fold_stable ds m :
  (∀ d, d ∈ ds → (d <= m)%Q) → fold_left max_with ds m = m.
Proof.
  induction ds as [|d ds IH]; intros Hall; [done|].
  cbn [fold_left]. unfold max_with at 2.
  assert (Hd : Qltb m d = false).
  { apply Qltb_false_le, Hall, list_elem_of_here. }
  rewrite Hd. apply IH. intros d' Hd'. by apply Hall, list_elem_of_further.
Qed.

(** What one [aggregate] call computes, for an aggregator that holds
    results. *)
Lemma aggregate_fields self :
  worker_results self ≠ [] →
  let wr := worker_results self in
  let n := Z.of_nat (length wr) in
  let s := fold_left stats_step wr (set_total n (aggregated_results self)) in
  let r := (aggregate self).1 in
  total_duration r = total_duration s
  ∧ average_duration r = (total_duration s / inject_Z n)%Q
  ∧ min_duration r = min_duration s
  ∧ max_duration r = max_duration s
  ∧ scenario_results r = scenario_results s
  ∧ common_errors r = (ErrorPatternAnalyzer.analyze_errors wr).1
  ∧ error_patterns r = (ErrorPatternAnalyzer.analyze_errors wr).2
  ∧ common_findings r = (FindingsAnalyzer.analyze_findings wr).1
  ∧ root_causes r = (FindingsAnalyzer.analyze_findings wr).2.
Proof.
  intros Hne wr n s r. subst r. unfold aggregate. fold wr.
  destruct wr as [|x l] eqn:Hl; [done|]. cbn [fst].
  unfold _analyze_findings, _analyze_errors.
  destruct (FindingsAnalyzer.analyze_findings (x :: l)) as [cf rc].
  destruct (ErrorPatternAnalyzer.analyze_errors (x :: l)) as [ce ep].
  cbn [total_duration average_duration min_duration max_duration scenario_results
       common_errors error_patterns common_findings root_causes fst snd].
  unfold _calculate_basic_stats. fold wr. rewrite Hl. fold n. fold s.
  assert (Ht : total_scenarios s = n).
  { subst s. by destruct (stats_fold (x :: l) (set_total n (aggregated_results self)))
      as (-> & _). }
  assert (Hpos : (0 <? n) = true).
  { apply Z.ltb_lt. unfold n. simpl length. lia. }
  unfold set_rates. rewrite Ht, Hpos.
  cbn [total_duration average_duration min_duration max_duration scenario_results].
  done.
Qed.

(** X21. One aggregation on a fresh aggregator: the total duration is the
    sum of the durations that are present and not zero, the average divides
    it by the number of all results, the minimum is one of these durations
    and below all of them (and unset when there is none), the maximum is
    above all of them and is one of them or the initial zero. *)
Theorem duration_statistics (results : list WorkerResult) :
  let r := (aggregate (fold_left add_result results new_aggregator)).1 in
  let ds := truthy_durations results in
  total_duration r = Qsum ds
  ∧ average_duration r
    = match results with
      | [] => 0%Q
      | _ => (Qsum ds / inject_Z (Z.of_nat (length results)))%Q
      end
  ∧ match min_duration r with
    | None => ds = []
    | Some m => m ∈ ds ∧ ∀ d, d ∈ ds → (m <= d)%Q
    end
  ∧ (max_duration r ∈ ds ∨ max_duration r = 0%Q)
  ∧ (∀ d, d ∈ ds → (d <= max_duration r)%Q).
Proof.
  intros r ds. subst r.
  destruct (add_results_fold results new_aggregator) as [Hwr Hagg].
  simpl in Hwr, Hagg.
  destruct results as [|x l].
  - cbn. split; [done|]. split; [done|]. split; [done|]. split; [by right|].
    by intros d Hd%elem_of_nil.
  - set (self := fold_left add_result (x :: l) new_aggregator) in *.
    assert (Hne : worker_results self ≠ []) by (by rewrite Hwr).
    destruct (aggregate_fields self Hne) as (Ht & Ha & Hmin & Hmax & _).
    rewrite Hwr, Hagg in Ht, Ha, Hmin, Hmax.
    destruct (stats_fold_durations (x :: l)
                (set_total (Z.of_nat (length (x :: l))) empty_results))
      as (Ht' & Hmin' & Hmax').
    cbn [set_total empty_results total_duration min_duration max_duration]
      in Ht', Hmin', Hmax'.
    rewrite Ht' in Ht, Ha. rewrite Hmin' in Hmin. rewrite Hmax' in Hmax.
    fold ds in Ht, Ha, Hmin, Hmax.
    split; [exact Ht|]. split; [exact Ha|]. rewrite Hmin, Hmax.
    pose proof (min_fold_spec ds None) as Hm.
    destruct (max_fold_spec ds 0%Q) as (Hx1 & Hx2 & _).
    split; [|split; [exact Hx1|exact Hx2]].
    destruct (fold_left min_with ds None) as [m|].
    + destruct Hm as ([?|?] & ? & _); done.
    + by destruct Hm.
Qed.

(** X22. After one aggregation on a fresh aggregator the entry of a
    scenario name in [scenario_results] is the summary of the last result
    with that name; a name no result carries has no entry. *)
Theorem scenario_results_last_wins (results : list WorkerResult) (nm : string) :
  let r := (aggregate (fold_left add_result results new_aggregator)).1 in
  scenario_results r !! nm = summary_of <$> last (named nm results).
Proof.
  intros r. subst r.
  destruct (add_results_fold results new_aggregator) as [Hwr Hagg].
  simpl in Hwr, Hagg.
  destruct results as [|x l]; [done|].
  set (self := fold_left add_result (x :: l) new_aggregator) in *.
  assert (Hne : worker_results self ≠ []) by (by rewrite Hwr).
  destruct (aggregate_fields self Hne) as (_ & _ & _ & _ & -> & _).
  rewrite Hwr, Hagg. rewrite stats_fold_scenarios.
  cbn [set_total empty_results scenario_results].
  by destruct (last (named nm (x :: l))).
Qed.

(** X23. A second aggregation with no result added in between keeps the
    per-scenario table, the minimum and maximum duration, the common errors,
    the error categories, the common findings and the root causes of the
    first.  The total duration is not reset: the durations are added again,
    in the order of the results, on top of the total of the first
    aggregation, and the average divides that new total by the number of
    results.  The statement uses the additions as the loop makes them and no
    law of addition, so it reads the same for the floating-point numbers of
    the source. *)
Theorem aggregate_again_keeps_analysis (results : list WorkerResult) :
  let self0 := fold_left add_result results new_aggregator in
  let r1 := (aggregate self0).1 in
  let r2 := (aggregate (aggregate self0).2).1 in
  scenario_results r2 = scenario_results r1
  ∧ min_duration r2 = min_duration r1
  ∧ max_duration r2 = max_duration r1
  ∧ common_errors r2 = common_errors r1
  ∧ error_patterns r2 = error_patterns r1
  ∧ common_findings r2 = common_findings r1
  ∧ root_causes r2 = root_causes r1
  ∧ total_duration r2
    = fold_left Qplus (truthy_durations results) (total_duration r1)
  ∧ average_duration r2
    = match results with
      | [] => 0%Q
      | _ => (total_duration r2 / inject_Z (Z.of_nat (length results)))%Q
      end.
Proof.
  intros self0 r1 r2.
  destruct (add_results_fold results new_aggregator) as [Hwr Hagg].
  simpl in Hwr, Hagg. fold self0 in Hwr, Hagg.
  destruct results as [|x l].
  - subst r1 r2 self0. cbn. repeat (split; [done|]). done.
  - assert (Hne0 : worker_results self0 ≠ []) by (by rewrite Hwr).
    destruct (aggregate_counts self0 Hne0) as (Hself1 & _).
    fold r1 in Hself1.
    set (self1 := (aggregate self0).2) in *.
    assert (Hwr1 : worker_results self1 = x :: l) by (by rewrite Hself1).
    assert (Hagg1 : aggregated_results self1 = r1) by (by rewrite Hself1).
    assert (Hne1 : worker_results self1 ≠ []) by (by rewrite Hwr1).
    destruct (aggregate_fields self0 Hne0)
      as (Ht1 & Ha1 & Hmin1 & Hmax1 & Hsc1 & Hce1 & Hep1 & Hcf1 & Hrc1).
    destruct (aggregate_fields self1 Hne1)
      as (Ht2 & Ha2 & Hmin2 & Hmax2 & Hsc2 & Hce2 & Hep2 & Hcf2 & Hrc2).
    fold r1 in Ht1, Ha1, Hmin1, Hmax1, Hsc1, Hce1, Hep1, Hcf1, Hrc1.
    fold r2 in Ht2, Ha2, Hmin2, Hmax2, Hsc2, Hce2, Hep2, Hcf2, Hrc2.
    rewrite Hwr1 in Ht2, Ha2, Hmin2, Hmax2, Hsc2, Hce2, Hep2, Hcf2, Hrc2.
    rewrite Hagg1 in Ht2, Ha2, Hmin2, Hmax2, Hsc2.
    rewrite Hwr in Ht1, Ha1, Hmin1, Hmax1, Hsc1, Hce1, Hep1, Hcf1, Hrc1.
    rewrite Hagg in Ht1, Ha1, Hmin1, Hmax1, Hsc1.
    set (n := Z.of_nat (length (x :: l))) in *.
    set (ds := truthy_durations (x :: l)).
    destruct (stats_fold_durations (x :: l) (set_total n empty_results))
      as (Hd1 & Hm1 & Hx1).
    destruct (stats_fold_durations (x :: l) (set_total n r1))
      as (Hd2 & Hm2 & Hx2).
    fold ds in Hd1, Hm1, Hx1, Hd2, Hm2, Hx2.
    cbn [set_total empty_results total_duration min_duration max_duration]
      in Hd1, Hm1, Hx1, Hd2, Hm2, Hx2.
    rewrite Hd1 in Ht1, Ha1. rewrite Hm1 in Hmin1. rewrite Hx1 in Hmax1.
    rewrite Hd2 in Ht2, Ha2. rewrite Hm2 in Hmin2. rewrite Hx2 in Hmax2.
    split; [|split; [|split; [|split; [|split; [|split; [|split; [|split]]]]]]].
    + rewrite Hsc2, Hsc1. apply map_eq. intros nm.
      rewrite !stats_fold_scenarios.
      cbn [set_total scenario_results]. rewrite Hsc1, stats_fold_scenarios.
      by destruct (last (named nm (x :: l))).
    + rewrite Hmin2. pose proof (min_fold_spec ds None) as Hspec.
      rewrite <- Hmin1 in Hspec. destruct (min_duration r1) as [m|].
      * apply min_fold_stable. apply Hspec.
      * by destruct Hspec as [-> _].
    + rewrite Hmax2. apply max_fold_stable.
      destruct (max_fold_spec ds 0%Q) as (_ & Hall & _).
      by rewrite <- Hmax1 in Hall.
    + by rewrite Hce2, Hce1.
    + by rewrite Hep2, Hep1.
    + by rewrite Hcf2, Hcf1.
    + by rewrite Hrc2, Hrc1.
    + exact Ht2.
    + by rewrite Ha2, Ht2.
Qed.

End AggregationMore.

(** ** The error pattern analyzer: origins and ranking *)

Section ErrorPatternsMore.
Import Re ErrorPatternAnalyzer ErrorOrigins.

Lemma placed_append_inv c x c' y cats :
  placed c x (append_to c' y cats) → (c = c' ∧ x = y) ∨ placed c x cats.
Proof.
  unfold placed, append_to. destruct (decide (c' = c)) as [->|Hne].
  - rewrite lookup_insert_eq. cbn [default].
    intros [Hx|Hx%list_elem_of_singleton]%elem_of_app; [by right|by left].
  - rewrite lookup_insert_ne by done. by right.
Qed.

Lemma append_to_inv results c y cats :
  cats_inv results cats → stems_from results c y → c ∈ error_patterns.*1 →
  cats_inv results (append_to c y cats).
Proof.
  intros [Hs Hk] Hy Hc. split.
  - intros c' x [[-> ->]|Hx]%placed_append_inv; [done|by apply Hs].
  - intros c' l. unfold append_to. destruct (decide (c = c')) as [<-|Hne].
    + rewrite lookup_insert_eq. intros [= <-]. split; [|done].
      by destruct (default [] (cats !! c)).
    + rewrite lookup_insert_ne by done. apply Hk.
Qed.

Lemma categorize_with_inv results pats text entry cats :
  (∀ c pat, (c, pat) ∈ pats →
     (c, pat) ∈ error_patterns
     ∧ (search true pat text = true → stems_from results c entry)) →
  cats_inv results cats →
  cats_inv results (categorize_with pats text entry cats).
Proof.
  revert cats. induction pats as [|[c pat] pats IH]; intros cats Hp Hinv; [done|].
  cbn [categorize_with fold_left].
  apply IH.
  - intros c' pat' Hin. apply Hp. by apply list_elem_of_further.
  - destruct (Hp c pat (list_elem_of_here _ _)) as [Hin Hst].
    destruct (search true pat text); [|done].
    apply append_to_inv; [done|by apply Hst|].
    apply list_elem_of_fmap. by exists (c, pat).
Qed.

Lemma analyze_one_inv results cats r :
  r ∈ results → cats_inv results cats → cats_inv results (analyze_one cats r).
Proof.
  intros Hr Hinv. unfold analyze_one, failed_with.
  destruct (success r) eqn:Hsucc; [done|].
  destruct (error r) as [e|] eqn:Herr; [|done].
  destruct (decide (e = "")) as [|Hne]; [done|].
  assert (Hlines : ∀ lines cats',
    (∀ l, l ∈ lines → l ∈ logs r) → cats_inv results cats' →
    cats_inv results
      (fold_left
         (λ acc log_line,
            if is_error_line log_line
            then categorize log_line (LogOf (scenario_name r) log_line) acc
            else acc)
         lines cats')).
  { induction lines as [|line lines IH]; intros cats' Hsub Hinv'; [done|].
    cbn [fold_left]. apply IH.
    - intros l Hl. by apply Hsub, list_elem_of_further.
    - destruct (is_error_line line) eqn:Hline; [|done].
      apply categorize_with_inv; [|done].
      intros c pat Hin. split; [done|]. intros Hs.
      exists r, pat, e. repeat (split; [done|]).
      split; [apply Hsub, list_elem_of_here|done]. }
  apply Hlines; [done|].
  apply categorize_with_inv; [|done].
  intros c pat Hin. split; [done|]. intros Hs.
  exists r, pat, e. repeat (split; [done|]). done.
Qed.

Lemma analyze_fold_inv results l cats :
  (∀ r, r ∈ l → r ∈ results) → cats_inv results cats →
  cats_inv results (fold_left analyze_one l cats).
Proof.
  revert cats. induction l as [|r l IH]; intros cats Hsub Hinv; [done|].
  cbn [fold_left]. apply IH.
  - intros r' Hr'. by apply Hsub, list_elem_of_further.
  - apply analyze_one_inv; [apply Hsub, list_elem_of_here|done].
Qed.

Lemma failed_with_None r :
  success r = true ∨ error r = None ∨ error r = Some "" → failed_with r = None.
Proof.
  unfold failed_with. intros [->|[->| ->]]; [done|by destruct (success r)|].
  by destruct (success r).
Qed.

Lemma logs_fold_adds scenario lines cats line c pat :
  line ∈ lines → is_error_line line = true →
  (c, pat) ∈ error_patterns → search true pat line = true →
  placed c (LogOf scenario line)
    (fold_left
       (λ acc log_line,
          if is_error_line log_line
          then categorize log_line (LogOf scenario log_line) acc
          else acc)
       lines cats).
Proof.
  revert cats. induction lines as [|l lines IH]; intros cats Hin Hline Hp Hs.
  - by apply elem_of_nil in Hin.
  - cbn [fold_left]. apply elem_of_cons in Hin as [<-|Hin].
    + apply logs_fold_mono. rewrite Hline.
      by apply (categorize_with_adds error_patterns _ _ _ c pat).
    + by apply IH.
Qed.

Lemma stems_placed results c x cats0 :
  stems_from results c x → placed c x (fold_left analyze_one results cats0).
Proof.
  intros (r & pat & e & Hr & Hp & Hsucc & Herr & Hne & Hx).
  assert (Hf : failed_with r = Some e).
  { unfold failed_with. rewrite Hsucc, Herr. by destruct (decide (e = "")). }
  destruct x as [scenario text|scenario line].
  - destruct Hx as (-> & -> & Hs). by apply (analyze_fold_adds _ _ r e c pat).
  - destruct Hx as (-> & Hline & Herrline & Hs).
    revert cats0. induction results as [|r' results IH]; intros cats0.
    { by apply elem_of_nil in Hr. }
    cbn [fold_left]. apply elem_of_cons in Hr as [<-|Hr]; [|by apply IH].
    apply analyze_fold_mono. unfold analyze_one. rewrite Hf.
    by apply (logs_fold_adds _ _ _ _ c pat).
Qed.

Lemma categories_exact results :
  cats_inv results (error_categories results)
  ∧ ∀ c x, placed c x (error_categories results) ↔ stems_from results c x.
Proof.
  assert (Hinv : cats_inv results (error_categories results)).
  { apply analyze_fold_inv; [done|]. split.
    - intros c x. unfold placed. rewrite lookup_empty. by intros ?%elem_of_nil.
    - intros c l. by rewrite lookup_empty. }
  split; [done|]. intros c x. split; [apply Hinv|apply stems_placed].
Qed.


(** X24. An entry stands in an error category exactly when it goes back
    to a failed result with a non-empty error whose error text, or one of
    whose log lines mentioning an error or a failure, the pattern of the
    category is found in.  No category is empty or has a name outside the
    seven patterns, and when no result failed with an error the analysis
    returns no common error and no category. *)
Theorem error_patterns_exact (results : list WorkerResult) :
  let cats := (analyze_errors results).2 in
  (∀ c x, placed c x cats ↔ stems_from results c x)
  ∧ (∀ c l, cats !! c = Some l → l ≠ [] ∧ c ∈ error_patterns.*1)
  ∧ ((∀ r, r ∈ results → success r = true ∨ error r = None ∨ error r = Some "") →
     analyze_errors results = ([], ∅)).
Proof.
  intros cats. subst cats. cbn [analyze_errors snd].
  destruct (categories_exact results) as [Hinv Hexact].
  split; [exact Hexact|]. split; [apply Hinv|].
  intros Hall. unfold analyze_errors, error_categories.
  assert (Hnone : ∀ l cats0, (∀ r, r ∈ l → r ∈ results) →
            omap failed_with l = [] ∧ fold_left analyze_one l cats0 = cats0).
  { induction l as [|r l IH]; intros cats0 Hsub; [done|].
    assert (Hr : failed_with r = None).
    { apply failed_with_None, Hall, Hsub, list_elem_of_here. }
    cbn [omap list_omap fold_left]. unfold analyze_one at 2. rewrite Hr.
    apply IH. intros r' Hr'. by apply Hsub, list_elem_of_further. }
  destruct (Hnone results ∅) as [-> ->]; done.
Qed.

Lemma occurrences_cons_ne x y l : x ≠ y → occurrences y (x :: l) = occurrences y l.
Proof.
  intros Hne. unfold occurrences. cbn [List.filter].
  destruct (String.eqb y x) eqn:E; [|done]. apply String.eqb_eq in E. congruence.
Qed.

Lemma occurrences_cons_eq x l : occurrences x (x :: l) = S (occurrences x l).
Proof. unfold occurrences. cbn [List.filter]. by rewrite String.eqb_refl. Qed.

Lemma counter_spec seen l :
  (∀ x n, (x, n) ∈ counter seen l → x ∈ l ∧ (x ∉ seen) ∧ n = occurrences x l)
  ∧ (∀ x, x ∈ l → x ∉ seen → (x, occurrences x l) ∈ (counter seen l))
  ∧ NoDup ((counter seen l).*1).
Proof.
  revert seen. induction l as [|y l IH]; intros seen.
  - cbn [counter]. split; [by intros x n ?%elem_of_nil|].
    split; [by intros x ?%elem_of_nil|]. constructor.
  - cbn [counter]. destruct (bool_decide (y ∈ seen)) eqn:Hy.
    + apply bool_decide_eq_true in Hy. destruct (IH seen) as (H1 & H2 & H3).
      split; [|split; [|done]].
      * intros x n Hx. destruct (H1 x n Hx) as (Hin & Hns & ->).
        split; [by apply list_elem_of_further|]. split; [done|].
        symmetry. apply occurrences_cons_ne. by intros ->.
      * intros x [->|Hx]%elem_of_cons Hns; [done|].
        rewrite occurrences_cons_ne; [by apply H2|]. by intros ->.
    + apply bool_decide_eq_false in Hy. destruct (IH (y :: seen)) as (H1 & H2 & H3).
      split; [|split].
      * intros x n [[= -> ->]|Hx]%elem_of_cons.
        -- split; [apply list_elem_of_here|]. split; [done|].
           by rewrite occurrences_cons_eq.
        -- destruct (H1 x n Hx) as (Hin & Hns & ->).
           apply not_elem_of_cons in Hns as [Hne Hns].
           split; [by apply list_elem_of_further|]. split; [done|].
           symmetry. by apply occurrences_cons_ne.
      * intros x [->|Hx]%elem_of_cons Hns.
        -- rewrite occurrences_cons_eq. apply list_elem_of_here.
        -- destruct (decide (x = y)) as [->|Hne].
           ++ rewrite occurrences_cons_eq. apply list_elem_of_here.
           ++ apply list_elem_of_further. rewrite occurrences_cons_ne by done.
              apply H2; [done|]. by apply not_elem_of_cons.
      * cbn [fmap list_fmap fst]. constructor; [|done].
        intros [[x n] [Heq Hx]]%list_elem_of_fmap. cbn [fst] in Heq. subst x.
        destruct (H1 y n Hx) as (_ & Hns & _). apply Hns, list_elem_of_here.
Qed.

Lemma insert_by_count_perm x l : insert_by_count x l ≡ₚ x :: l.
Proof.
  induction l as [|y l IH]; [done|]. cbn [insert_by_count].
  destruct (y.2 <=? x.2)%nat; [done|]. rewrite IH. apply Permutation_swap.
Qed.

Lemma insert_by_count_sorted x l : ranked l → ranked (insert_by_count x l).
Proof.
  induction l as [|y l IH]; cbn [insert_by_count ranked].
  - done.
  - intros [Hy Hl]. destruct (y.2 <=? x.2)%nat eqn:Hle.
    + apply Nat.leb_le in Hle. cbn [ranked]. split; [|done].
      constructor; [done|]. eapply Forall_impl; [exact Hy|].
      intros z Hz. unfold by_count in *. lia.
    + apply Nat.leb_gt in Hle. cbn [ranked]. split; [|by apply IH].
      rewrite insert_by_count_perm. constructor; [|done].
      unfold by_count. lia.
Qed.

Lemma ranking_spec c :
  foldr insert_by_count [] c ≡ₚ c ∧ ranked (foldr insert_by_count [] c).
Proof.
  induction c as [|x c [IHp IHs]]; cbn [foldr]; [done|].
  split; [by rewrite insert_by_count_perm, IHp|by apply insert_by_count_sorted].
Qed.

Lemma sorted_lookup l i j a b :
  ranked l → (i < j)%nat → l !! i = Some a → l !! j = Some b → by_count a b.
Proof.
  revert i j. induction l as [|x l IH]; intros i j Hs Hij Hi Hj; [done|].
  destruct Hs as [Hx Hl].
  destruct i as [|i], j as [|j]; try lia.
  - cbn in Hi, Hj. injection Hi as <-.
    rewrite Forall_forall in Hx. apply Hx.
    by eapply list_elem_of_lookup_2.
  - cbn in Hi, Hj. apply (IH i j); [done|lia|done|done].
Qed.

Lemma sorted_take_drop l n a b :
  ranked l → a ∈ take n l → b ∈ drop n l → by_count a b.
Proof.
  intros Hs [i Hi]%list_elem_of_lookup [j Hj]%list_elem_of_lookup.
  rewrite lookup_drop in Hj.
  assert (Hin : (i < n)%nat).
  { apply lookup_lt_Some in Hi. rewrite length_take in Hi. lia. }
  rewrite lookup_take_lt in Hi by done.
  apply (sorted_lookup l i (n + j)); [done|lia|done|done].
Qed.

(** X25. The common errors are at most five distinct error messages of
    failed results, each with the number of failed results that carry it, in
    order of decreasing count; a message left out means that five are listed
    and none of them occurs less often. *)
Theorem common_errors_ranked (results : list WorkerResult) :
  let common := (analyze_errors results).1 in
  let msgs := omap failed_with results in
  (length common ≤ 5)%nat
  ∧ NoDup (common.*1)
  ∧ (∀ m n, (m, n) ∈ common → m ∈ msgs ∧ n = occurrences m msgs)
  ∧ (∀ i j a b, (i < j)%nat → common !! i = Some a → common !! j = Some b →
                (b.2 ≤ a.2)%nat)
  ∧ (∀ m, m ∈ msgs → m ∉ common.*1 →
          length common = 5%nat ∧ ∀ a, a ∈ common → (occurrences m msgs ≤ a.2)%nat).
Proof.
  intros common msgs. subst common. cbn [analyze_errors fst]. fold msgs.
  unfold most_common.
  set (c := counter [] msgs). set (ranking := foldr insert_by_count [] c).
  destruct (counter_spec [] msgs) as (Hc1 & Hc2 & Hc3). fold c in Hc1, Hc2, Hc3.
  destruct (ranking_spec c) as [Hperm Hsorted]. fold ranking in Hperm, Hsorted.
  assert (Hnd : NoDup (ranking.*1)) by (by rewrite Hperm).
  split; [rewrite length_take; lia|]. split; [|split; [|split]].
  - rewrite <- (take_drop 5 ranking), fmap_app in Hnd.
    by apply NoDup_app in Hnd as [? _].
  - intros m n Hm. assert (Hin : (m, n) ∈ c).
    { rewrite <- Hperm. apply elem_of_take in Hm as (k & Hk & _).
      by eapply list_elem_of_lookup_2. }
    destruct (Hc1 m n Hin) as (? & _ & ?). done.
  - intros i j a b Hij Hi Hj.
    assert (Hj' := Hj). apply lookup_lt_Some in Hj'. rewrite length_take in Hj'.
    rewrite lookup_take_lt in Hi by lia. rewrite lookup_take_lt in Hj by lia.
    apply (sorted_lookup ranking i j a b Hsorted Hij Hi Hj).
  - intros m Hm Hnot.
    assert (Hin : (m, occurrences m msgs) ∈ ranking).
    { rewrite Hperm. apply Hc2; [done|]. by intros ?%elem_of_nil. }
    rewrite <- (take_drop 5 ranking) in Hin.
    apply elem_of_app in Hin as [Hin|Hin].
    { exfalso. apply Hnot. apply list_elem_of_fmap. by exists (m, occurrences m msgs). }
    split.
    + rewrite length_take. apply list_elem_of_lookup in Hin as [k Hk].
      apply lookup_lt_Some in Hk. rewrite length_drop in Hk. lia.
    + intros a Ha. apply (sorted_take_drop ranking 5 a _ Hsorted Ha Hin).
Qed.

End ErrorPatternsMore.

(** ** The findings analyzer: groups *)

Section FindingsMore.
Import FindingsAnalyzer Grouping.

Lemma string_eqb_comm s1 s2 : String.eqb s1 s2 = String.eqb s2 s1.
Proof.
  destruct (String.eqb s1 s2) eqn:E1, (String.eqb s2 s1) eqn:E2; try done.
  - apply String.eqb_eq in E1. apply String.eqb_neq in E2. congruence.
  - apply String.eqb_eq in E2. apply String.eqb_neq in E1. congruence.
Qed.

(** X26. [_are_similar] is reflexive and symmetric. *)
Theorem are_similar_symmetric (text1 text2 : string) :
  _are_similar text1 text1 = true
  ∧ _are_similar text1 text2 = _are_similar text2 text1.
Proof.
  split.
  - unfold _are_similar. by rewrite String.eqb_refl.
  - unfold _are_similar.
    set (t1 := Py.strip (Py.lower text1)). set (t2 := Py.strip (Py.lower text2)).
    rewrite (string_eqb_comm t2 t1). destruct (String.eqb t1 t2); [done|].
    rewrite (orb_comm (Py.contains t1 t2)).
    destruct (Py.contains t2 t1 || Py.contains t1 t2); [done|].
    rewrite (orb_comm (bool_decide (size (words t2) = 0%nat))).
    destruct (bool_decide (size (words t1) = 0%nat) || _); [done|].
    rewrite (Nat.min_comm (size (words t2))).
    by rewrite (comm_L (∩) (words t2)).
Qed.

Lemma enumerate_lookup {A} (l : list A) k j x :
  imap (λ i y, (k + i, y)%nat) l !! j = Some x → x.1 = (k + j)%nat ∧ l !! j = Some x.2.
Proof.
  rewrite list_lookup_imap. destruct (l !! j) as [y|]; [|done].
  cbn. by intros [= <-].
Qed.

Lemma collect_fold findings desc first seen0 lo js st :
  (∀ j f, (j, f) ∈ js → (lo ≤ j < length findings)%nat ∧ f ∈ findings) →
  NoDup (js.*1) →
  collected findings desc seen0 lo st first →
  collected findings desc seen0 lo (fold_left (collect desc) js st) first.
Proof.
  revert st. induction js as [|[j other] js IH]; intros st Hjs Hnd Hst; [done|].
  cbn [fold_left]. apply IH.
  - intros j' f Hin. apply Hjs. by apply list_elem_of_further.
  - by apply NoDup_cons in Hnd as [_ ?].
  - destruct Hst as (others & marked & -> & Hdisj & Hsize & Hrange & Hsim).
    unfold collect.
    destruct (bool_decide (j ∈ marked ∪ seen0)) eqn:Hj.
    { exists others, marked. done. }
    apply bool_decide_eq_false in Hj.
    destruct (_are_similar desc (e_description other)) eqn:Hs.
    + exists (others ++ [other]), ({[j]} ∪ marked).
      destruct (Hjs j other (list_elem_of_here _ _)) as [Hjr Hof].
      split; [f_equal; set_solver|]. split; [set_solver|]. split; [|split].
      * rewrite size_union by set_solver. rewrite size_singleton, length_app.
        cbn [length]. lia.
      * intros j' [Hj'%elem_of_singleton|Hj']%elem_of_union; [by subst j'|by apply Hrange].
      * intros f [Hf|Hf%list_elem_of_singleton]%elem_of_app; [by apply Hsim|by subst f].
    + exists others, marked. done.
Qed.

Lemma enumerate_drop_spec (findings : list entry) i j f :
  (j, f) ∈ drop (S i) (enumerate findings) →
  (S i ≤ j < length findings)%nat ∧ f ∈ findings.
Proof.
  intros [k Hk]%list_elem_of_lookup. rewrite lookup_drop in Hk.
  unfold enumerate in Hk. rewrite list_lookup_imap in Hk.
  destruct (findings !! (S i + k)%nat) as [y|] eqn:Hy; [|done].
  cbn in Hk. injection Hk as <- <-.
  split; [|by eapply list_elem_of_lookup_2].
  apply lookup_lt_Some in Hy. lia.
Qed.

Lemma enumerate_fst {A} (l : list A) : (enumerate l).*1 = seq 0 (length l).
Proof.
  unfold enumerate. apply list_eq. intros i.
  rewrite list_lookup_fmap, list_lookup_imap.
  destruct (l !! i) as [y|] eqn:Hy; cbn.
  - symmetry. apply lookup_seq. split; [done|]. by apply lookup_lt_Some in Hy.
  - symmetry. apply lookup_seq_ge. by apply lookup_ge_None in Hy.
Qed.

Lemma enumerate_drop_nodup {A} (l : list A) i : NoDup ((drop i (enumerate l)).*1).
Proof.
  rewrite fmap_drop, enumerate_fst.
  pose proof (NoDup_seq 0 (length l)) as Hnd.
  rewrite <- (take_drop i (seq 0 (length l))) in Hnd.
  by apply NoDup_app in Hnd as (_ & _ & ?).
Qed.

Lemma sum_list_snoc (l : list nat) (n : nat) :
  sum_list (l ++ [n]) = (sum_list l + n)%nat.
Proof. induction l as [|m l IH]; cbn; [lia|]. cbn in IH. rewrite IH. lia. Qed.

Lemma visit_step findings i finding st :
  findings !! i = Some finding →
  grouped_upto findings i st →
  grouped_upto findings (S i) (visit findings st (i, finding)).
Proof.
  intros Hi (Hgroups & Hseen & heads & Hlt & Hdisj & Hsize & Hsum).
  destruct st as [grouped seen]. cbn [fst snd] in *. unfold visit.
  destruct (bool_decide (i ∈ seen)) eqn:Hin.
  { split; [done|]. split; [done|]. exists heads. split; [|done].
    intros h Hh. specialize (Hlt h Hh). lia. }
  apply bool_decide_eq_false in Hin.
  assert (Hfin : finding ∈ findings) by (by eapply list_elem_of_lookup_2).
  assert (Hcol : collected findings (e_description finding) seen (S i)
                   (fold_left (collect (e_description finding))
                      (drop (S i) (enumerate findings)) ([finding], seen)) finding).
  { apply collect_fold.
    - intros j f. apply enumerate_drop_spec.
    - apply enumerate_drop_nodup.
    - exists [], ∅. split; [by rewrite (left_id_L ∅ (∪))|].
      split; [set_solver|]. split; [by rewrite size_empty|].
      split; [set_solver|]. by intros f ?%elem_of_nil. }
  destruct Hcol as (others & marked & -> & Hmd & Hms & Hmr & Hsim).
  cbn [length].
  destruct others as [|o others].
  - cbn [length Nat.ltb Nat.leb]. apply size_empty_inv in Hms.
    apply leibniz_equiv in Hms. subst marked. rewrite (left_id_L ∅ (∪)).
    split; [done|]. split; [done|]. exists heads. split; [|done].
    intros h Hh. specialize (Hlt h Hh). lia.
  - cbn [length Nat.ltb Nat.leb fst snd].
    assert (Hi_heads : i ∉ heads).
    { intros Hh. specialize (Hlt i Hh). lia. }
    assert (Hi_marked : i ∉ marked).
    { intros Hm. specialize (Hmr i Hm). lia. }
    assert (Hhm : heads ## marked).
    { intros h Hh Hm. specialize (Hlt h Hh). specialize (Hmr h Hm). lia. }
    unfold grouped_upto. cbn [fst snd].
    split; [|split].
    + apply Forall_app. split; [done|]. constructor; [|constructor].
      exists finding, (o :: others). split; [done|].
      split; [intros f Hf; by apply Hsim|]. split; [done|].
      split; [intros f Hf; by apply Hsim|]. done.
    + intros j [Hj|Hj]%elem_of_union; [|by apply Hseen].
      specialize (Hmr j Hj). lia.
    + exists ({[i]} ∪ heads). split; [|split; [|split]].
      * intros h [->%elem_of_singleton|Hh]%elem_of_union; [lia|].
        specialize (Hlt h Hh). lia.
      * set_solver.
      * rewrite size_union by set_solver. rewrite size_singleton, length_app.
        cbn [length]. lia.
      * rewrite fmap_app. cbn [fmap list_fmap g_count]. rewrite sum_list_snoc.
        rewrite Hsum. rewrite !size_union by set_solver.
        rewrite size_singleton. cbn [length] in Hms. lia.
Qed.

Lemma visit_fold findings l k st :
  drop k findings = l →
  grouped_upto findings k st →
  grouped_upto findings (k + length l)
    (fold_left (visit findings) (imap (λ i x, (k + i, x)%nat) l) st).
Proof.
  revert k st. induction l as [|x l IH]; intros k st Hdrop Hst.
  - cbn [length imap fold_left]. by rewrite Nat.add_0_r.
  - cbn [imap fold_left length]. rewrite Nat.add_0_r.
    replace (k + S (length l))%nat with (S k + length l)%nat by lia.
    rewrite (imap_ext _ (λ i y, (S k + i, y)%nat)); [|intros; cbn; f_equal; lia].
    apply IH.
    + replace (S k) with (k + 1)%nat by lia. by rewrite <- drop_drop, Hdrop.
    + apply visit_step; [|done].
      rewrite <- (Nat.add_0_r k), <- lookup_drop. by rewrite Hdrop.
Qed.

Lemma group_of_count findings g : group_of findings g → (2 ≤ g_count g)%nat.
Proof.
  intros (first & others & _ & _ & Hne & _ & ->). cbn [g_count].
  destruct others; [done|]. cbn [length]. lia.
Qed.

Lemma groups_spec (findings : list entry) :
  let groups := _group_similar_findings findings in
  Forall (group_of findings) groups
  ∧ (sum_list (g_count <$> groups) ≤ length findings)%nat
  ∧ (2 * length groups ≤ length findings)%nat.
Proof.
  intros groups. subst groups. unfold _group_similar_findings.
  assert (Hinit : grouped_upto findings 0 ([], ∅)).
  { split; [constructor|]. split; [set_solver|]. exists ∅.
    split; [set_solver|]. split; [set_solver|]. by rewrite !size_empty. }
  pose proof (visit_fold findings findings 0 ([], ∅) eq_refl Hinit) as Hfin.
  change (imap (λ i x, (0 + i, x)%nat) findings) with (enumerate findings) in Hfin.
  destruct (fold_left (visit findings) (enumerate findings) ([], ∅))
    as [grouped seen]. cbn [fst snd] in *.
  destruct Hfin as (Hgroups & Hseen & heads & Hlt & Hdisj & Hsize & Hsum).
  cbn [fst snd] in *.
  assert (Hle : (size heads + size seen ≤ length findings)%nat).
  { rewrite <- size_union by done.
    rewrite <- (size_set_seq (C := gset nat) 0 (length findings)).
    apply subseteq_size. intros j [Hj|Hj]%elem_of_union; apply elem_of_set_seq.
    - specialize (Hlt j Hj). lia.
    - specialize (Hseen j Hj). lia. }
  split; [done|]. split; [lia|].
  assert (H2 : (2 * length grouped ≤ sum_list (g_count <$> grouped))%nat).
  { clear -Hgroups. induction Hgroups as [|g gs Hg _ IH]; [done|].
    apply group_of_count in Hg. rewrite fmap_cons.
    change (sum_list (g_count g :: (g_count <$> gs)))
      with (g_count g + sum_list (g_count <$> gs))%nat.
    cbn [length]. lia. }
  lia.
Qed.

(** X27. Every group of [_group_similar_findings] consists of a first
    finding and at least one later finding similar to it, counts its members
    and lists their scenarios; the counts of all groups together do not
    exceed the number of findings, so no finding is counted in two groups,
    and there are at most half as many groups as findings. *)
Theorem groups_are_disjoint (findings : list entry) :
  let groups := _group_similar_findings findings in
  Forall (group_of findings) groups
  ∧ (sum_list (g_count <$> groups) ≤ length findings)%nat
  ∧ (2 * length groups ≤ length findings)%nat.
Proof. apply groups_spec. Qed.

Lemma by_type_inner scenario t fs acc :
  let es := (λ f, mkEntry scenario (description f) (evidence f))
              <$> List.filter (λ f, String.eqb (finding_type f) t) fs in
  fold_left (by_type_step scenario) fs acc !! t
  = match es with
    | [] => acc !! t
    | _ => Some (default [] (acc !! t) ++ es)
    end.
Proof.
  revert acc. induction fs as [|f fs IH]; intros acc; [done|].
  cbn [fold_left]. cbv zeta in IH |- *. rewrite IH. cbn [List.filter].
  unfold by_type_step.
  destruct (String.eqb (finding_type f) t) eqn:Ht.
  - apply String.eqb_eq in Ht. rewrite Ht, lookup_insert_eq, fmap_cons.
    cbn [default].
    match goal with
    | |- context [fmap ?g (List.filter ?p fs)] =>
        destruct (fmap g (List.filter p fs)) as [|e es]
    end.
    + done.
    + unfold id. by rewrite <- app_assoc.
  - apply String.eqb_neq in Ht. by rewrite lookup_insert_ne.
Qed.

Lemma by_type_outer t results acc :
  fold_left (λ acc r, fold_left (by_type_step (scenario_name r)) (findings r) acc)
            results acc !! t
  = match entries_of_type t results with
    | [] => acc !! t
    | es => Some (default [] (acc !! t) ++ es)
    end.
Proof.
  revert acc. induction results as [|r results IH]; intros acc; [done|].
  cbn [fold_left]. rewrite IH. unfold entries_of_type. cbn [mbind list_bind].
  fold (entries_of_type t results). rewrite by_type_inner.
  match goal with
  | |- context [fmap ?g (List.filter ?p (findings r))] =>
      destruct (fmap g (List.filter p (findings r))) as [|e es]
  end; [done|].
  cbn [default app]. destruct (entries_of_type t results) as [|e' es'].
  - unfold id. by rewrite app_nil_r.
  - unfold id. by rewrite <- app_assoc.
Qed.

(** X28. The findings filed under a type are those of that type over all
    results, in the order of the results; the common findings of the type are
    the groups of exactly these entries, and the type has no entry when they
    form no group. *)
Theorem common_findings_by_type (results : list WorkerResult) (t : string) :
  let entries := entries_of_type t results in
  findings_by_type results !! t
  = match entries with [] => None | _ => Some entries end
  ∧ (analyze_findings results).1 !! t
    = match _group_similar_findings entries with
      | [] => None
      | grouped => Some grouped
      end.
Proof.
  intros entries.
  assert (Hby : findings_by_type results !! t
                = match entries with [] => None | _ => Some entries end).
  { unfold findings_by_type. rewrite by_type_outer. fold entries.
    by destruct entries. }
  split; [exact Hby|].
  unfold analyze_findings. cbn [fst]. rewrite lookup_omap, Hby.
  destruct entries as [|e1 [|e2 es]] eqn:He; [done| |done].
  cbn [mbind option_bind length Nat.ltb Nat.leb].
  destruct (groups_spec [e1]) as (_ & _ & Hlen). cbn [length] in Hlen.
  destruct (_group_similar_findings [e1]); [done|]. cbn [length] in Hlen. lia.
Qed.

End FindingsMore.

(** ** Recommendations *)

Section RecommendationProps.
Import Aggregator Recommendations ErrorOrigins Statistics.









End RecommendationProps.

(** ** The monitor *)

Section MonitorProps.
Import Worker WorkerSummary.

Lemma filter_length_perm {A} (p : A → bool) (l1 l2 : list A) :
  l1 ≡ₚ l2 → length (List.filter p l1) = length (List.filter p l2).
Proof.
  induction 1 as [|x l1 l2 _ IH|x y l|l1 l2 l3 _ IH1 _ IH2]; cbn [List.filter].
  - done.
  - destruct (p x); cbn [length]; by rewrite IH.
  - by destruct (p x), (p y).
  - by rewrite IH1.
Qed.

Lemma tally_insert p (m : gmap string Monitor.WorkerStatus) id ws :
  Monitor.tally p (<[id := ws]> m)
  = ((if p (Monitor.status ws) then 1 else 0) + Monitor.tally p (delete id m))%nat.
Proof.
  unfold Monitor.tally. rewrite <- (insert_delete_eq m id ws).
  rewrite (filter_length_perm _ _ ((id, ws) :: map_to_list (delete id m)).*2).
  - cbn [fmap list_fmap snd List.filter].
    by destruct (p (Monitor.status ws)).
  - apply fmap_Permutation, map_to_list_insert, lookup_delete_eq.
Qed.

(** One update: the entry of its worker is replaced, the others stay. *)
Lemma handle_one self now upd :
  ∃ ws0,
    ws0 = default (Monitor.new_status now (Monitor.u_worker_id upd) (Monitor.u_scenario upd))
                  (Monitor.workers self !! Monitor.u_worker_id upd)
    ∧ Monitor.workers (Monitor._handle_status_update self (now, upd))
      = <[Monitor.u_worker_id upd :=
            Monitor.update now ws0 (Monitor.u_status upd) (Monitor.u_message upd)]>
          (Monitor.workers self).
Proof.
  eexists. split; [reflexivity|]. unfold Monitor._handle_status_update.
  cbn [Monitor._update_stats Monitor.workers].
  by destruct (Monitor.workers self !! Monitor.u_worker_id upd).
Qed.

Lemma handle_stats self now upd :
  let m := Monitor._handle_status_update self (now, upd) in
  Monitor.completed (Monitor.stats m)
  = Monitor.tally (String.eqb "completed") (Monitor.workers m)
  ∧ Monitor.failed (Monitor.stats m)
    = Monitor.tally (String.eqb "failed") (Monitor.workers m)
  ∧ Monitor.running (Monitor.stats m)
    = Monitor.tally Monitor.is_running (Monitor.workers m)
  ∧ Monitor.total (Monitor.stats m) = Monitor.total (Monitor.stats self).
Proof. done. Qed.

(** The updates of one worker leave the entries of the others alone. *)
Lemma process_others id sc events clock self :
  let m := Monitor.process self (Monitor.updates_of id sc clock events) in
  delete id (Monitor.workers m) = delete id (Monitor.workers self)
  ∧ Monitor.total (Monitor.stats m) = Monitor.total (Monitor.stats self).
Proof.
  revert clock self. induction events as [|e events IH]; intros clock self; [done|].
  unfold Monitor.updates_of, Monitor.process. cbn [imap fold_left].
  set (upd := Monitor.mkUpdate id (name sc) e.1 e.2).
  destruct (handle_one self (clock 0%nat) upd) as (ws0 & _ & Hstep).
  destruct (IH (clock ∘ S) (Monitor._handle_status_update self (clock 0%nat, upd)))
    as [Hw Ht].
  cbv zeta in Hw, Ht. unfold Monitor.updates_of, Monitor.process in Hw, Ht.
  split; [|etransitivity; [exact Ht|reflexivity]].
  etransitivity; [exact Hw|].
  rewrite Hstep. cbn [Monitor.u_worker_id upd]. by rewrite delete_insert_eq.
Qed.

Lemma updates_of_app id sc clock l1 l2 :
  Monitor.updates_of id sc clock (l1 ++ l2)
  = Monitor.updates_of id sc clock l1
    ++ Monitor.updates_of id sc (λ i, clock (length l1 + i)%nat) l2.
Proof. unfold Monitor.updates_of. by rewrite imap_app. Qed.

(** X30. When the monitor has handled the status events of a worker run,
    it shows that worker in status [cleanup], with the failure message kept
    as its error when the run failed; the worker is counted as neither
    completed nor failed nor running, the counters being those of the other
    workers, and the total is unchanged. *)
Theorem monitor_after_worker_run (world : World) (id : string) (sc : TestScenario)
    (env0 : gmap string string) (clock : nat → Q) (self : Monitor.ParallelMonitor) :
  let w := run world (new_worker id sc env0) in
  let m := Monitor.process self (Monitor.updates_of id sc clock (status_queue w)) in
  ∃ r ws,
    result_queue w = [r]
    ∧ Monitor.workers m = <[id := ws]> (Monitor.workers self)
    ∧ Monitor.status ws = "cleanup"
    ∧ Monitor.message ws = "Cleaning up resources"
    ∧ (success r = false
       → Monitor.error ws = Some ("Failed: " +:+ default "" (error r)))
    ∧ Monitor.completed (Monitor.stats m)
      = Monitor.tally (String.eqb "completed") (delete id (Monitor.workers self))
    ∧ Monitor.failed (Monitor.stats m)
      = Monitor.tally (String.eqb "failed") (delete id (Monitor.workers self))
    ∧ Monitor.running (Monitor.stats m)
      = Monitor.tally Monitor.is_running (delete id (Monitor.workers self))
    ∧ Monitor.total (Monitor.stats m) = Monitor.total (Monitor.stats self).
Proof.
  intros w m. subst m w.
  destruct (run_summarised world id sc env0)
    as (r & Hq & _ & _ & _ & _ & _ & before & Hstatus & _).
  rewrite Hstatus. exists r.
  rewrite updates_of_app. unfold Monitor.process. rewrite fold_left_app.
  destruct (process_others id sc before clock self) as [Hothers Htotal].
  cbv zeta in Hothers, Htotal. unfold Monitor.process in Hothers, Htotal.
  set (m1 := fold_left Monitor._handle_status_update
               (Monitor.updates_of id sc clock before) self) in *.
  unfold Monitor.updates_of. cbn [imap fold_left]. unfold compose.
  set (t1 := clock (length before + 0)%nat).
  set (t2 := clock (length before + 1)%nat).
  set (u1 := Monitor.mkUpdate id (name sc) (verdict_event sc r).1 (verdict_event sc r).2).
  set (u2 := Monitor.mkUpdate id (name sc) ("cleanup", "Cleaning up resources").1
               ("cleanup", "Cleaning up resources").2).
  destruct (handle_one m1 t1 u1) as (ws1 & _ & H1).
  set (m2 := Monitor._handle_status_update m1 (t1, u1)) in *.
  destruct (handle_one m2 t2 u2) as (ws2 & Hws2 & H2).
  destruct (handle_stats m2 t2 u2) as (Hc & Hf & Hr & Ht).
  set (m3 := Monitor._handle_status_update m2 (t2, u2)) in *.
  cbn [Monitor.u_worker_id Monitor.u_status Monitor.u_message u1 u2 fst snd] in *.
  rewrite H1, lookup_insert_eq in Hws2. cbn [default] in Hws2.
  rewrite H1, insert_insert_eq in H2.
  assert (Hm3 : Monitor.workers m3
                = <[id := Monitor.update t2 ws2 "cleanup" "Cleaning up resources"]>
                    (Monitor.workers self)).
  { rewrite H2, <- insert_delete_eq, Hothers. by rewrite insert_delete_eq. }
  eexists. split; [exact Hq|]. split; [exact Hm3|].
  split; [reflexivity|]. split; [reflexivity|]. split; [|split; [|split; [|split]]].
  - intros Hfail. rewrite Hws2. unfold verdict_event. rewrite Hfail. reflexivity.
  - rewrite Hc, Hm3, tally_insert. reflexivity.
  - rewrite Hf, Hm3, tally_insert. reflexivity.
  - rewrite Hr, Hm3, tally_insert. reflexivity.
  - rewrite Ht. unfold m2. cbn [Monitor._handle_status_update Monitor._update_stats
                                 Monitor.stats Monitor.total]. exact Htotal.
Qed.

End MonitorProps.
